(** * trx_file_zarr: the TrxFile container, its append and select

    A shallow embedding of [src/trx_file_zarr/trx_file_zarr.py].

    The zarr hierarchy of a container is a record of finite maps; the
    numpy kernels the module relies on ([ediff1d], [cumsum], [argsort],
    [searchsorted], [take], fancy indexing) are written out as list
    functions with the integer widths of the source.  Payloads are never
    computed on by the operations studied here: they are copied, and
    converted to the dtype of the array they are written into.  So an
    array is a list of rows, a row is the list of the values it holds
    (numbers, coded as integers), and a dtype is known by the conversion
    it stands for.  Rows appended to an array are taken to have the
    shape of the rows it holds.

    Contents: the numpy kernels; the module-level functions; the
    container and the methods [init_as], [prune_metadata], [is_empty],
    [streamlines], [select], [append] and [get_group], and
    [concatenate]; validity of a container; then the properties of
    [compute_lengths], of the range test of [select], of [append], of
    the group intersection, and of the selection out of a valid
    container; then those of the pruning pass, of chained selections
    and appends, of [concatenate] and of [get_group]. *)

From Stdlib Require Import ZArith QArith Qabs Lia.
From stdpp Require Import gmap strings list fin_maps sorting.

Open Scope Z_scope.

(** ** Errors and fallible results *)

(** The source raises [ValueError] with six different messages; they are
    told apart here.  [KeyError], [IndexError] and [BroadcastError] are
    the exceptions of zarr and numpy that can surface mid-operation. *)
Inductive error : Type :=
  | SchemaMismatch          (* 'Mismatched space attributes between TrxFile.' *)
  | ImmutableBackendError   (* 'Cannot append to a Zip. ...' *)
  | ConflictingPolicy       (* 'Cannot delete and keep data_per_group ...' *)
  | KeySetMismatch          (* 'data_per_point / data_per_streamline keys must fit ...' *)
  | AmbiguousGroupPolicy    (* 'Choose a strategy for data_per_group: ...' *)
  | IndexOutOfRange         (* 'Invalid indices.' *)
  | KeyError
  | IndexError
  | BroadcastError.

Inductive result (A : Type) : Type :=
  | Ok (a : A)
  | Err (e : error).
Arguments Ok {A} a.
Arguments Err {A} e.

#[global] Instance result_ret : MRet result := λ A a, Ok a.
#[global] Instance result_bind : MBind result := λ A B f r,
  match r with Ok a => f a | Err e => Err e end.

Definition of_option {A} (e : error) (o : option A) : result A :=
  match o with Some a => Ok a | None => Err e end.

Definition to_option {A} (r : result A) : option A :=
  match r with Ok a => Some a | Err _ => None end.

(** ** Fixed-width integers *)

Definition uint16 (z : Z) : Z := z mod 2 ^ 16.
Definition uint32 (z : Z) : Z := z mod 2 ^ 32.
Definition uint64 (z : Z) : Z := z mod 2 ^ 64.

(** ** numpy kernels *)

(** [np.ediff1d] on a [uint64] array: consecutive differences, wrapping. *)
Fixpoint ediff1d (ary : list Z) : list Z :=
  match ary with
  | a :: (b :: _) as rest => uint64 (b - a) :: ediff1d rest
  | _ => []
  end.

(** [np.cumsum] of a [uint32] array accumulates in [uint64]. *)
Fixpoint cumsum_from (acc : Z) (l : list Z) : list Z :=
  match l with
  | [] => []
  | x :: l' => let s := uint64 (acc + x) in s :: cumsum_from s l'
  end.

Definition cumsum (l : list Z) : list Z := cumsum_from 0 l.

(** [np.max] and [np.min]; only called on non-empty arrays. *)
Definition np_max (l : list Z) : Z := foldr Z.max (hd 0 l) l.
Definition np_min (l : list Z) : Z := foldr Z.min (hd 0 l) l.

(** [a[idx]] with an array [idx] of unsigned integers: every index must
    be in range, numpy raises [IndexError] otherwise. *)
Definition fancy_index {A} (a : list A) (idx : list Z) : result (list A) :=
  of_option IndexError (mapM (λ i, a !! Z.to_nat i) idx).

(** [np.argsort]: a permutation of the positions that sorts the values.
    Ties are kept in position order here; numpy's default sort does not
    promise an order among equal values, and the lemmas below only use
    that the outcome is a sorting permutation. *)
Fixpoint insert_pos (a : list Z) (p : nat) (sorted : list nat) : list nat :=
  match sorted with
  | [] => [p]
  | q :: rest =>
      if a !!! p <=? a !!! q then p :: sorted else q :: insert_pos a p rest
  end.

Definition argsort (a : list Z) : list nat :=
  foldr (insert_pos a) [] (seq 0 (length a)).

(** [np.searchsorted(a, v)] with the default [side='left'] on a sorted
    array: the first position whose value is not below [v]. *)
Fixpoint searchsorted (a : list Z) (v : Z) : nat :=
  match a with
  | [] => 0%nat
  | x :: a' => if x <? v then S (searchsorted a' v) else 0%nat
  end.

(** [np.take(a, i, mode="clip")] for one index. *)
Definition take_clip (a : list nat) (i : nat) : nat :=
  a !!! (i `min` (length a - 1))%nat.

(** ** Module-level functions *)

(** [intersect_groups(group, indices)], for an array [indices] (the
    scalar case of the source is not used by [select]).  [np.take]
    raises on an empty [index] unless nothing is to be taken. *)
Definition intersect_groups (group indices : list Z) : result (list Z) :=
  let index := argsort indices in
  let sorted_x := (λ p, indices !!! p) <$> index in
  let sorted_index := searchsorted sorted_x <$> group in
  if bool_decide (index = [] ∧ sorted_index ≠ []) then Err IndexError
  else
    let yindex := take_clip index <$> sorted_index in
    let mask := zip_with (λ y g, negb (indices !!! y =? g)) yindex group in
    Ok (Z.of_nat <$> (fst <$> filter (λ ym, ym.2 = false) (zip yindex mask))).

(** [compute_lengths(offsets, nb_points)].  The last difference,
    [nb_points - offsets[-1]], is taken in the unsigned 64-bit arithmetic
    of the offsets; the final cast to [uint32] makes the width of that
    intermediate immaterial. *)
Definition compute_lengths (offsets : list Z) (nb_points : Z) : list Z :=
  match offsets with
  | [] => [0]
  | [_] => uint32 <$> [nb_points]
  | _ => uint32 <$> (ediff1d offsets ++ [uint64 (nb_points - List.last offsets 0)])
  end.

(** [_check_same_keys]: the sorted key lists are equal.  The keys of a
    zarr group are distinct, so this compares the two key sets. *)
Definition _check_same_keys (key_1 key_2 : gset string) : bool :=
  bool_decide (key_1 = key_2).

(** ** The container *)

(** The backend a container is bound to ([zarr.storage] classes). *)
Inductive store_kind : Type :=
  | TempStore
  | ZipStore
  | MemoryStore
  | DirectoryStore.

#[global] Instance store_kind_eq_dec : EqDecision store_kind.
Proof. solve_decision. Defined.

(** One row of a zarr array: the values it holds. *)
Abbreviation row := (list Z) (only parsing).

(** The dtype of an array.  An array keeps the dtype it was created
    with, and [zarr.Array.append] converts the rows it is handed to that
    dtype ([ndarray.astype]) before it stores them.  A dtype is known
    here by this conversion of a row; which values it rounds, wraps or
    leaves alone is left open. *)
Record dtype : Type := mkDtype {
  astype : row → row
}.

(** The dtypes of the payload arrays of a container: of [positions], and
    of the arrays of [data_per_point], [data_per_streamline] and
    [data_per_group], by key (of no consequence where the container has
    no array under the key).  The [offsets] are [uint64]; the members of
    a group are streamline indices, which an integer dtype wide enough
    for them stores as they are. *)
Record dtypes : Type := mkDtypes {
  positions_dtype : dtype;
  dpp_dtype : string → dtype;
  dps_dtype : string → dtype;
  dpg_dtype : string → string → dtype
}.

(** The root group of a container: the attributes [VOXEL_TO_RASMM],
    [DIMENSIONS], [NB_POINTS], [NB_STREAMLINES], the arrays [positions]
    and [offsets], and the four child groups.  [data_per_group] holds one
    sub-group per group key.  [_dtype] gives the dtypes the payload
    arrays were created with. *)
Record TrxFile : Type := mkTrxFile {
  voxel_to_rasmm : list Q;
  dimensions : list Z;
  nb_points : Z;
  nb_streamlines : Z;
  _zpos : list row;
  _zoff : list Z;
  _zdpp : gmap string (list row);
  _zdps : gmap string (list row);
  _zgrp : gmap string (list Z);
  _zdpg : gmap string (gmap string (list row));
  _dtype : dtypes;
  storage : store_kind
}.

(** [nibabel]'s ragged array: flat data with offsets and lengths. *)
Record ArraySequence : Type := mkArraySequence {
  _data : list row;
  _offsets : list Z;
  _lengths : list Z
}.

(** Modelled from the spec: [ArraySequence.__getitem__] and [get_data]
    belong to nibabel, which is not part of the sources.  Indexing with
    an integer array gathers the offsets and lengths at those indices
    over the same data; [get_data] concatenates each selected
    streamline's point block, [_data[offset : offset + length]], in
    selection order.  A block that reaches past the end of the data
    cannot be copied into its slot and is reported as an error. *)
Definition getitem (s : ArraySequence) (idx : list Z) : result ArraySequence :=
  off ← fancy_index (_offsets s) idx;
  len ← fancy_index (_lengths s) idx;
  Ok (mkArraySequence (_data s) off len).

(** Modelled from the spec: the point block of one selected streamline
    (nibabel's, see [getitem]): the rows [offset .. offset + length - 1]
    of the data, or nothing when the data ends before. *)
Definition copy_block (data : list row) (offset length : Z) : option (list row) :=
  let chunk := take (Z.to_nat length) (drop (Z.to_nat offset) data) in
  if bool_decide (List.length chunk = Z.to_nat length) then Some chunk else None.

(** Modelled from the spec: [ArraySequence.get_data] (nibabel's, see
    [getitem]): the blocks of the selected streamlines, concatenated in
    selection order. *)
Definition get_data (s : ArraySequence) : result (list row) :=
  of_option BroadcastError
    ((λ blocks, concat blocks)
       <$> mapM (λ ol, copy_block (_data s) ol.1 ol.2)
                (zip (_offsets s) (_lengths s))).

(** Applying a fallible function to every array of a group.  zarr walks
    the keys in sorted order; the order only decides which of several
    failing keys is the one reported. *)
Definition first_error {A B} (f : A → result B) (m : gmap string A) : option error :=
  map_fold (λ _ a acc, match f a with Err e => Some e | Ok _ => acc end) None m.

Definition map_try {A B} (f : A → result B) (m : gmap string A)
  : result (gmap string B) :=
  match first_error f m with
  | Some e => Err e
  | None => Ok (omap (λ a, to_option (f a)) m)
  end.

(** [zarr.Array.append] on the array stored under a key. *)
Definition append_rows {A} (old new : option (list A)) : option (list A) :=
  match old, new with
  | Some a, Some d => Some (a ++ d)
  | Some a, None => Some a
  | None, _ => None
  end.

(** [np.allclose(a, b)] with its default tolerances, on the reals the
    entries denote: [|a - b| <= atol + rtol * |b|] entrywise. *)
Definition isclose (a b : Q) : bool :=
  Qle_bool (Qabs (a - b)) ((1 # 100000000) + (1 # 100000) * Qabs b).

Definition allclose (a b : list Q) : bool :=
  bool_decide (length a = length b) && forallb (λ ab, isclose ab.1 ab.2) (zip a b).

(** [np.array_equal] on the [dimensions], which the getter reads as
    [uint16]. *)
Definition array_equal (a b : list Z) : bool :=
  bool_decide (uint16 <$> a = uint16 <$> b).

Module TrxFile.

(** [TrxFile()]: identity affine, unit grid, nothing stored; the
    [positions] array is created as [np.float16], the dtype handed over
    as [float16], and there is no other payload array. *)
Definition blank (float16 : dtype) : TrxFile :=
  {| voxel_to_rasmm := [1; 0; 0; 0; 0; 1; 0; 0; 0; 0; 1; 0; 0; 0; 0; 1]%Q;
     dimensions := [1; 1; 1];
     nb_points := 0;
     nb_streamlines := 0;
     _zpos := [];
     _zoff := [];
     _zdpp := ∅;
     _zdps := ∅;
     _zgrp := ∅;
     _zdpg := ∅;
     _dtype := {| positions_dtype := float16;
                  dpp_dtype := λ _, float16;
                  dps_dtype := λ _, float16;
                  dpg_dtype := λ _ _, float16 |};
     storage := TempStore |}.

(** [TrxFile(init_as=t)]: same space attributes and key sets, zero rows,
    every array with the dtype of the template's, a fresh temporary
    store.  A per-group sub-group is only created when the template's
    sub-group has members. *)
Definition init_as (t : TrxFile) : TrxFile :=
  {| voxel_to_rasmm := voxel_to_rasmm t;
     dimensions := dimensions t;
     nb_points := 0;
     nb_streamlines := 0;
     _zpos := [];
     _zoff := [];
     _zdpp := (λ _, []) <$> _zdpp t;
     _zdps := (λ _, []) <$> _zdps t;
     _zgrp := (λ _, []) <$> _zgrp t;
     _zdpg := (λ sub : gmap string (list row), (λ _, []) <$> sub)
                <$> filter (λ kv, size kv.2 ≠ 0%nat) (_zdpg t);
     _dtype := _dtype t;
     storage := TempStore |}.

(** Deleting the arrays of a group whose first dimension is zero (all of
    them under [force]). *)
Definition prune_arrays {A} (force : bool) (m : gmap string (list A))
  : gmap string (list A) :=
  filter (λ kv, ¬ (length kv.2 = 0%nat ∨ force = true)) m.

Definition prune_metadata (self : TrxFile) (force : bool) : TrxFile :=
  let zdpp := prune_arrays force (_zdpp self) in
  let zdps := prune_arrays force (_zdps self) in
  let zgrp := prune_arrays force (_zgrp self) in
  let zdpg :=
    map_imap (λ grp_key sub,
      match zgrp !! grp_key with
      | None => None
      | Some _ => Some (prune_arrays force sub)
      end) (_zdpg self) in
  {| voxel_to_rasmm := voxel_to_rasmm self;
     dimensions := dimensions self;
     nb_points := nb_points self;
     nb_streamlines := nb_streamlines self;
     _zpos := _zpos self;
     _zoff := _zoff self;
     _zdpp := zdpp;
     _zdps := zdps;
     _zgrp := zgrp;
     _zdpg := zdpg;
     _dtype := _dtype self;
     storage := storage self |}.

(** [is_empty] prunes the container first, then looks at what is left:
    it returns the pruned container along with the answer. *)
Definition holds_nothing (self : TrxFile) : bool :=
  negb (bool_decide (size (_zdpp self) ≠ 0%nat)
        || bool_decide (size (_zdps self) ≠ 0%nat)
        || bool_decide (size (_zgrp self) ≠ 0%nat)
        || bool_decide (size (_zdpg self) ≠ 0%nat)
        || bool_decide (length (_zpos self) ≠ 0%nat)
        || bool_decide (length (_zoff self) ≠ 0%nat)).

Definition is_empty (self : TrxFile) : TrxFile * bool :=
  let self := prune_metadata self false in
  (self, holds_nothing self).

(** The [streamlines] property. *)
Definition streamlines (self : TrxFile) : ArraySequence :=
  {| _data := _zpos self;
     _offsets := _zoff self;
     _lengths := compute_lengths (_zoff self) (nb_points self) |}.

(** The arrays of [data_per_group[grp_key]]; none when the sub-group
    does not exist (every use is guarded by a membership test). *)
Definition sub_group (zdpg : gmap string (gmap string (list row)))
    (grp_key : string) : gmap string (list row) :=
  default ∅ (zdpg !! grp_key).

(** What the group loop of [select] leaves under a key: the new
    membership appended to the empty array of the clone, or the key
    deleted when the new membership is empty. *)
Definition set_group (old new_group : option (list Z)) : option (list Z) :=
  match old, new_group with
  | Some a, Some [] => None
  | Some a, Some g => Some (a ++ g)
  | Some a, None => Some a
  | None, _ => None
  end.

(** [tmp[indices].get_data()] for one flat array [data] viewed through
    the offsets and lengths of the streamlines. *)
Definition gather (tmp_streamlines : ArraySequence) (indices : list Z)
    (data : list row) : result (list row) :=
  let tmp := {| _data := data;
                _offsets := _offsets tmp_streamlines;
                _lengths := _lengths tmp_streamlines |} in
  sel ← getitem tmp indices;
  get_data sel.

(** The range test of [select], on the indices already cast to
    [uint32]: [len(indices) and (np.max(indices) > self.nb_streamlines - 1
    or np.min(indices) < 0)]. *)
Definition invalid_indices (self : TrxFile) (indices : list Z) : bool :=
  bool_decide (indices ≠ [])
  && ((nb_streamlines self - 1 <? np_max indices) || (np_min indices <? 0)).

(** The group loop of [select], which only runs under [keep_group]:
    what it leaves in the [groups] of the clone. *)
Definition select_groups (self new_trx : TrxFile) (indices : list Z)
    (keep_group : bool) : result (gmap string (list Z)) :=
  if keep_group then
    new_groups ← map_try (λ grp, intersect_groups grp indices) (_zgrp self);
    Ok (merge set_group (_zgrp new_trx) new_groups)
  else Ok (_zgrp new_trx).

(** [select(indices, keep_group)].  [np.array(indices, np.uint32)]
    converts each index by reduction modulo [2^32].  The new offsets are
    written into a [uint64] array.  The rows gathered come out of the
    arrays of the original and go into the arrays of its clone, which
    have the same dtypes: they are stored as they are. *)
Definition select (self : TrxFile) (indices : list Z) (keep_group : bool)
  : result TrxFile :=
  let indices := uint32 <$> indices in
  if invalid_indices self indices then Err IndexOutOfRange
  else
    let new_trx := init_as self in
    if bool_decide (indices = []) then Ok (prune_metadata new_trx false)
    else
      let tmp_streamlines := streamlines self in
      sel ← getitem tmp_streamlines indices;
      pos ← get_data sel;
      let zpos := _zpos new_trx ++ pos in
      let new_offsets := cumsum (removelast (_lengths sel)) in
      let zoff := _zoff new_trx ++ (uint64 <$> 0 :: new_offsets) in
      dpp ← map_try (gather tmp_streamlines indices) (_zdpp self);
      let zdpp := merge append_rows (_zdpp new_trx) dpp in
      dps ← map_try (λ arr, fancy_index arr indices) (_zdps self);
      let zdps := merge append_rows (_zdps new_trx) dps in
      zgrp ← select_groups self new_trx indices keep_group;
      let zdpg :=
        map_imap (λ grp_key sub,
          Some (if bool_decide (is_Some (zgrp !! grp_key))
                then merge append_rows sub (sub_group (_zdpg self) grp_key)
                else sub)) (_zdpg new_trx) in
      Ok (prune_metadata
              {| voxel_to_rasmm := voxel_to_rasmm new_trx;
                 dimensions := dimensions new_trx;
                 nb_points := Z.of_nat (length zpos);
                 nb_streamlines := Z.of_nat (length zoff);
                 _zpos := zpos;
                 _zoff := zoff;
                 _zdpp := zdpp;
                 _zdps := zdps;
                 _zgrp := zgrp;
                 _zdpg := zdpg;
                 _dtype := _dtype new_trx;
                 storage := storage new_trx |} false).

(** *** append *)

(** [append] mutates its target, and through [is_empty] both operands;
    it may raise.  Its outcome is the exception, if any, and the two
    containers as they are left.  Target and source are two containers:
    appending a container to itself is not covered. *)
Record append_outcome : Type := mkOutcome {
  raised : option error;
  target : TrxFile;
  source : TrxFile
}.

(** [not self.is_empty() and not app_trx.is_empty()], evaluated left to
    right: the source is only looked at (and pruned) when the target is
    not empty. *)
Definition both_non_empty (self app_trx : TrxFile) : TrxFile * TrxFile * bool :=
  let '(self, e1) := is_empty self in
  if e1 then (self, app_trx, false)
  else
    let '(app_trx, e2) := is_empty app_trx in
    (self, app_trx, negb e2).

(** What an array of dtype [d] stores of the rows handed to its
    [append]. *)
Definition stored_rows (d : dtype) (rows : list row) : list row :=
  astype d <$> rows.

(** The arrays of a source group, as the arrays of the target under the
    same keys store them. *)
Definition stored_arrays (d : string → dtype) (arrays : gmap string (list row))
  : gmap string (list row) :=
  map_imap (λ key rows, Some (stored_rows (d key) rows)) arrays.

(** One of the loops [for key in self.<grp>.array_keys():
    self.<grp>[key].append(app_trx.<grp>[key])]: a key the source lacks
    raises [KeyError].  Which arrays had already grown when it is raised
    is not tracked. *)
Definition append_all {A} (tgt src : gmap string (list A))
  : result (gmap string (list A)) :=
  if bool_decide (dom tgt ⊆ dom src) then Ok (merge append_rows tgt src)
  else Err KeyError.

(** The first growth step of [append] (positions, offsets, counts): the
    source positions are stored in the dtype of the target's, the source
    offsets are shifted by the point count the target had before the
    step, and both counts are updated right away. *)
Definition grow (self app_trx : TrxFile) : TrxFile :=
  {| voxel_to_rasmm := voxel_to_rasmm self;
     dimensions := dimensions self;
     nb_points := nb_points self + nb_points app_trx;
     nb_streamlines := nb_streamlines self + nb_streamlines app_trx;
     _zpos := _zpos self
              ++ stored_rows (positions_dtype (_dtype self)) (_zpos app_trx);
     _zoff := _zoff self
              ++ ((λ o, uint64 (o + nb_points self)) <$> _zoff app_trx);
     _zdpp := _zdpp self;
     _zdps := _zdps self;
     _zgrp := _zgrp self;
     _zdpg := _zdpg self;
     _dtype := _dtype self;
     storage := storage self |}.

(** The growth phase of [append], from [self._zpos.append(...)] to the
    end of the function.  Below [grow], [self] is the target as already
    grown: the group loop reads [self.nb_streamlines] there.  Every
    payload array of the target stores the rows of the source in its own
    dtype. *)
Definition growth (self app_trx : TrxFile) (keep_first_dpg : bool)
  : append_outcome :=
  let self := grow self app_trx in
  let '(app_trx, e) := is_empty app_trx in
  if e then mkOutcome None self app_trx
  else
    match append_all (_zdpp self)
            (stored_arrays (dpp_dtype (_dtype self)) (_zdpp app_trx)) with
    | Err x => mkOutcome (Some x) self app_trx
    | Ok zdpp =>
    match append_all (_zdps self)
            (stored_arrays (dps_dtype (_dtype self)) (_zdps app_trx)) with
    | Err x => mkOutcome (Some x) self app_trx
    | Ok zdps =>
      let zgrp :=
        merge append_rows (_zgrp self)
          ((λ grp, (λ i, i + nb_streamlines self) <$> grp) <$> _zgrp app_trx) in
      let zdpg :=
        if keep_first_dpg then
          map_imap (λ grp_key sub,
            Some (merge append_rows sub
                    (stored_arrays (dpg_dtype (_dtype self) grp_key)
                       (sub_group (_zdpg app_trx) grp_key)))) (_zdpg self)
        else _zdpg self in
      mkOutcome None
        {| voxel_to_rasmm := voxel_to_rasmm self;
           dimensions := dimensions self;
           nb_points := nb_points self;
           nb_streamlines := nb_streamlines self;
           _zpos := _zpos self;
           _zoff := _zoff self;
           _zdpp := zdpp;
           _zdps := zdps;
           _zgrp := zgrp;
           _zdpg := zdpg;
           _dtype := _dtype self;
           storage := storage self |}
        app_trx
    end
    end.

(** [append]: the checks, in the order of the source, then the growth
    phase. *)
Definition append (self app_trx : TrxFile) (delete_dpg keep_first_dpg : bool)
  : append_outcome :=
  if negb (allclose (voxel_to_rasmm self) (voxel_to_rasmm app_trx))
     || negb (array_equal (dimensions self) (dimensions app_trx))
  then mkOutcome (Some SchemaMismatch) self app_trx
  else if bool_decide (storage self = ZipStore)
  then mkOutcome (Some ImmutableBackendError) self app_trx
  else if delete_dpg && keep_first_dpg
  then mkOutcome (Some ConflictingPolicy) self app_trx
  else
    let '(self, app_trx, both) := both_non_empty self app_trx in
    if both && negb (_check_same_keys (dom (_zdpp self)) (dom (_zdpp app_trx)))
    then mkOutcome (Some KeySetMismatch) self app_trx
    else
    let '(self, app_trx, both) := both_non_empty self app_trx in
    if both && negb (_check_same_keys (dom (_zdps self)) (dom (_zdps app_trx)))
    then mkOutcome (Some KeySetMismatch) self app_trx
    else if negb (delete_dpg || keep_first_dpg)
            && (bool_decide (size (_zdpg self) ≠ 0%nat)
                || bool_decide (size (_zdpg self) ≠ 0%nat))
    then mkOutcome (Some AmbiguousGroupPolicy) self app_trx
    else growth self app_trx keep_first_dpg.

(** A container after the pruning pass that every emptiness test runs. *)
Definition pruned (c : TrxFile) : TrxFile := prune_metadata c false.

End TrxFile.

Import TrxFile.

(** ** Valid containers *)

(** The offsets partition [nb_points] points into streamlines: they do
    not decrease, the last one does not exceed the point count, and every
    streamline is short enough for the [uint32] in which
    [compute_lengths] stores its length. *)
Fixpoint offsets_ok (offsets : list Z) (nb_points : Z) : Prop :=
  match offsets with
  | [] => nb_points = 0
  | o :: rest =>
      match rest with
      | [] => o ≤ nb_points < o + 2 ^ 32
      | o' :: _ => o ≤ o' < o + 2 ^ 32 ∧ offsets_ok rest nb_points
      end
  end.

#[global] Instance offsets_ok_dec offsets nb_points :
  Decision (offsets_ok offsets nb_points).
Proof.
  induction offsets as [|o [|o' rest] IH]; simpl in *; apply _.
Defined.

(** The positions are partitioned by the offsets, and the counts say
    so. *)
Definition partitioned (c : TrxFile) : Prop :=
  nb_streamlines c = Z.of_nat (length (_zoff c))
  ∧ nb_points c = Z.of_nat (length (_zpos c))
  ∧ hd 0 (_zoff c) = 0
  ∧ offsets_ok (_zoff c) (nb_points c).

#[global] Instance partitioned_dec c : Decision (partitioned c).
Proof. unfold partitioned. apply _. Defined.

(** The invariants of the data model that [select] and [append] rely
    on: the partition, and metadata arrays with one row per point or per
    streamline. *)
Record valid (c : TrxFile) : Prop := mkValid {
  valid_partitioned : partitioned c;
  valid_dpp : map_Forall (λ _ a, Z.of_nat (length a) = nb_points c) (_zdpp c);
  valid_dps : map_Forall (λ _ a, Z.of_nat (length a) = nb_streamlines c) (_zdps c)
}.

#[global] Instance valid_dec c : Decision (valid c).
Proof.
  destruct (decide (partitioned c
             ∧ map_Forall (λ _ a, Z.of_nat (length a) = nb_points c) (_zdpp c)
             ∧ map_Forall (λ _ a, Z.of_nat (length a) = nb_streamlines c)
                 (_zdps c))) as [H|H].
  - left. destruct H as (?&?&?). by constructor.
  - right. intros []. apply H. split; [assumption|split; assumption].
Defined.

(** What every operation keeps: the counts match the arrays, and the
    point count is the last offset plus the derived length of the last
    streamline. *)
Definition last_offset_plus_length (c : TrxFile) : Z :=
  List.last (_zoff c) 0 + List.last (_lengths (streamlines c)) 0.

Definition counts_ok (c : TrxFile) : Prop :=
  Z.of_nat (length (_zoff c)) = nb_streamlines c
  ∧ Z.of_nat (length (_zpos c)) = nb_points c
  ∧ nb_points c = last_offset_plus_length c.

(** The points of streamline [i]: from its offset up to the next offset,
    or up to the point count for the last streamline. *)
Definition streamline_end (c : TrxFile) (i : nat) : Z :=
  default (nb_points c) (_zoff c !! S i).

Definition streamline_points (c : TrxFile) (data : list row) (i : Z) : list row :=
  let start := Z.to_nat (_zoff c !!! Z.to_nat i) in
  let stop := Z.to_nat (streamline_end c (Z.to_nat i)) in
  take (stop - start) (drop start data).

(** The lengths that the offsets and the point count determine: each
    streamline runs up to the next offset, the last one up to the point
    count. *)
Fixpoint gaps (offsets : list Z) (nb_points : Z) : list Z :=
  match offsets with
  | [] => []
  | o :: rest => (hd nb_points rest - o) :: gaps rest nb_points
  end.

(** Running totals: the offset of each entry is the sum of the lengths
    before it. *)
Fixpoint running_totals (acc : Z) (lens : list Z) : list Z :=
  match lens with
  | [] => []
  | n :: rest => acc :: running_totals (acc + n) rest
  end.

(** ** A sample container

    Three streamlines of 2, 3 and 2 points, one per-point and one
    per-streamline array, a group [g1 = {0, 2}] with one per-group
    array. *)
Module Sample.

(** The dtype of the sample arrays: wide enough for the values they
    hold, which it stores as they are. *)
Definition wide : dtype := {| astype := λ r, r |}.

Definition pts (l : list Z) : list row := (λ i, [i; i + 1; i + 2]) <$> l.

Definition A : TrxFile :=
  {| voxel_to_rasmm := voxel_to_rasmm (blank wide);
     dimensions := [1; 1; 1];
     nb_points := 7;
     nb_streamlines := 3;
     _zpos := pts [10; 11; 20; 21; 22; 30; 31];
     _zoff := [0; 2; 5];
     _zdpp := {["colour" := [[1]; [2]; [3]; [4]; [5]; [6]; [7]]]};
     _zdps := {["weight" := [[100]; [200]; [300]]]};
     _zgrp := {["g1" := [0; 2]]};
     _zdpg := {["g1" := {["mean" := [[9]]]}]};
     _dtype := _dtype (blank wide);
     storage := TempStore |}.

(** One streamline of two points, in the group [g]. *)
Definition one (grp : list Z) (dpg : gmap string (gmap string (list row)))
  : TrxFile :=
  {| voxel_to_rasmm := voxel_to_rasmm (blank wide);
     dimensions := [1; 1; 1];
     nb_points := 2;
     nb_streamlines := 1;
     _zpos := pts [10; 11];
     _zoff := [0];
     _zdpp := ∅;
     _zdps := ∅;
     _zgrp := {["g" := grp]};
     _zdpg := dpg;
     _dtype := _dtype (blank wide);
     storage := TempStore |}.

(** [A] with a per-streamline array that has no rows yet. *)
Definition A_stale : TrxFile :=
  {| voxel_to_rasmm := voxel_to_rasmm A;
     dimensions := dimensions A;
     nb_points := nb_points A;
     nb_streamlines := nb_streamlines A;
     _zpos := _zpos A;
     _zoff := _zoff A;
     _zdpp := _zdpp A;
     _zdps := <["stale" := []]> (_zdps A);
     _zgrp := _zgrp A;
     _zdpg := _zdpg A;
     _dtype := _dtype A;
     storage := storage A |}.

(** [A] with its per-point array under another key. *)
Definition B : TrxFile :=
  {| voxel_to_rasmm := voxel_to_rasmm A;
     dimensions := dimensions A;
     nb_points := nb_points A;
     nb_streamlines := nb_streamlines A;
     _zpos := _zpos A;
     _zoff := _zoff A;
     _zdpp := {["curvature" := [[1]; [2]; [3]; [4]; [5]; [6]; [7]]]};
     _zdps := _zdps A;
     _zgrp := _zgrp A;
     _zdpg := _zdpg A;
     _dtype := _dtype A;
     storage := storage A |}.

(** One streamline in group [g], without and with per-group data. *)
Definition plain : TrxFile := one [0] ∅.
Definition tagged : TrxFile := one [0] {["g" := {["mean" := [[9]]]}]}.

(** One streamline that has no point, and a per-point array (which,
    without a point, has no row). *)
Definition pointless : TrxFile :=
  {| voxel_to_rasmm := voxel_to_rasmm (blank wide);
     dimensions := [1; 1; 1];
     nb_points := 0;
     nb_streamlines := 1;
     _zpos := [];
     _zoff := [0];
     _zdpp := {["colour" := []]};
     _zdps := {["weight" := [[100]]]};
     _zgrp := ∅;
     _zdpg := ∅;
     _dtype := _dtype (blank wide);
     storage := TempStore |}.

End Sample.

(** ** The statements that the theorems below settle *)

(** [select] fails whenever some index lies outside
    [[0, streamline_count)]. *)
Definition rejects_out_of_range (self : TrxFile) (indices : list Z)
    (keep_group : bool) : Prop :=
  (∃ i, i ∈ indices ∧ ¬ (0 ≤ i < nb_streamlines self)) →
  select self indices keep_group = Err IndexOutOfRange.

(** [select] fails whenever some index is negative. *)
Definition rejects_negative (self : TrxFile) (indices : list Z)
    (keep_group : bool) : Prop :=
  nb_streamlines self ≤ 2 ^ 32 - 1 →
  (∃ i, i ∈ indices ∧ i < 0) →
  select self indices keep_group = Err IndexOutOfRange.

(** Selecting every streamline in order gives the positions, the
    per-point and per-streamline arrays and the counts of the
    original. *)
Definition select_all_reproduces (self : TrxFile) (keep_group : bool) : Prop :=
  valid self → 0 < nb_streamlines self ≤ 2 ^ 32 →
  ∃ new_trx,
    select self (seqZ 0 (nb_streamlines self)) keep_group = Ok new_trx
    ∧ _zpos new_trx = _zpos self
    ∧ _zdpp new_trx = _zdpp self
    ∧ _zdps new_trx = _zdps self
    ∧ nb_points new_trx = nb_points self
    ∧ nb_streamlines new_trx = nb_streamlines self.

(** The failures of [append] that come from its checks. *)
Definition precondition_error (e : error) : Prop :=
  e ∈ [SchemaMismatch; ImmutableBackendError; ConflictingPolicy;
       KeySetMismatch; AmbiguousGroupPolicy].

(** A failed check of [append] leaves both containers as they were. *)
Definition failure_mutates_nothing (self app_trx : TrxFile)
    (delete_dpg keep_first_dpg : bool) : Prop :=
  let o := append self app_trx delete_dpg keep_first_dpg in
  ∀ e, raised o = Some e → precondition_error e →
       target o = self ∧ source o = app_trx.

(** Two states of a container that differ at most in their metadata
    entries: same attributes, positions, offsets and backend. *)
Definition same_data (c c' : TrxFile) : Prop :=
  voxel_to_rasmm c = voxel_to_rasmm c'
  ∧ dimensions c = dimensions c'
  ∧ nb_points c = nb_points c'
  ∧ nb_streamlines c = nb_streamlines c'
  ∧ _zpos c = _zpos c'
  ∧ _zoff c = _zoff c'
  ∧ storage c = storage c'.

(** What [intersect_groups] does with one entry [g] of the group: the
    position found for it in [indices], if [indices] holds [g] there. *)
Definition locate (indices : list Z) (g : Z) : option Z :=
  let index := argsort indices in
  let sorted_x := (λ p, indices !!! p) <$> index in
  let y := take_clip index (searchsorted sorted_x g) in
  if indices !!! y =? g then Some (Z.of_nat y) else None.

(** With [keep_group], every occurrence in [indices] of a member of a
    group yields a membership entry at that occurrence's position. *)
Definition emits_every_occurrence (self : TrxFile) (indices : list Z) : Prop :=
  ∀ new_trx grp_key grp (p : nat) i,
    select self indices true = Ok new_trx →
    _zgrp self !! grp_key = Some grp →
    indices !! p = Some i → i ∈ grp →
    ∃ new_group, _zgrp new_trx !! grp_key = Some new_group
                 ∧ Z.of_nat p ∈ new_group.

(** ** More of the module *)

(** [TrxFile.get_group(key)]: the selection of the indices stored under
    a group; a key the [groups] do not hold raises [KeyError]. *)
Definition get_group (self : TrxFile) (key : string) : result TrxFile :=
  match _zgrp self !! key with
  | None => Err KeyError
  | Some grp => select self grp true
  end.

(** The loop of [concatenate]: [new_trx.append(trx)] for each container
    of the list, with the default policy flags of [append], up to the
    first exception.  It returns the exception, if any, the container
    being built and the containers of the list as they are left. *)
Fixpoint append_each (new_trx : TrxFile) (trx_list : list TrxFile)
  : option error * TrxFile * list TrxFile :=
  match trx_list with
  | [] => (None, new_trx, [])
  | trx :: rest =>
      let o := append new_trx trx false true in
      match raised o with
      | Some e => (Some e, target o, source o :: rest)
      | None =>
          let '(e, new_trx', rest') := append_each (target o) rest in
          (e, new_trx', source o :: rest')
      end
  end.

(** [concatenate(trx_list)]: a schema clone of the first container, to
    which every container of the list is appended in turn.  An empty
    list raises [IndexError] at [trx_list[0]].  The outcome is the
    container returned, or the exception, and the list as it is left
    (its containers are taken to be distinct objects). *)
Definition concatenate (trx_list : list TrxFile)
  : result TrxFile * list TrxFile :=
  match trx_list with
  | [] => (Err IndexError, [])
  | first :: _ =>
      let '(e, new_trx, trx_list') := append_each (init_as first) trx_list in
      match e with
      | Some e => (Err e, trx_list')
      | None => (Ok new_trx, trx_list')
      end
  end.

(** A container without any metadata entry. *)
Definition no_metadata (c : TrxFile) : Prop :=
  _zdpp c = ∅ ∧ _zdps c = ∅ ∧ _zgrp c = ∅ ∧ _zdpg c = ∅.

(** The offsets of the containers of a list put end to end: those of
    each container shifted by the number of points before it. *)
Fixpoint joined_offsets (base : Z) (trx_list : list TrxFile) : list Z :=
  match trx_list with
  | [] => []
  | trx :: rest =>
      ((λ o, uint64 (o + base)) <$> _zoff trx)
      ++ joined_offsets (base + nb_points trx) rest
  end.

Definition total (count : TrxFile → Z) (trx_list : list TrxFile) : Z :=
  foldr (λ trx n, count trx + n) 0 trx_list.

(** The rows of an array of dtype [d] are rows that the dtype holds:
    converting them to [d] again leaves them as they are. *)
Definition holds_dtype (d : dtype) (rows : list row) : Prop :=
  Forall (λ r, astype d r = r) rows.

(** ** compute_lengths on a container without streamlines *)

(** C9: whatever the point count, [compute_lengths] of an empty offsets
    array is the one-element array [0], not an empty array; hence the
    [streamlines] accessor of a container with no streamline carries one
    derived length, zero, next to its empty offsets. *)
Theorem compute_lengths_empty_offsets (self : TrxFile) (nb_pts : Z) :
  _zoff self = [] →
  compute_lengths [] nb_pts = [0]
  ∧ _lengths (streamlines self) = [0]
  ∧ _offsets (streamlines self) = [].
Proof.
  intros Hoff. unfold streamlines; simpl. rewrite Hoff. done.
Qed.

Lemma compute_lengths_empty_offsets_witness :
  _zoff (blank Sample.wide) = []
  ∧ compute_lengths [] 7 = [0]
  ∧ _lengths (streamlines (blank Sample.wide)) = [0]
  ∧ _offsets (streamlines (blank Sample.wide)) = [].
Proof.
  split; [reflexivity | apply (compute_lengths_empty_offsets (blank Sample.wide) 7); reflexivity].
Defined.

(** ** The range test of select *)

Lemma uint32_range z : 0 ≤ uint32 z < 2 ^ 32.
Proof. unfold uint32. apply Z.mod_pos_bound. lia. Qed.

Lemma uint32_small z : 0 ≤ z < 2 ^ 32 → uint32 z = z.
Proof. intros. unfold uint32. by apply Z.mod_small. Qed.

Lemma uint32_idemp z : uint32 (uint32 z) = uint32 z.
Proof. apply uint32_small, uint32_range. Qed.

Lemma uint32_add_multiple z k : uint32 (z + k * 2 ^ 32) = uint32 z.
Proof. unfold uint32. apply Z_mod_plus_full. Qed.

Lemma uint32_uint64 z : uint32 (uint64 z) = uint32 z.
Proof.
  unfold uint32, uint64.
  replace (2 ^ 64) with (2 ^ 32 * 2 ^ 32) by lia.
  rewrite Z.rem_mul_r by lia.
  rewrite Z.mul_comm, Z_mod_plus_full. apply Z.mod_mod. lia.
Qed.

Lemma uint64_small z : 0 ≤ z < 2 ^ 64 → uint64 z = z.
Proof. intros. unfold uint64. by apply Z.mod_small. Qed.

Lemma np_max_ge (l : list Z) x : x ∈ l → x ≤ np_max l.
Proof.
  unfold np_max. generalize (hd 0 l). intros d.
  induction 1 as [x l|x y l _ IH]; simpl; lia.
Qed.

Lemma np_max_elem (l : list Z) : l ≠ [] → np_max l ∈ l.
Proof.
  destruct l as [|a l]; [done|intros _]. unfold np_max. simpl hd.
  assert (H : ∀ (l' : list Z) d, foldr Z.max d l' = d ∨ foldr Z.max d l' ∈ l').
  { induction l' as [|b l' IH]; intros d; simpl; [by left|].
    destruct (Z.max_spec b (foldr Z.max d l')) as [[_ ->]|[_ ->]].
    - destruct (IH d) as [?|?]; [by left|right; by right].
    - right; by left. }
  destruct (H (a :: l) a) as [->|?]; [by left|done].
Qed.

Lemma np_min_nonneg (l : list Z) : Forall (λ x, 0 ≤ x) l → 0 ≤ np_min l.
Proof.
  unfold np_min. intros H.
  assert (0 ≤ hd 0 l) by (destruct H; simpl; lia).
  revert H. generalize dependent (hd 0 l). intros d Hd.
  induction 1; simpl; lia.
Qed.

Lemma Forall_uint32_nonneg (l : list Z) : Forall (λ x, 0 ≤ x) (uint32 <$> l).
Proof. apply Forall_fmap, Forall_true. intros x. apply uint32_range. Qed.

(** The range test rejects exactly the index arrays that hold a value
    above the last streamline. *)
Lemma invalid_indices_spec self (indices : list Z) :
  invalid_indices self (uint32 <$> indices) = true
  ↔ ∃ i, i ∈ indices ∧ nb_streamlines self ≤ uint32 i.
Proof.
  unfold invalid_indices.
  rewrite andb_true_iff, orb_true_iff, bool_decide_eq_true, !Z.ltb_lt.
  split.
  - intros [Hne [Hmax|Hmin]].
    + apply np_max_elem in Hne. apply list_elem_of_fmap in Hne as (i & Hi & Hin).
      exists i. split; [done|]. rewrite <- Hi. lia.
    + pose proof (np_min_nonneg _ (Forall_uint32_nonneg indices)). lia.
  - intros (i & Hin & Hi).
    assert (Hin' : uint32 i ∈ uint32 <$> indices) by (by apply list_elem_of_fmap_2).
    split.
    + intros Heq. rewrite Heq in Hin'. by apply not_elem_of_nil in Hin'.
    + left. apply np_max_ge in Hin'. lia.
Qed.

Lemma select_rejects self (indices : list Z) keep_group :
  (∃ i, i ∈ indices ∧ nb_streamlines self ≤ uint32 i) →
  select self indices keep_group = Err IndexOutOfRange.
Proof.
  intros H. apply invalid_indices_spec in H. unfold select. by rewrite H.
Qed.

Lemma select_wraps self (indices : list Z) keep_group :
  select self (uint32 <$> indices) keep_group = select self indices keep_group.
Proof.
  unfold select. rewrite <- list_fmap_compose.
  by rewrite (list_fmap_ext (uint32 ∘ uint32) uint32 indices)
    by (intros; apply uint32_idemp).
Qed.

(** C7, as stated, fails: index [2^32] is outside [[0, 3)] but the cast
    to [uint32] turns it into 0 and the first streamline is selected. *)
Lemma rejects_out_of_range_counterexample :
  ¬ rejects_out_of_range Sample.A [2 ^ 32] true.
Proof.
  intros H.
  assert (Hsel : select Sample.A [2 ^ 32] true = Err IndexOutOfRange).
  { apply H. exists (2 ^ 32). split; [by left|]. simpl. lia. }
  vm_compute in Hsel. discriminate.
Qed.

(** C7 (amended): indices are reduced modulo [2^32] first; whenever the
    index array holds an index whose reduction is outside
    [[0, streamline_count)] -- in particular any index from
    [streamline_count] up to [2^32 - 1] -- [select] raises the invalid
    indices error and builds no container. *)
Theorem select_out_of_range (self : TrxFile) (indices : list Z)
    (keep_group : bool) :
  (∃ i, i ∈ indices
        ∧ (¬ (0 ≤ uint32 i < nb_streamlines self)
           ∨ nb_streamlines self ≤ i < 2 ^ 32)) →
  select self indices keep_group = Err IndexOutOfRange
  ∧ ∀ new_trx, select self indices keep_group ≠ Ok new_trx.
Proof.
  intros (i & Hin & Hi).
  assert (Hsel : select self indices keep_group = Err IndexOutOfRange).
  { apply select_rejects. exists i. split; [done|].
    pose proof (uint32_range i).
    destruct Hi as [Hi|Hi]; [lia|].
    destruct (decide (0 ≤ i)); [rewrite uint32_small; lia|lia]. }
  split; [done|]. intros new_trx. rewrite Hsel. discriminate.
Qed.

Lemma select_out_of_range_witness :
  (∃ i, i ∈ [5] ∧ (¬ (0 ≤ uint32 i < nb_streamlines Sample.A)
                   ∨ nb_streamlines Sample.A ≤ i < 2 ^ 32))
  ∧ select Sample.A [5] true = Err IndexOutOfRange
  ∧ ∀ new_trx, select Sample.A [5] true ≠ Ok new_trx.
Proof.
  assert (H : ∃ i, i ∈ [5] ∧ (¬ (0 ≤ uint32 i < nb_streamlines Sample.A)
                              ∨ nb_streamlines Sample.A ≤ i < 2 ^ 32)).
  { exists 5. split; [by left|]. right. simpl. lia. }
  split; [exact H | exact (select_out_of_range Sample.A [5] true H)].
Defined.

(** C10, as stated, fails: [-2^32] is negative, yet it is congruent to
    the valid index 0 and is accepted. *)
Lemma rejects_negative_counterexample :
  ¬ rejects_negative Sample.A [- 2 ^ 32] true.
Proof.
  intros H.
  assert (Hsel : select Sample.A [- 2 ^ 32] true = Err IndexOutOfRange).
  { apply H; [simpl; lia|]. exists (- 2 ^ 32). split; [by left|lia]. }
  vm_compute in Hsel. discriminate.
Qed.

(** C10 (amended): every index is reduced modulo [2^32] before the range
    test.  With at most [2^32 - 1] streamlines, a negative index no lower
    than [streamline_count - 2^32] is rejected, never read as counting
    from the end; an index that is a valid index plus any multiple of
    [2^32] -- a negative multiple included -- passes the test, and the
    selection is the one of the wrapped indices. *)
Theorem select_casts_indices (self : TrxFile) (indices wrapped : list Z)
    (keep_group : bool) :
  nb_streamlines self ≤ 2 ^ 32 - 1 →
  ((∃ i, i ∈ indices ∧ nb_streamlines self - 2 ^ 32 ≤ i < 0) →
   select self indices keep_group = Err IndexOutOfRange)
  ∧ (Forall2 (λ i w, 0 ≤ w < nb_streamlines self ∧ ∃ k, i = w + k * 2 ^ 32)
       indices wrapped →
     uint32 <$> indices = wrapped
     ∧ invalid_indices self (uint32 <$> indices) = false
     ∧ select self indices keep_group = select self wrapped keep_group).
Proof.
  intros Hn. split.
  - intros (i & Hin & Hi). apply select_rejects. exists i. split; [done|].
    pose proof (uint32_range i).
    destruct (decide (nb_streamlines self ≤ 0)); [lia|].
    replace i with ((i + 2 ^ 32) + (-1) * 2 ^ 32) by lia.
    rewrite uint32_add_multiple, uint32_small; lia.
  - intros Hw.
    assert (Heq : uint32 <$> indices = wrapped).
    { induction Hw as [|i w indices wrapped (Hr & k & ->) _ IH]; [done|].
      rewrite fmap_cons, IH. f_equal.
      rewrite uint32_add_multiple. apply uint32_small. lia. }
    split; [done|]. split.
    + apply not_true_is_false. rewrite invalid_indices_spec.
      intros (i & Hin & Hi).
      assert (Hin' : uint32 i ∈ wrapped)
        by (rewrite <- Heq; by apply list_elem_of_fmap_2).
      assert (Hall : Forall (λ w, 0 ≤ w < nb_streamlines self) wrapped).
      { clear -Hw. induction Hw as [|???? [? _]]; constructor; auto. }
      rewrite Forall_forall in Hall. apply Hall in Hin'. lia.
    + rewrite <- Heq. symmetry. apply select_wraps.
Qed.

Lemma select_casts_indices_witness :
  nb_streamlines Sample.A ≤ 2 ^ 32 - 1
  ∧ select Sample.A [-1] true = Err IndexOutOfRange
  ∧ select Sample.A [1 - 2 ^ 32] true = select Sample.A [1] true.
Proof.
  assert (H : nb_streamlines Sample.A ≤ 2 ^ 32 - 1) by (simpl; lia).
  split; [exact H|]. split.
  - apply (select_casts_indices Sample.A [-1] [] true H).
    exists (-1). split; [by left|simpl; lia].
  - apply (select_casts_indices Sample.A [1 - 2 ^ 32] [1] true H).
    constructor; [|constructor].
    split; [simpl; lia|by exists (-1)].
Defined.

(** ** Fallible traversals of a group *)

Lemma first_error_None {A B} (f : A → result B) (m : gmap string A) :
  first_error f m = None ↔ ∀ k a, m !! k = Some a → ∃ b, f a = Ok b.
Proof.
  unfold first_error.
  apply (map_fold_weak_ind (λ r m,
    r = None ↔ ∀ k a, m !! k = Some a → ∃ b, f a = Ok b)).
  - split; [|done]. intros _ k a Hk. by rewrite lookup_empty in Hk.
  - intros i x m' r Hi IH. destruct (f x) as [b|e] eqn:Hfx.
    + rewrite IH. split.
      * intros Hall k a Hk. apply lookup_insert_Some in Hk as [[<- <-]|[_ Hk]];
          [by eexists|by eapply Hall].
      * intros Hall k a Hk. apply (Hall k).
        rewrite lookup_insert_ne; [done|]. intros <-. by rewrite Hi in Hk.
    + split; [done|]. intros Hall.
      destruct (Hall i x) as [b Hb]; [apply lookup_insert_eq|]. congruence.
Qed.

Lemma map_try_Ok {A B} (f : A → result B) (m : gmap string A) r :
  map_try f m = Ok r
  ↔ (∀ k a, m !! k = Some a → ∃ b, f a = Ok b)
    ∧ r = omap (λ a, to_option (f a)) m.
Proof.
  unfold map_try. rewrite <- first_error_None.
  destruct (first_error f m); split.
  - done.
  - by intros [? _].
  - by intros [= <-].
  - by intros [_ ->].
Qed.

Lemma map_try_lookup {A B} (f : A → result B) (m : gmap string A) r k :
  map_try f m = Ok r →
  r !! k = m !! k ≫= λ a, to_option (f a).
Proof. intros [_ ->]%map_try_Ok. apply lookup_omap. Qed.

(** Appending into the zero-row arrays of a schema clone. *)
Lemma lookup_append_clone {A B} (m : gmap string A) (d : gmap string (list B)) k :
  merge append_rows ((λ _, []) <$> m) d !! k =
  match m !! k with
  | Some _ => Some (default [] (d !! k))
  | None => None
  end.
Proof.
  rewrite lookup_merge, lookup_fmap.
  destruct (m !! k), (d !! k); done.
Qed.

(** Rows as stored in another dtype: as many, under the same keys. *)
Lemma length_stored_rows d rows : length (stored_rows d rows) = length rows.
Proof. apply length_fmap. Qed.

Lemma stored_arrays_lookup d (arrays : gmap string (list (list Z))) k :
  stored_arrays d arrays !! k = stored_rows (d k) <$> arrays !! k.
Proof. unfold stored_arrays. rewrite map_lookup_imap. by destruct (arrays !! k). Qed.

Lemma dom_stored_arrays d (arrays : gmap string (list (list Z))) :
  dom (stored_arrays d arrays) = dom arrays.
Proof.
  apply set_eq. intros k. rewrite !elem_of_dom, stored_arrays_lookup.
  by rewrite fmap_is_Some.
Qed.

Lemma stored_arrays_empty d : stored_arrays d ∅ = ∅.
Proof. apply map_imap_empty. Qed.

Lemma stored_rows_holds d rows : holds_dtype d rows → stored_rows d rows = rows.
Proof.
  intros Hrows. unfold stored_rows. rewrite <- (list_fmap_id rows) at 2.
  by apply Forall_fmap_ext.
Qed.

Lemma stored_rows_app d rows rows' :
  stored_rows d (rows ++ rows') = stored_rows d rows ++ stored_rows d rows'.
Proof. apply fmap_app. Qed.

Lemma holds_wide rows : holds_dtype Sample.wide rows.
Proof. by apply Forall_true. Qed.

(** Membership in a list written out: the cases of a hypothesis, and a
    goal. *)
Ltac mem_cases H :=
  repeat match type of H with
  | _ ∈ _ :: _ => apply elem_of_cons in H as [H|H]; [subst|]
  | _ ∈ [] => by apply elem_of_nil in H
  end.

Ltac mem_goal := unfold precondition_error; rewrite ?elem_of_cons; auto 10.

(** ** Pruning *)

Lemma prune_arrays_lookup {A} force (m : gmap string (list A)) k a :
  prune_arrays force m !! k = Some a
  ↔ m !! k = Some a ∧ a ≠ [] ∧ force = false.
Proof.
  unfold prune_arrays. rewrite map_lookup_filter_Some. simpl.
  split.
  - intros [Hm Hp]. split; [done|]. split.
    + intros ->. apply Hp. by left.
    + destruct force; [|done]. exfalso. apply Hp. by right.
  - intros (Hm & Ha & ->). split; [done|].
    intros [Hl|?]; [|done]. by apply nil_length_inv in Hl.
Qed.

Lemma prune_arrays_idemp {A} (m : gmap string (list A)) :
  prune_arrays false (prune_arrays false m) = prune_arrays false m.
Proof.
  apply map_eq. intros k. apply option_eq. intros a.
  rewrite !prune_arrays_lookup. tauto.
Qed.

Lemma prune_metadata_idemp self :
  prune_metadata (prune_metadata self false) false = prune_metadata self false.
Proof.
  unfold prune_metadata; simpl. rewrite !prune_arrays_idemp. f_equal.
  apply map_eq. intros k. rewrite !map_lookup_imap.
  destruct (_zdpg self !! k) as [sub|]; simpl; [|done].
  destruct (prune_arrays false (_zgrp self) !! k) eqn:Hk; simpl; [|done].
  by rewrite prune_arrays_idemp.
Qed.

Lemma is_empty_is_empty self :
  is_empty (is_empty self).1 = is_empty self.
Proof. unfold is_empty; simpl. by rewrite prune_metadata_idemp. Qed.

(** ** append, step by step *)

(** The emptiness tests of [append] prune the target, and the source as
    well unless the target turns out empty; pruning twice changes
    nothing more.  This rewrites [append] over the pruned operands. *)
Lemma both_non_empty_eq self app_trx :
  both_non_empty self app_trx =
  if holds_nothing (pruned self) then (pruned self, app_trx, false)
  else (pruned self, pruned app_trx, negb (holds_nothing (pruned app_trx))).
Proof. unfold both_non_empty, is_empty, pruned. by destruct (holds_nothing _). Qed.

Lemma both_non_empty_again self app_trx :
  let '(self', app', _) := both_non_empty self app_trx in
  both_non_empty self' app' = both_non_empty self app_trx.
Proof.
  rewrite both_non_empty_eq.
  destruct (holds_nothing (pruned self)) eqn:He.
  - rewrite both_non_empty_eq. unfold pruned in *.
    by rewrite prune_metadata_idemp, He.
  - rewrite both_non_empty_eq. unfold pruned in *.
    by rewrite !prune_metadata_idemp, He.
Qed.

Lemma append_eq self app_trx delete_dpg keep_first_dpg :
  append self app_trx delete_dpg keep_first_dpg =
  if negb (allclose (voxel_to_rasmm self) (voxel_to_rasmm app_trx))
     || negb (array_equal (dimensions self) (dimensions app_trx))
  then mkOutcome (Some SchemaMismatch) self app_trx
  else if bool_decide (storage self = ZipStore)
  then mkOutcome (Some ImmutableBackendError) self app_trx
  else if delete_dpg && keep_first_dpg
  then mkOutcome (Some ConflictingPolicy) self app_trx
  else
    let self' := pruned self in
    let app' := if holds_nothing self' then app_trx else pruned app_trx in
    let both := negb (holds_nothing self')
                && negb (holds_nothing (pruned app_trx)) in
    if both && negb (_check_same_keys (dom (_zdpp self')) (dom (_zdpp app')))
    then mkOutcome (Some KeySetMismatch) self' app'
    else if both && negb (_check_same_keys (dom (_zdps self')) (dom (_zdps app')))
    then mkOutcome (Some KeySetMismatch) self' app'
    else if negb (delete_dpg || keep_first_dpg)
            && bool_decide (size (_zdpg self') ≠ 0%nat)
    then mkOutcome (Some AmbiguousGroupPolicy) self' app'
    else growth self' app' keep_first_dpg.
Proof.
  unfold append.
  destruct (negb _ || negb _); [done|].
  destruct (bool_decide (storage self = ZipStore)); [done|].
  destruct (delete_dpg && keep_first_dpg); [done|].
  pose proof (both_non_empty_again self app_trx) as Hagain.
  rewrite both_non_empty_eq in Hagain |- *.
  cbv zeta.
  destruct (holds_nothing (pruned self)) eqn:He; simpl.
  - rewrite Hagain. by rewrite orb_diag.
  - destruct (negb (holds_nothing (pruned app_trx)) && _); [done|].
    rewrite Hagain. by rewrite orb_diag.
Qed.

Lemma is_empty_pruned self :
  is_empty (pruned self) = (pruned self, holds_nothing (pruned self)).
Proof. unfold is_empty, pruned. by rewrite prune_metadata_idemp. Qed.

(** Whatever the growth phase runs into, the positions, offsets and
    counts of the target are those of the first growth step, and the
    source ends up pruned. *)
Lemma growth_target self app_trx keep_first_dpg :
  let o := growth self app_trx keep_first_dpg in
  _zpos (target o) = _zpos (grow self app_trx)
  ∧ _zoff (target o) = _zoff (grow self app_trx)
  ∧ nb_points (target o) = nb_points (grow self app_trx)
  ∧ nb_streamlines (target o) = nb_streamlines (grow self app_trx)
  ∧ source o = pruned app_trx.
Proof.
  unfold growth, is_empty. fold (pruned app_trx).
  destruct (holds_nothing (pruned app_trx)); [done|].
  destruct (append_all _ _); [|done].
  destruct (append_all _ _); done.
Qed.

Lemma same_data_refl c : same_data c c.
Proof. by repeat split. Qed.

Lemma same_data_pruned c : same_data (pruned c) c.
Proof. by repeat split. Qed.

(** ** The loops of the growth phase *)

Lemma holds_nothing_keys c :
  holds_nothing c = true → _zdpp c = ∅ ∧ _zdps c = ∅.
Proof.
  unfold holds_nothing. rewrite negb_true_iff, !orb_false_iff.
  intros (((((Hdpp & Hdps) & _) & _) & _) & _).
  apply bool_decide_eq_false in Hdpp, Hdps.
  split; apply map_size_empty_iff.
  - by destruct (decide (size (_zdpp c) = 0%nat)).
  - by destruct (decide (size (_zdps c) = 0%nat)).
Qed.

(** Once the key-set checks have passed, every key of the target has its
    counterpart in the source: the loops of the growth phase cannot
    raise. *)
Lemma growth_after_checks self app_trx keep_first_dpg :
  let self' := pruned self in
  let app' := if holds_nothing self' then app_trx else pruned app_trx in
  let both := negb (holds_nothing self')
              && negb (holds_nothing (pruned app_trx)) in
  both && negb (_check_same_keys (dom (_zdpp self')) (dom (_zdpp app'))) = false →
  both && negb (_check_same_keys (dom (_zdps self')) (dom (_zdps app'))) = false →
  raised (growth self' app' keep_first_dpg) = None.
Proof.
  intros self' app' both Hdpp Hdps. unfold growth, is_empty.
  assert (Happ : prune_metadata app' false = pruned app_trx).
  { unfold app'. destruct (holds_nothing self'); [done|].
    apply prune_metadata_idemp. }
  rewrite Happ.
  destruct (holds_nothing (pruned app_trx)) eqn:Hea; [done|].
  assert (Hsub : dom (_zdpp self') ⊆ dom (_zdpp (pruned app_trx))
                 ∧ dom (_zdps self') ⊆ dom (_zdps (pruned app_trx))).
  { unfold both, app' in *. destruct (holds_nothing self') eqn:Hes.
    - apply holds_nothing_keys in Hes as [-> ->].
      rewrite !dom_empty_L. split; apply empty_subseteq.
    - cbn [negb andb] in Hdpp, Hdps.
      apply negb_false_iff, bool_decide_eq_true in Hdpp, Hdps.
      by rewrite Hdpp, Hdps. }
  destruct Hsub as [Hsub1 Hsub2]. unfold append_all.
  change (_zdpp (grow self' app')) with (_zdpp self').
  change (_zdps (grow self' app')) with (_zdps self').
  rewrite !dom_stored_arrays.
  rewrite !bool_decide_eq_true_2 by done. done.
Qed.

(** ** Failed checks *)

(** C3, as stated, fails: appending a schema clone of [A] to [A] with no
    group policy raises the ambiguous-policy error, as [A] holds
    per-group data; by then the emptiness tests have pruned the source,
    and the clone has lost its (zero-row) per-point array. *)
Lemma failure_mutates_nothing_counterexample :
  ¬ failure_mutates_nothing Sample.A (init_as Sample.A) false false.
Proof.
  intros H. destruct (H AmbiguousGroupPolicy) as [_ Hsrc].
  - by vm_compute.
  - mem_goal.
  - apply (f_equal (λ c, _zdpp c !! "colour")) in Hsrc.
    vm_compute in Hsrc. discriminate.
Qed.

(** C3 (amended): [append] only ever fails one of its checks, and when
    it does, the positions, offsets, counts, space attributes and
    backend of both containers are unchanged.  A schema mismatch, an
    immutable backend or conflicting policies leave both containers
    untouched; a key-set mismatch or an ambiguous policy is raised after
    the emptiness tests, which have pruned the target (and the source,
    unless the target is empty) of its zero-row and orphaned metadata
    entries -- nothing else changes, and containers that were already
    pruned are left as they were. *)
Theorem append_failed_check (self app_trx : TrxFile)
    (delete_dpg keep_first_dpg : bool) (e : error) :
  raised (append self app_trx delete_dpg keep_first_dpg) = Some e →
  let o := append self app_trx delete_dpg keep_first_dpg in
  precondition_error e
  ∧ (target o = self ∨ target o = pruned self)
  ∧ (source o = app_trx ∨ source o = pruned app_trx)
  ∧ same_data (target o) self
  ∧ same_data (source o) app_trx
  ∧ (e ∈ [SchemaMismatch; ImmutableBackendError; ConflictingPolicy] →
     target o = self ∧ source o = app_trx)
  ∧ (pruned self = self → pruned app_trx = app_trx →
     target o = self ∧ source o = app_trx).
Proof.
  intros Hraised o. subst o. revert Hraised.
  rewrite append_eq.
  destruct (negb _ || negb _).
  { intros [= <-]. split; [mem_goal|]. repeat split; auto using same_data_refl. }
  destruct (bool_decide (storage self = ZipStore)).
  { intros [= <-]. split; [mem_goal|]. repeat split; auto using same_data_refl. }
  destruct (delete_dpg && keep_first_dpg).
  { intros [= <-]. split; [mem_goal|]. repeat split; auto using same_data_refl. }
  cbv zeta.
  assert (Hsrc : ∀ b : bool,
    ((if b then app_trx else pruned app_trx) = app_trx
     ∨ (if b then app_trx else pruned app_trx) = pruned app_trx)
    ∧ same_data (if b then app_trx else pruned app_trx) app_trx
    ∧ (pruned app_trx = app_trx →
       (if b then app_trx else pruned app_trx) = app_trx)).
  { intros []; repeat split; auto. }
  assert (Hfail : ∀ e' : error, Some e' = Some e →
    e' ∈ [KeySetMismatch; AmbiguousGroupPolicy] →
    let o := mkOutcome (Some e') (pruned self)
               (if holds_nothing (pruned self) then app_trx else pruned app_trx) in
    precondition_error e
    ∧ (target o = self ∨ target o = pruned self)
    ∧ (source o = app_trx ∨ source o = pruned app_trx)
    ∧ same_data (target o) self
    ∧ same_data (source o) app_trx
    ∧ (e ∈ [SchemaMismatch; ImmutableBackendError; ConflictingPolicy] →
       target o = self ∧ source o = app_trx)
    ∧ (pruned self = self → pruned app_trx = app_trx →
       target o = self ∧ source o = app_trx)).
  { intros e' [= <-] He'. simpl.
    destruct (Hsrc (holds_nothing (pruned self))) as (Hs1 & Hs2 & Hs3).
    split; [mem_cases He'; mem_goal|].
    split; [by right|]. split; [exact Hs1|].
    split; [apply same_data_pruned|]. split; [exact Hs2|]. split.
    - intros Hin. mem_cases He'; mem_cases Hin; discriminate.
    - intros H1 H2. split; [done|by apply Hs3]. }
  destruct (_ && negb (_check_same_keys (dom (_zdpp _)) _)) eqn:Hdpp.
  { intros Heq. apply (Hfail _ Heq). mem_goal. }
  destruct (_ && negb (_check_same_keys (dom (_zdps _)) _)) eqn:Hdps.
  { intros Heq. apply (Hfail _ Heq). mem_goal. }
  destruct (negb (delete_dpg || keep_first_dpg) && _).
  { intros Heq. apply (Hfail _ Heq). mem_goal. }
  (* past the checks nothing is raised *)
  by rewrite (growth_after_checks self app_trx keep_first_dpg Hdpp Hdps).
Qed.

Lemma append_failed_check_witness :
  raised (append Sample.A_stale Sample.B false true) = Some KeySetMismatch
  ∧ target (append Sample.A_stale Sample.B false true) = pruned Sample.A_stale
  ∧ same_data (target (append Sample.A_stale Sample.B false true)) Sample.A_stale
  ∧ same_data (source (append Sample.A_stale Sample.B false true)) Sample.B.
Proof.
  assert (H1 : raised (append Sample.A_stale Sample.B false true)
               = Some KeySetMismatch) by (vm_compute; reflexivity).
  split; [exact H1|].
  destruct (append_failed_check Sample.A_stale Sample.B false true
              KeySetMismatch H1) as (_ & _ & _ & Ht & Hs & _).
  split; [vm_compute; reflexivity|]. split; [exact Ht|exact Hs].
Defined.

(** ** The group policy check *)

(** With no policy chosen, per-group data in the (pruned) target stops
    [append] before the growth phase: one of the checks fails. *)
Lemma append_no_policy_target self app_trx :
  size (_zdpg (pruned self)) ≠ 0%nat →
  ∃ e, raised (append self app_trx false false) = Some e
       ∧ e ∈ [SchemaMismatch; ImmutableBackendError; KeySetMismatch;
              AmbiguousGroupPolicy].
Proof.
  intros Hdpg. rewrite append_eq.
  destruct (negb _ || negb _); [eexists; split; [done|mem_goal]|].
  destruct (bool_decide (storage self = ZipStore));
    [eexists; split; [done|mem_goal]|].
  cbv zeta. cbn [andb orb negb].
  destruct (_ && negb (_check_same_keys (dom (_zdpp _)) _));
    [eexists; split; [done|mem_goal]|].
  destruct (_ && negb (_check_same_keys (dom (_zdps _)) _));
    [eexists; split; [done|mem_goal]|].
  rewrite bool_decide_eq_true_2 by done.
  eexists; split; [done|mem_goal].
Qed.

(** C4: the policy check looks at the target twice and never at the
    source.  Here the target holds no per-group data, the source does
    (also after pruning), no policy is chosen -- and [append] goes
    through, growing the target, where the ambiguous-policy error is
    due. *)
Theorem append_source_per_group_data_unchecked :
  let o := append Sample.plain Sample.tagged false false in
  size (_zdpg (pruned Sample.tagged)) = 1%nat
  ∧ size (_zdpg (pruned Sample.plain)) = 0%nat
  ∧ raised o = None
  ∧ nb_streamlines (target o) = 2
  ∧ _zpos (target o) = _zpos Sample.plain ++ _zpos Sample.tagged.
Proof. vm_compute. repeat split. Qed.

(** ** The shift of the group indices *)

(** When the growth phase completes on a non-empty source, each group of
    the target receives the source indices shifted by the sum of both
    streamline counts: the count is read after it has been updated. *)
Lemma growth_groups self app_trx keep_first_dpg (grp_key : string) :
  raised (growth self app_trx keep_first_dpg) = None →
  holds_nothing (pruned app_trx) = false →
  _zgrp (target (growth self app_trx keep_first_dpg)) !! grp_key =
  (λ old, old ++ ((λ i, i + (nb_streamlines self + nb_streamlines app_trx))
                    <$> default [] (_zgrp (pruned app_trx) !! grp_key)))
    <$> _zgrp self !! grp_key.
Proof.
  unfold growth, is_empty. fold (pruned app_trx). intros Hraised He.
  revert Hraised. rewrite He.
  destruct (append_all _ _); [|by simpl].
  destruct (append_all _ _); [|by simpl]. intros _. simpl.
  rewrite lookup_merge, lookup_fmap. unfold pruned; simpl.
  destruct (_zgrp self !! grp_key) as [old|];
    destruct (prune_arrays false (_zgrp app_trx) !! grp_key) as [g|]; simpl;
    rewrite ?app_nil_r; done.
Qed.

(** C1: a target of one streamline, in group [g], grows by a source of
    one streamline, in group [g].  The source index 0 lands in the
    target's group as 2 -- shifted by the count after the append, not by
    the count 1 the target had before -- and points past the two
    streamlines the target now holds. *)
Theorem append_group_shift_by_grown_count :
  let o := append Sample.plain Sample.plain false true in
  nb_streamlines Sample.plain = 1
  ∧ _zgrp Sample.plain !! "g" = Some [0]
  ∧ raised o = None
  ∧ nb_streamlines (target o) = 2
  ∧ _zgrp (target o) !! "g" = Some [0; 2]
  ∧ _zoff (target o) = [0; 2].
Proof. vm_compute. repeat split. Qed.

(** ** argsort and searchsorted *)

Lemma insert_pos_perm a p l : insert_pos a p l ≡ₚ p :: l.
Proof.
  induction l as [|q l IH]; simpl; [done|].
  destruct (a !!! p <=? a !!! q); [done|].
  rewrite IH. apply Permutation_swap.
Qed.

Lemma argsort_perm a : argsort a ≡ₚ seq 0 (length a).
Proof.
  unfold argsort. induction (seq 0 (length a)) as [|p l IH]; simpl; [done|].
  by rewrite insert_pos_perm, IH.
Qed.

Lemma argsort_length a : length (argsort a) = length a.
Proof. by rewrite (Permutation_length (argsort_perm a)), length_seq. Qed.

Lemma argsort_bound a p : p ∈ argsort a → (p < length a)%nat.
Proof. rewrite (argsort_perm a), elem_of_seq. lia. Qed.

Lemma argsort_complete a p : (p < length a)%nat → p ∈ argsort a.
Proof. rewrite (argsort_perm a), elem_of_seq. lia. Qed.

Lemma insert_pos_sorted (a : list Z) p l :
  StronglySorted Z.le ((λ q, a !!! q) <$> l) →
  StronglySorted Z.le ((λ q, a !!! q) <$> insert_pos a p l).
Proof.
  induction l as [|q l IH]; simpl; intros Hs.
  - repeat constructor.
  - apply StronglySorted_inv in Hs as [Hs Hall].
    destruct (a !!! p <=? a !!! q) eqn:Hle.
    + apply Z.leb_le in Hle. rewrite fmap_cons. constructor.
      * rewrite fmap_cons. by constructor.
      * rewrite fmap_cons. constructor; [done|].
        eapply Forall_impl; [exact Hall|]. simpl. lia.
    + apply Z.leb_gt in Hle. rewrite fmap_cons. constructor; [by apply IH|].
      rewrite (insert_pos_perm a p l), fmap_cons. constructor; [lia|done].
Qed.

Lemma argsort_sorted a :
  StronglySorted Z.le ((λ q, a !!! q) <$> argsort a).
Proof.
  unfold argsort. induction (seq 0 (length a)) as [|p l IH]; simpl.
  - constructor.
  - by apply insert_pos_sorted.
Qed.

(** On a sorted array, [searchsorted] lands on the value it looks for
    whenever the array holds it. *)
Lemma searchsorted_found (s : list Z) g :
  StronglySorted Z.le s → g ∈ s → s !! searchsorted s g = Some g.
Proof.
  induction 1 as [|x s Hs IH Hall]; intros Hin.
  - by apply elem_of_nil in Hin.
  - simpl. destruct (x <? g) eqn:Hlt.
    + apply Z.ltb_lt in Hlt. apply elem_of_cons in Hin as [->|Hin]; [lia|].
      simpl. by apply IH.
    + apply Z.ltb_ge in Hlt. simpl. f_equal.
      apply elem_of_cons in Hin as [->|Hin]; [done|].
      rewrite Forall_forall in Hall. apply Hall in Hin. lia.
Qed.

Lemma take_clip_elem (index : list nat) i : index ≠ [] → take_clip index i ∈ index.
Proof.
  intros Hne. unfold take_clip. apply list_elem_of_lookup_total_2.
  destruct index; [done|]. simpl. lia.
Qed.

(** ** intersect_groups, entry by entry *)

Lemma locate_Some (indices : list Z) g y :
  indices ≠ [] →
  locate indices g = Some y →
  0 ≤ y < Z.of_nat (length indices) ∧ indices !! Z.to_nat y = Some g.
Proof.
  intros Hne. unfold locate. set (index := argsort indices).
  set (p := take_clip index _).
  destruct (indices !!! p =? g) eqn:Heq; [|done]. intros [= <-].
  apply Z.eqb_eq in Heq.
  assert (Hindex : index ≠ []).
  { intros Hnil. apply Hne, nil_length_inv.
    rewrite <- argsort_length. fold index. by rewrite Hnil. }
  assert (Hp : (p < length indices)%nat)
    by (apply argsort_bound; by apply take_clip_elem).
  split; [lia|]. rewrite Nat2Z.id.
  rewrite <- Heq. by apply list_lookup_lookup_total_lt.
Qed.

Lemma locate_found (indices : list Z) g :
  g ∈ indices → is_Some (locate indices g).
Proof.
  intros Hin. unfold locate.
  assert (Hg : g ∈ (λ p, indices !!! p) <$> argsort indices).
  { apply list_elem_of_lookup in Hin as [j Hj].
    apply list_elem_of_fmap. exists j. split.
    - symmetry. by apply list_lookup_total_correct.
    - apply argsort_complete. by eapply lookup_lt_Some. }
  pose proof (searchsorted_found _ g (argsort_sorted indices) Hg) as Hfound.
  remember (searchsorted ((λ p, indices !!! p) <$> argsort indices) g) as p.
  rewrite list_lookup_fmap in Hfound.
  destruct (argsort indices !! p) as [y|] eqn:Hy; [|done].
  simpl in Hfound. injection Hfound as Hfound.
  unfold take_clip.
  rewrite Nat.min_l by (apply lookup_lt_Some in Hy; lia).
  rewrite (list_lookup_total_correct _ _ _ Hy), Hfound, Z.eqb_refl. by eexists.
Qed.

Lemma locate_None (indices : list Z) g :
  indices ≠ [] → g ∉ indices → locate indices g = None.
Proof.
  intros Hne Hnin. destruct (locate indices g) as [y|] eqn:Hy; [|done].
  apply locate_Some in Hy as [_ Hy]; [|done]. exfalso. apply Hnin.
  apply list_elem_of_lookup. eauto.
Qed.

(** Selecting with a boolean mask computed entry by entry. *)
Lemma mask_select (y : Z → nat) (test : nat → Z → bool) (group : list Z) :
  fst <$> filter (λ ym : nat * bool, ym.2 = false)
            (zip (y <$> group)
                 (zip_with (λ y g, negb (test y g)) (y <$> group) group))
  = omap (λ g, if test (y g) g then Some (y g) else None) group.
Proof.
  induction group as [|g group IH]; [done|].
  csimpl. rewrite filter_cons. csimpl.
  destruct (test (y g) g); csimpl; by rewrite IH.
Qed.

Lemma intersect_groups_eq (group indices : list Z) :
  indices ≠ [] →
  intersect_groups group indices = Ok (omap (locate indices) group).
Proof.
  intros Hne. unfold intersect_groups.
  rewrite bool_decide_eq_false_2.
  2:{ intros [Hnil _]. apply Hne, nil_length_inv.
      by rewrite <- argsort_length, Hnil. }
  f_equal.
  rewrite <- (list_fmap_compose (searchsorted _) (take_clip _)).
  rewrite (mask_select _ (λ y g, indices !!! y =? g)).
  rewrite list_fmap_omap. apply list_omap_ext, Forall2_same_length_lookup.
  split; [done|]. intros i g g' Hg Hg'. assert (g' = g) as -> by congruence.
  unfold locate, compose. by destruct (indices !!! _ =? g).
Qed.

(** For a non-empty index array, [intersect_groups] emits one position
    per entry of the group that occurs in [indices], in the order of the
    group, and [indices] holds that entry at the position emitted. *)
Lemma intersect_groups_spec (group indices : list Z) :
  indices ≠ [] →
  ∃ new_group,
    intersect_groups group indices = Ok new_group
    ∧ Forall (λ y, 0 ≤ y < Z.of_nat (length indices)) new_group
    ∧ (λ y, indices !!! Z.to_nat y) <$> new_group
      = filter (λ g, g ∈ indices) group.
Proof.
  intros Hne. exists (omap (locate indices) group).
  split; [by apply intersect_groups_eq|].
  induction group as [|g group [IH1 IH2]]; [by split|].
  csimpl. rewrite filter_cons.
  destruct (decide (g ∈ indices)) as [Hin|Hnin].
  - destruct (locate_found indices g Hin) as [y Hy]. rewrite Hy. csimpl.
    apply locate_Some in Hy as [Hy1 Hy2]; [|done]. split.
    + by constructor.
    + rewrite IH2. f_equal. by apply list_lookup_total_correct.
  - by rewrite (locate_None indices g Hne Hnin).
Qed.

(** ** What a successful select is made of *)

Lemma prune_arrays_lookup_case {A} (m : gmap string (list A)) k :
  prune_arrays false m !! k =
  match m !! k with
  | Some a => if decide (a = []) then None else Some a
  | None => None
  end.
Proof.
  apply option_eq. intros a. rewrite prune_arrays_lookup.
  destruct (m !! k) as [a'|]; [|by split; [intros [? _]|]].
  destruct (decide (a' = [])) as [->|Hne].
  - split; [by intros ([= <-] & ? & _)|done].
  - split; [by intros [? _]|]. by intros [= <-].
Qed.

Lemma select_Ok_inv self (indices idx : list Z) keep_group r :
  uint32 <$> indices = idx → idx ≠ [] →
  select self indices keep_group = Ok r →
  ∃ sel pos dpp dps zgrp,
    invalid_indices self idx = false
    ∧ getitem (streamlines self) idx = Ok sel
    ∧ get_data sel = Ok pos
    ∧ map_try (gather (streamlines self) idx) (_zdpp self) = Ok dpp
    ∧ map_try (λ arr, fancy_index arr idx) (_zdps self) = Ok dps
    ∧ select_groups self (init_as self) idx keep_group = Ok zgrp
    ∧ _zpos r = pos
    ∧ _zoff r = uint64 <$> 0 :: cumsum (removelast (_lengths sel))
    ∧ nb_points r = Z.of_nat (length pos)
    ∧ nb_streamlines r
      = Z.of_nat (length (uint64 <$> 0 :: cumsum (removelast (_lengths sel))))
    ∧ _zdpp r = prune_arrays false (merge append_rows (_zdpp (init_as self)) dpp)
    ∧ _zdps r = prune_arrays false (merge append_rows (_zdps (init_as self)) dps)
    ∧ _zgrp r = prune_arrays false zgrp.
Proof.
  intros <- Hne. unfold select.
  destruct (invalid_indices _ _); [done|].
  rewrite bool_decide_eq_false_2 by done.
  destruct (getitem _ _) as [sel|]; cbn [mbind result_bind]; [|done].
  destruct (get_data sel) as [pos|] eqn:Hpos; cbn [mbind result_bind]; [|done].
  destruct (map_try (gather _ _) _) as [dpp|]; cbn [mbind result_bind]; [|done].
  destruct (map_try (λ arr, fancy_index arr _) _) as [dps|];
    cbn [mbind result_bind]; [|done].
  destruct (select_groups _ _ _ _) as [zgrp|];
    cbn [mbind result_bind]; [|done].
  intros [= <-]. exists sel, pos, dpp, dps, zgrp.
  repeat split; first [exact Hpos|reflexivity].
Qed.

Lemma select_Ok_intro self (indices idx : list Z) keep_group sel pos dpp dps zgrp :
  uint32 <$> indices = idx → idx ≠ [] →
  invalid_indices self idx = false →
  getitem (streamlines self) idx = Ok sel →
  get_data sel = Ok pos →
  map_try (gather (streamlines self) idx) (_zdpp self) = Ok dpp →
  map_try (λ arr, fancy_index arr idx) (_zdps self) = Ok dps →
  select_groups self (init_as self) idx keep_group = Ok zgrp →
  ∃ r, select self indices keep_group = Ok r.
Proof.
  intros <- Hne Hinv Hsel Hpos Hdpp Hdps Hgrp. unfold select.
  rewrite Hinv, bool_decide_eq_false_2 by done.
  rewrite Hsel. cbn [mbind result_bind]. rewrite Hpos. cbn [mbind result_bind].
  rewrite Hdpp. cbn [mbind result_bind]. rewrite Hdps. cbn [mbind result_bind].
  rewrite Hgrp. cbn [mbind result_bind]. by eexists.
Qed.

(** The group loop never fails on a non-empty index array. *)
Lemma select_groups_Ok self new_trx (idx : list Z) keep_group :
  idx ≠ [] → ∃ zgrp, select_groups self new_trx idx keep_group = Ok zgrp.
Proof.
  intros Hne. unfold select_groups. destruct keep_group; [|by eexists].
  destruct (map_try (λ grp, intersect_groups grp idx) (_zgrp self))
    as [new_groups|e] eqn:Htry; [by eexists|].
  exfalso. unfold map_try in Htry.
  destruct (first_error _ _) eqn:Hfirst; [|done].
  assert (Hnone : first_error (λ grp, intersect_groups grp idx) (_zgrp self) = None).
  { apply first_error_None. intros k grp _.
    destruct (intersect_groups_spec grp idx Hne) as (out & -> & _). by eexists. }
  congruence.
Qed.

(** ** Group membership after select *)

(** C2, as stated, fails: index 0 is selected twice and belongs to
    [g1], but the new [g1] holds the single entry 0; output position 1
    is not in it. *)
Lemma emits_every_occurrence_counterexample :
  ¬ emits_every_occurrence Sample.A [0; 0].
Proof.
  intros H.
  assert (Hsel : ∃ r, select Sample.A [0; 0] true = Ok r
                      ∧ _zgrp r !! "g1" = Some [0]).
  { vm_compute. eexists. split; reflexivity. }
  destruct Hsel as (r & Hsel & Hg1).
  destruct (H r "g1" [0; 2] 1%nat 0 Hsel) as (new_group & Hnew & Hin);
    [done|done|by left|].
  rewrite Hg1 in Hnew. injection Hnew as <-.
  apply list_elem_of_singleton in Hin. done.
Qed.

(** C2 (amended): with [keep_group], the new membership of a group has
    one entry for each entry of the group that occurs in [indices], in
    the order of the group, and [indices] holds that entry at the
    position emitted.  The count is the number of group entries found,
    not the number of occurrences in [indices]: an index selected twice
    and present once in the group yields one membership.  A group whose
    new membership is empty is dropped. *)
Theorem select_group_entries (self : TrxFile) (indices : list Z)
    (new_trx : TrxFile) (grp_key : string) (grp : list Z) :
  indices ≠ [] →
  select self indices true = Ok new_trx →
  _zgrp self !! grp_key = Some grp →
  ∃ new_group,
    intersect_groups grp (uint32 <$> indices) = Ok new_group
    ∧ _zgrp new_trx !! grp_key
      = (if decide (new_group = []) then None else Some new_group)
    ∧ Forall (λ y, 0 ≤ y < Z.of_nat (length indices)) new_group
    ∧ (λ y, (uint32 <$> indices) !!! Z.to_nat y) <$> new_group
      = filter (λ g, g ∈ uint32 <$> indices) grp
    ∧ length new_group = length (filter (λ g, g ∈ uint32 <$> indices) grp).
Proof.
  intros Hne Hsel Hgrp.
  assert (Hne' : uint32 <$> indices ≠ []) by (by destruct indices).
  destruct (intersect_groups_spec grp _ Hne') as (new_group & Hint & Hall & Hval).
  exists new_group. split; [done|].
  apply (select_Ok_inv _ _ _ _ _ eq_refl Hne') in Hsel
    as (sel & pos & dpp & dps & zgrp & _ & _ & _ & _ & _ & Hz & _ & _ & _ & _
        & _ & _ & Hr).
  unfold select_groups in Hz.
  destruct (map_try _ (_zgrp self)) as [new_groups|] eqn:Htry; [|done].
  simpl in Hz. injection Hz as <-.
  split; [|split; [|split]].
  - rewrite Hr, prune_arrays_lookup_case, lookup_merge. simpl.
    rewrite lookup_fmap, Hgrp, (map_try_lookup _ _ _ grp_key Htry), Hgrp. simpl.
    rewrite Hint. simpl. destruct new_group; done.
  - by rewrite length_fmap in Hall.
  - done.
  - by rewrite <- Hval, length_fmap.
Qed.

Lemma select_group_entries_witness :
  [0; 0] ≠ []
  ∧ (∃ new_trx, select Sample.A [0; 0] true = Ok new_trx
                ∧ _zgrp new_trx !! "g1" = Some [0])
  ∧ _zgrp Sample.A !! "g1" = Some [0; 2].
Proof.
  assert (H1 : [0; 0] ≠ ([] : list Z)) by done.
  assert (H3 : _zgrp Sample.A !! "g1" = Some [0; 2]) by reflexivity.
  assert (H2 : ∃ new_trx, select Sample.A [0; 0] true = Ok new_trx).
  { vm_compute. by eexists. }
  split; [exact H1|]. split; [|exact H3].
  destruct H2 as [new_trx H2]. exists new_trx. split; [exact H2|].
  destruct (select_group_entries Sample.A [0; 0] new_trx "g1" [0; 2] H1 H2 H3)
    as (new_group & Hint & Hnew & _).
  vm_compute in Hint. injection Hint as <-. exact Hnew.
Defined.

(** ** Offsets and derived lengths *)

Lemma offsets_ok_tail o rest N :
  rest ≠ [] → offsets_ok (o :: rest) N →
  o ≤ hd N rest < o + 2 ^ 32 ∧ offsets_ok rest N.
Proof. destruct rest; [done|]. intros _ H. exact H. Qed.

Lemma offsets_ok_bounds offsets N i o :
  offsets_ok offsets N → offsets !! i = Some o →
  hd 0 offsets ≤ o
  ∧ o ≤ default N (offsets !! S i) < o + 2 ^ 32
  ∧ default N (offsets !! S i) ≤ N.
Proof.
  revert i o. induction offsets as [|a rest IH]; intros i o Hok Hi; [done|].
  destruct rest as [|b rest].
  - destruct i; [|done]. injection Hi as <-. simpl in *. lia.
  - destruct Hok as [Hab Hok]. destruct i as [|i].
    + injection Hi as <-. simpl.
      destruct (IH 0%nat b Hok eq_refl) as (_ & ? & ?). simpl in *. lia.
    + destruct (IH i o Hok Hi) as (H1 & H2 & H3). simpl in *. lia.
Qed.

Lemma offsets_ok_last offsets N :
  offsets_ok offsets N → offsets ≠ [] →
  hd 0 offsets ≤ List.last offsets 0 ∧ List.last offsets 0 ≤ N < List.last offsets 0 + 2 ^ 32.
Proof.
  induction offsets as [|a rest IH]; intros Hok Hne; [done|].
  destruct rest as [|b rest].
  - simpl in *. lia.
  - destruct Hok as [Hab Hok]. destruct (IH Hok) as [H1 H2]; [done|].
    change (List.last (a :: b :: rest) 0) with (List.last (b :: rest) 0).
    simpl in *. lia.
Qed.

Lemma gaps_length offsets N : length (gaps offsets N) = length offsets.
Proof. induction offsets; simpl; auto. Qed.

Lemma gaps_lookup offsets N i :
  gaps offsets N !! i = (λ o, default N (offsets !! S i) - o) <$> offsets !! i.
Proof.
  revert i. induction offsets as [|a rest IH]; intros i; [done|].
  destruct i as [|i]; simpl; [by destruct rest|]. apply IH.
Qed.

(** On well-formed offsets the modular arithmetic of [compute_lengths]
    is exact. *)
Lemma ediff1d_gaps offsets N :
  offsets ≠ [] → offsets_ok offsets N →
  uint32 <$> (ediff1d offsets ++ [uint64 (N - List.last offsets 0)])
  = gaps offsets N.
Proof.
  induction offsets as [|a rest IH]; intros Hne Hok; [done|].
  destruct rest as [|b rest].
  - simpl in *. rewrite uint32_uint64, uint32_small by lia. done.
  - destruct Hok as [Hab Hok].
    change (List.last (a :: b :: rest) 0) with (List.last (b :: rest) 0).
    change (ediff1d (a :: b :: rest)) with (uint64 (b - a) :: ediff1d (b :: rest)).
    rewrite <- app_comm_cons, fmap_cons, IH by done.
    rewrite uint32_uint64, uint32_small by lia. done.
Qed.

Lemma compute_lengths_gaps offsets N :
  offsets ≠ [] → hd 0 offsets = 0 → offsets_ok offsets N →
  compute_lengths offsets N = gaps offsets N.
Proof.
  intros Hne Hhd Hok. destruct offsets as [|a [|b rest]]; [done| |].
  - simpl in *. subst a. rewrite uint32_small by lia. f_equal. lia.
  - by apply ediff1d_gaps.
Qed.

Lemma compute_lengths_length offsets N :
  offsets ≠ [] → length (compute_lengths offsets N) = length offsets.
Proof.
  intros Hne. destruct offsets as [|a [|b rest]]; [done|done|].
  unfold compute_lengths. rewrite length_fmap, length_app.
  assert (H : ∀ l : list Z, l ≠ [] → S (length (ediff1d l)) = length l).
  { induction l as [|x [|y l] IH]; intros; [done|done|].
    change (ediff1d (x :: y :: l)) with (uint64 (y - x) :: ediff1d (y :: l)).
    cbn [length]. f_equal. by apply IH. }
  change (length [uint64 (N - List.last (a :: b :: rest) 0)]) with 1%nat.
  rewrite Nat.add_1_r. by apply H.
Qed.

Lemma compute_lengths_range offsets N :
  Forall (λ l, 0 ≤ l < 2 ^ 32) (compute_lengths offsets N).
Proof.
  assert (H : ∀ l : list Z, Forall (λ l, 0 ≤ l < 2 ^ 32) (uint32 <$> l)).
  { intros l. apply Forall_fmap, Forall_true. intros x. apply uint32_range. }
  destruct offsets as [|a [|b rest]].
  - repeat constructor; lia.
  - apply H.
  - apply H.
Qed.

Lemma compute_lengths_last offsets N :
  offsets ≠ [] → (length offsets = 1%nat → offsets = [0]) →
  List.last (compute_lengths offsets N) 0 = uint32 (N - List.last offsets 0).
Proof.
  intros Hne H1. destruct offsets as [|a [|b rest]]; [done| |].
  - rewrite (H1 eq_refl). simpl. f_equal. lia.
  - unfold compute_lengths. rewrite fmap_app.
    change (uint32 <$> [uint64 (N - List.last (a :: b :: rest) 0)])
      with [uint32 (uint64 (N - List.last (a :: b :: rest) 0))].
    rewrite List.last_last. apply uint32_uint64.
Qed.

(** ** Running totals *)

Lemma running_totals_length acc lens :
  length (running_totals acc lens) = length lens.
Proof. revert acc. induction lens; intros; simpl; auto. Qed.

Lemma sum_list_with_nonneg (lens : list Z) :
  Forall (λ l, 0 ≤ l) lens → 0 ≤ foldr Z.add 0 lens.
Proof. induction 1; simpl; lia. Qed.

(** [np.concatenate(([0], np.cumsum(lengths[:-1])))], stored as [uint64]:
    the running totals, as long as the total fits. *)
Lemma cumsum_running_totals acc (lens : list Z) :
  lens ≠ [] → Forall (λ l, 0 ≤ l) lens → 0 ≤ acc →
  acc + foldr Z.add 0 lens < 2 ^ 64 →
  uint64 <$> acc :: cumsum_from acc (removelast lens) = running_totals acc lens.
Proof.
  revert acc. induction lens as [|x lens IH]; intros acc Hne Hall Hacc Hsum;
    [done|].
  apply Forall_cons in Hall as [Hx Hall].
  pose proof (sum_list_with_nonneg lens Hall) as Hpos.
  destruct lens as [|y lens].
  - simpl. rewrite uint64_small; [done|simpl in *; lia].
  - change (removelast (x :: y :: lens)) with (x :: removelast (y :: lens)).
    cbn [cumsum_from running_totals]. rewrite fmap_cons.
    rewrite (uint64_small (acc + x)) by (simpl in *; lia).
    rewrite IH; [|done|done|lia|simpl in *; lia].
    rewrite uint64_small by (simpl in *; lia). done.
Qed.

Lemma running_totals_last acc (lens : list Z) :
  lens ≠ [] →
  List.last (running_totals acc lens) 0 + List.last lens 0
  = acc + foldr Z.add 0 lens.
Proof.
  revert acc. induction lens as [|x lens IH]; intros acc Hne; [done|].
  destruct lens as [|y lens]; [simpl; lia|].
  change (List.last (running_totals acc (x :: y :: lens)) 0)
    with (List.last (running_totals (acc + x) (y :: lens)) 0).
  change (List.last (x :: y :: lens) 0) with (List.last (y :: lens) 0).
  rewrite IH by done. simpl. lia.
Qed.

Lemma running_totals_gaps offsets N :
  running_totals (hd 0 offsets) (gaps offsets N) = offsets.
Proof.
  induction offsets as [|a rest IH]; [done|]. simpl. f_equal.
  destruct rest as [|b rest]; [done|]. simpl in *.
  replace (a + (b - a)) with b by lia. exact IH.
Qed.

(** ** Fancy indexing and the gathering of blocks *)

Lemma fancy_index_Ok `{!Inhabited A} (a : list A) (idx : list Z) :
  Forall (λ i, 0 ≤ i < Z.of_nat (length a)) idx →
  fancy_index a idx = Ok ((λ i, a !!! Z.to_nat i) <$> idx).
Proof.
  intros Hall. unfold fancy_index.
  rewrite (mapM_Some_2 _ idx ((λ i, a !!! Z.to_nat i) <$> idx)); [done|].
  apply Forall2_fmap_r, Forall_Forall2_diag.
  eapply Forall_impl; [exact Hall|]. intros i Hi. cbv beta in Hi |- *.
  apply list_lookup_lookup_total_lt. lia.
Qed.

Lemma fancy_index_inv {A} (a : list A) (idx : list Z) l :
  fancy_index a idx = Ok l →
  length l = length idx ∧ Forall (λ x, x ∈ a) l.
Proof.
  unfold fancy_index. destruct (mapM _ idx) as [l'|] eqn:Hm; [|done].
  intros [= <-]. apply mapM_Some_1 in Hm. split.
  - symmetry. by eapply Forall2_length.
  - clear -Hm. induction Hm as [|i y idx l Hy _ IH]; constructor; [|done].
    by eapply list_elem_of_lookup_2.
Qed.

Lemma copy_block_length data o len b :
  copy_block data o len = Some b → length b = Z.to_nat len.
Proof.
  unfold copy_block. case_bool_decide as Hlen; [|done]. by intros [= <-].
Qed.

Lemma blocks_length data (offs lens : list Z) blocks :
  length offs = length lens →
  Forall (λ l, 0 ≤ l) lens →
  Forall2 (λ ol b, copy_block data ol.1 ol.2 = Some b) (zip offs lens) blocks →
  Z.of_nat (length (concat blocks)) = foldr Z.add 0 lens.
Proof.
  revert lens blocks.
  induction offs as [|o offs IH]; intros [|l lens] blocks Hlen Hall Hb;
    try done.
  - by inversion Hb.
  - simpl in Hb. inversion Hb as [|? b ? blocks' Hcopy Hrest]; subst.
    apply Forall_cons in Hall as [Hl Hall]. simpl in Hcopy.
    apply copy_block_length in Hcopy.
    simpl. rewrite length_app, Nat2Z.inj_add, (IH lens blocks'); [lia|..];
      [by injection Hlen|done|done].
Qed.

Lemma get_data_length s pos :
  get_data s = Ok pos →
  length (_offsets s) = length (_lengths s) →
  Forall (λ l, 0 ≤ l) (_lengths s) →
  Z.of_nat (length pos) = foldr Z.add 0 (_lengths s).
Proof.
  unfold get_data. destruct (mapM _ _) as [blocks|] eqn:Hm; [|done].
  simpl. intros [= <-] Hlen Hall. apply mapM_Some_1 in Hm.
  by eapply blocks_length.
Qed.

Lemma getitem_inv s idx sel :
  getitem s idx = Ok sel →
  _data sel = _data s
  ∧ length (_offsets sel) = length idx
  ∧ length (_lengths sel) = length idx
  ∧ Forall (λ l, l ∈ _lengths s) (_lengths sel).
Proof.
  unfold getitem.
  destruct (fancy_index (_offsets s) idx) as [off|] eqn:Hoff;
    cbn [mbind result_bind]; [|done].
  destruct (fancy_index (_lengths s) idx) as [len|] eqn:Hlen;
    cbn [mbind result_bind]; [|done].
  intros [= <-]. simpl.
  apply fancy_index_inv in Hoff as [? _].
  apply fancy_index_inv in Hlen as [? ?]. done.
Qed.

Lemma Forall_last {A} (P : A → Prop) (l : list A) d :
  Forall P l → l ≠ [] → P (List.last l d).
Proof.
  induction 1 as [|x l Hx Hl IH]; intros Hne; [done|].
  destruct l as [|y l]; [done|]. by apply IH.
Qed.

(** ** The counts of a selection *)

Lemma select_nil self (indices : list Z) keep_group :
  indices = [] →
  select self indices keep_group = Ok (prune_metadata (init_as self) false).
Proof. intros ->. reflexivity. Qed.

(** Whatever the container, a selection that completes has counts that
    match its arrays, and its point count is the last offset plus the
    last derived length -- provided the point count fits the [uint64]
    offsets. *)
Lemma select_counts_ok self (indices : list Z) keep_group r :
  select self indices keep_group = Ok r →
  nb_points r < 2 ^ 64 →
  counts_ok r.
Proof.
  intros Hsel Hfit.
  destruct (decide (indices = [])) as [->|Hne].
  { rewrite select_nil in Hsel by done. injection Hsel as <-.
    by repeat split. }
  assert (Hne' : uint32 <$> indices ≠ []) by (by destruct indices).
  apply (select_Ok_inv _ _ _ _ _ eq_refl Hne') in Hsel
    as (sel & pos & dpp & dps & zgrp & _ & Hget & Hpos & _ & _ & _ & Hzpos
        & Hzoff & Hnp & Hns & _).
  apply getitem_inv in Hget as (_ & Hlo & Hll & Hin).
  assert (Hrange : Forall (λ l, 0 ≤ l < 2 ^ 32) (_lengths sel)).
  { eapply Forall_impl; [exact Hin|]. intros l Hl. simpl in Hl.
    pose proof (compute_lengths_range (_zoff self) (nb_points self)) as Hall.
    rewrite Forall_forall in Hall. by apply Hall. }
  assert (Hnonneg : Forall (λ l, 0 ≤ l) (_lengths sel)).
  { eapply Forall_impl; [exact Hrange|]. simpl. lia. }
  assert (Hlens : _lengths sel ≠ []).
  { intros Hnil. rewrite Hnil in Hll. destruct indices; done. }
  apply get_data_length in Hpos; [|congruence|done].
  assert (Htot : _zoff r = running_totals 0 (_lengths sel)).
  { rewrite Hzoff. apply cumsum_running_totals; [done|done|lia|lia]. }
  unfold counts_ok. split; [by rewrite Hns, Hzoff|].
  split; [by rewrite Hnp, Hzpos|].
  unfold last_offset_plus_length, streamlines. simpl.
  pose proof (running_totals_last 0 (_lengths sel) Hlens) as Hlast.
  pose proof (Forall_last _ _ 0 Hrange Hlens) as Hl.
  rewrite compute_lengths_last.
  - rewrite Htot, Hnp, Hpos. cbv beta in Hl.
    replace (foldr Z.add 0 (_lengths sel)
             - List.last (running_totals 0 (_lengths sel)) 0)
      with (List.last (_lengths sel) 0) by lia.
    rewrite uint32_small by lia. lia.
  - rewrite Htot. intros Hnil. apply Hlens.
    apply (f_equal length) in Hnil. rewrite running_totals_length in Hnil.
    by apply nil_length_inv.
  - rewrite Htot, running_totals_length. intros Hone.
    destruct (_lengths sel) as [|x [|y l]]; done.
Qed.

(** ** The counts after append and prune *)

Lemma last_app_r {A} (l l' : list A) d :
  l' ≠ [] → List.last (l ++ l') d = List.last l' d.
Proof.
  intros Hne. induction l as [|x l IH]; [done|].
  simpl. rewrite IH. destruct (l ++ l') eqn:Happ; [|done].
  apply app_eq_nil in Happ as [_ ?]. done.
Qed.

Lemma last_fmap {A B} (f : A → B) (l : list A) d d' :
  l ≠ [] → List.last (f <$> l) d' = f (List.last l d).
Proof.
  intros Hne. induction l as [|x l IH]; [done|].
  destruct l as [|y l]; [done|].
  change (List.last (f <$> x :: y :: l) d') with (List.last (f <$> y :: l) d').
  by rewrite IH.
Qed.

Lemma counts_ok_ext c c' :
  _zoff c = _zoff c' → _zpos c = _zpos c' →
  nb_points c = nb_points c' → nb_streamlines c = nb_streamlines c' →
  counts_ok c' → counts_ok c.
Proof.
  unfold counts_ok, last_offset_plus_length, streamlines. simpl.
  by intros -> -> -> ->.
Qed.

Lemma partitioned_counts_ok c : partitioned c → counts_ok c.
Proof.
  intros (Hn & Hp & Hhd & Hok). unfold counts_ok. split; [done|]. split; [done|].
  unfold last_offset_plus_length, streamlines. simpl.
  destruct (decide (_zoff c = [])) as [Hnil|Hne].
  - rewrite Hnil in *. simpl in *. lia.
  - destruct (offsets_ok_last _ _ Hok Hne) as [_ Hlast].
    rewrite compute_lengths_last; [rewrite uint32_small; lia|done|].
    intros Hone. destruct (_zoff c) as [|o [|o' l]]; try done.
    simpl in Hhd. by subst o.
Qed.

Lemma partitioned_pruned c : partitioned c → partitioned (pruned c).
Proof. done. Qed.

(** The first growth step keeps the counts in step with the arrays. *)
Lemma grow_counts_ok self app_trx :
  partitioned self → partitioned app_trx →
  nb_points self + nb_points app_trx < 2 ^ 64 →
  counts_ok (grow self app_trx).
Proof.
  intros (Hn & Hp & Hhd & Hok) (Hn' & Hp' & Hhd' & Hok') Hfit.
  unfold counts_ok. simpl.
  split; [rewrite length_app, length_fmap; lia|].
  split; [rewrite length_app, ?length_stored_rows; lia|].
  destruct (decide (_zoff app_trx = [])) as [Hnil|Hne].
  - (* nothing to add: the source has no streamline and no point *)
    assert (Hzero : nb_points app_trx = 0) by (rewrite Hnil in Hok'; exact Hok').
    destruct (partitioned_counts_ok self) as (_ & _ & Hself); [done|].
    unfold last_offset_plus_length, streamlines in *. simpl in *.
    rewrite Hnil, Hzero. simpl. rewrite app_nil_r, Z.add_0_r. exact Hself.
  - destruct (offsets_ok_last _ _ Hok' Hne) as [Hfirst Hlast].
    unfold last_offset_plus_length, streamlines. simpl.
    assert (Hshift : List.last (_zoff self ++
              ((λ o, uint64 (o + nb_points self)) <$> _zoff app_trx)) 0
            = List.last (_zoff app_trx) 0 + nb_points self).
    { rewrite last_app_r by (by destruct (_zoff app_trx)).
      rewrite (last_fmap _ _ 0) by done. apply uint64_small. lia. }
    rewrite compute_lengths_last.
    + rewrite Hshift.
      replace (nb_points self + nb_points app_trx
               - (List.last (_zoff app_trx) 0 + nb_points self))
        with (nb_points app_trx - List.last (_zoff app_trx) 0) by lia.
      rewrite uint32_small; lia.
    + by destruct (_zoff self), (_zoff app_trx).
    + rewrite length_app, length_fmap. intros Hone.
      destruct (_zoff self) as [|o l] eqn:Hs.
      * destruct (_zoff app_trx) as [|o' [|o'' l']]; try done.
        simpl in *. subst o'. rewrite Hok. done.
      * destruct (_zoff app_trx); [done|]. simpl in Hone. lia.
Qed.

(** C8: on valid containers, [append] (whatever its outcome), [select]
    (whenever it returns a container whose point count fits the 64-bit
    offsets) and [prune_metadata] leave a container whose offsets array
    has [streamline_count] entries, whose positions array has
    [point_count] rows, and whose point count is the last offset plus
    the derived length of the last streamline. *)
Theorem operations_keep_counts (self app_trx : TrxFile) (indices : list Z)
    (keep_group delete_dpg keep_first_dpg force : bool) :
  valid self → valid app_trx →
  nb_points self + nb_points app_trx < 2 ^ 64 →
  counts_ok (target (append self app_trx delete_dpg keep_first_dpg))
  ∧ (∀ new_trx, select self indices keep_group = Ok new_trx →
                nb_points new_trx < 2 ^ 64 → counts_ok new_trx)
  ∧ counts_ok (prune_metadata self force).
Proof.
  intros [Hself _ _] [Happ _ _] Hfit. split; [|split].
  - assert (Hpruned : counts_ok (pruned self))
      by (by apply partitioned_counts_ok, partitioned_pruned).
    rewrite append_eq.
    destruct (negb _ || negb _); [by apply partitioned_counts_ok|].
    destruct (bool_decide (storage self = ZipStore));
      [by apply partitioned_counts_ok|].
    destruct (delete_dpg && keep_first_dpg); [by apply partitioned_counts_ok|].
    cbv zeta.
    destruct (_ && negb (_check_same_keys (dom (_zdpp _)) _)); [done|].
    destruct (_ && negb (_check_same_keys (dom (_zdps _)) _)); [done|].
    destruct (negb (delete_dpg || keep_first_dpg) && _); [done|].
    match goal with |- counts_ok (target (growth ?s ?a ?k)) =>
      destruct (growth_target s a k) as (H1 & H2 & H3 & H4 & _);
      apply (counts_ok_ext _ (grow s a)); [done|done|done|done|]
    end.
    apply grow_counts_ok; [done| |].
    + by destruct (holds_nothing (pruned self)).
    + by destruct (holds_nothing (pruned self)).
  - intros new_trx Hsel Hnew. by eapply select_counts_ok.
  - by apply partitioned_counts_ok.
Qed.

(** ** Selecting out of a valid container *)

Lemma in_range_uint32 (n : Z) (indices : list Z) :
  n ≤ 2 ^ 32 → Forall (λ i, 0 ≤ i < n) indices → uint32 <$> indices = indices.
Proof.
  intros Hn Hall. induction Hall as [|i l Hi _ IH]; [done|].
  rewrite fmap_cons, IH, uint32_small by lia. done.
Qed.

Lemma in_range_valid_indices self (indices : list Z) :
  Forall (λ i, 0 ≤ i < nb_streamlines self) indices →
  invalid_indices self indices = false.
Proof.
  intros Hall. unfold invalid_indices.
  destruct (decide (indices = [])) as [->|Hne]; [done|].
  rewrite bool_decide_eq_true_2 by done. simpl.
  rewrite Forall_forall in Hall.
  pose proof (Hall _ (np_max_elem _ Hne)) as Hmax.
  assert (Hmin : 0 ≤ np_min indices).
  { apply np_min_nonneg, Forall_forall. intros x Hx. apply Hall in Hx. lia. }
  apply orb_false_iff. rewrite Z.ltb_ge, Z.ltb_ge. lia.
Qed.

(** The block that the partition assigns to streamline [i] is the one
    [copy_block] cuts out, and the derived length is its row count. *)
Lemma copy_block_streamline c (data : list (list Z)) i :
  partitioned c → Z.of_nat (length data) = nb_points c →
  0 ≤ i < nb_streamlines c →
  copy_block data (_zoff c !!! Z.to_nat i)
             (compute_lengths (_zoff c) (nb_points c) !!! Z.to_nat i)
  = Some (streamline_points c data i)
  ∧ compute_lengths (_zoff c) (nb_points c) !!! Z.to_nat i
    = Z.of_nat (length (streamline_points c data i)).
Proof.
  intros (Hn & Hp & Hhd & Hok) Hdata Hi.
  assert (Hne : _zoff c ≠ []).
  { intros Hnil. rewrite Hnil in Hn. simpl in Hn. lia. }
  destruct (lookup_lt_is_Some_2 (_zoff c) (Z.to_nat i)) as [o Ho]; [lia|].
  destruct (offsets_ok_bounds _ _ _ _ Hok Ho) as (Hlo & Hmid & Hhi).
  rewrite compute_lengths_gaps by done.
  rewrite (list_lookup_total_correct _ _ _ Ho).
  assert (Hgap : gaps (_zoff c) (nb_points c) !!! Z.to_nat i
                 = streamline_end c (Z.to_nat i) - o).
  { apply list_lookup_total_correct. by rewrite gaps_lookup, Ho. }
  rewrite Hgap. unfold copy_block, streamline_points, streamline_end in *.
  rewrite (list_lookup_total_correct _ _ _ Ho).
  set (e := default (nb_points c) (_zoff c !! S (Z.to_nat i))) in *.
  replace (Z.to_nat e - Z.to_nat o)%nat with (Z.to_nat (e - o)) by lia.
  assert (Hlen : length (take (Z.to_nat (e - o)) (drop (Z.to_nat o) data))
                 = Z.to_nat (e - o)).
  { rewrite length_take, length_drop. lia. }
  rewrite bool_decide_eq_true_2 by done. split; [done|]. rewrite Hlen. lia.
Qed.

Lemma mapM_blocks (data : list (list Z)) (f g : Z → Z) (h : Z → list (list Z))
    (P : Z → Prop) (idx : list Z) :
  (∀ i, P i → copy_block data (f i) (g i) = Some (h i)) →
  Forall P idx →
  mapM (λ ol, copy_block data ol.1 ol.2) (zip (f <$> idx) (g <$> idx))
  = Some (h <$> idx).
Proof.
  intros Hcopy Hall. apply mapM_Some_2.
  induction Hall as [|i idx Hi _ IH]; [constructor|].
  rewrite !fmap_cons. constructor; [by apply Hcopy|exact IH].
Qed.

Lemma getitem_partitioned c (data : list (list Z)) (idx : list Z) :
  partitioned c →
  Forall (λ i, 0 ≤ i < nb_streamlines c) idx →
  getitem {| _data := data;
             _offsets := _zoff c;
             _lengths := compute_lengths (_zoff c) (nb_points c) |} idx
  = Ok {| _data := data;
          _offsets := (λ i, _zoff c !!! Z.to_nat i) <$> idx;
          _lengths := (λ i, compute_lengths (_zoff c) (nb_points c)
                              !!! Z.to_nat i) <$> idx |}.
Proof.
  intros (Hn & _) Hall. unfold getitem. simpl.
  assert (Hall' : Forall (λ i, 0 ≤ i < Z.of_nat (length (_zoff c))) idx).
  { eapply Forall_impl; [exact Hall|]. intros i Hi. cbv beta in *. lia. }
  rewrite (fancy_index_Ok (_zoff c)) by done. cbn [mbind result_bind].
  rewrite fancy_index_Ok; [done|].
  destruct Hall as [|i idx Hi Hall]; [done|].
  rewrite compute_lengths_length; [done|].
  intros Hnil. rewrite Hnil in Hn. simpl in Hn. lia.
Qed.

Lemma gather_partitioned c (data : list (list Z)) (idx : list Z) :
  partitioned c → Z.of_nat (length data) = nb_points c →
  Forall (λ i, 0 ≤ i < nb_streamlines c) idx →
  gather (streamlines c) idx data
  = Ok (concat (streamline_points c data <$> idx)).
Proof.
  intros Hc Hdata Hall. unfold gather, streamlines. simpl.
  rewrite getitem_partitioned by done. cbn [mbind result_bind].
  unfold get_data. simpl.
  rewrite (mapM_blocks data _ _ (streamline_points c data)
             (λ i, 0 ≤ i < nb_streamlines c)); [done| |done].
  intros i Hi. by apply copy_block_streamline.
Qed.

Lemma sum_block_lengths {A} (blocks : list (list A)) :
  foldr Z.add 0 ((λ b, Z.of_nat (length b)) <$> blocks)
  = Z.of_nat (length (concat blocks)).
Proof.
  induction blocks as [|b blocks IH]; [done|].
  csimpl. rewrite length_app, IH. lia.
Qed.

(** A selection of in-range indices out of a valid container completes,
    and this is what it holds. *)
Lemma select_valid self (indices : list Z) keep_group :
  valid self → nb_streamlines self ≤ 2 ^ 32 →
  indices ≠ [] →
  Forall (λ i, 0 ≤ i < nb_streamlines self) indices →
  ∃ r, select self indices keep_group = Ok r
    ∧ _zpos r = concat (streamline_points self (_zpos self) <$> indices)
    ∧ _zoff r = uint64 <$> 0 :: cumsum (removelast
        ((λ i, Z.of_nat (length (streamline_points self (_zpos self) i)))
           <$> indices))
    ∧ nb_points r = Z.of_nat (length (_zpos r))
    ∧ nb_streamlines r = Z.of_nat (length indices)
    ∧ _zdpp r = prune_arrays false
        ((λ a, concat (streamline_points self a <$> indices)) <$> _zdpp self)
    ∧ _zdps r = prune_arrays false
        ((λ a, (λ i, a !!! Z.to_nat i) <$> indices) <$> _zdps self).
Proof.
  intros [Hpart Hdpp Hdps] Hn Hne Hall.
  pose proof Hpart as (Hns & Hnp & _).
  assert (Hidx : uint32 <$> indices = indices) by (by eapply in_range_uint32).
  assert (Hsel : getitem (streamlines self) indices = Ok
    {| _data := _zpos self;
       _offsets := (λ i, _zoff self !!! Z.to_nat i) <$> indices;
       _lengths := (λ i, compute_lengths (_zoff self) (nb_points self)
                           !!! Z.to_nat i) <$> indices |})
    by (by apply getitem_partitioned).
  assert (Hpos : gather (streamlines self) indices (_zpos self)
                 = Ok (concat (streamline_points self (_zpos self) <$> indices)))
    by (by apply gather_partitioned).
  unfold gather in Hpos. change (getitem _ indices) with
    (getitem (streamlines self) indices) in Hpos.
  rewrite Hsel in Hpos. cbn [mbind result_bind] in Hpos.
  assert (Htry_dpp : map_try (gather (streamlines self) indices) (_zdpp self)
    = Ok (omap (λ a, to_option (gather (streamlines self) indices a))
            (_zdpp self))).
  { apply map_try_Ok. split; [|done]. intros k a Hk.
    rewrite gather_partitioned; [by eexists|done| |done].
    by apply (Hdpp k a). }
  assert (Htry_dps : map_try (λ arr, fancy_index arr indices) (_zdps self)
    = Ok (omap (λ a, to_option (fancy_index a indices)) (_zdps self))).
  { apply map_try_Ok. split; [|done]. intros k a Hk.
    rewrite fancy_index_Ok; [by eexists|].
    pose proof (Hdps k a Hk) as Hlen. cbv beta in Hlen.
    eapply Forall_impl; [exact Hall|]. intros i Hi. cbv beta in *. lia. }
  destruct (select_groups_Ok self (init_as self) indices keep_group Hne)
    as [zgrp Hgrp].
  destruct (select_Ok_intro self indices indices keep_group _ _ _ _ zgrp
              Hidx Hne (in_range_valid_indices _ _ Hall) Hsel Hpos Htry_dpp
              Htry_dps Hgrp) as [r Hr].
  exists r. split; [done|].
  apply (select_Ok_inv _ _ _ _ _ Hidx Hne) in Hr
    as (sel' & pos' & dpp' & dps' & zgrp' & _ & Hsel' & Hpos' & Hdpp' & Hdps'
        & _ & Hzpos & Hzoff & Hnpr & Hnsr & Hzdpp & Hzdps & _).
  rewrite Hsel in Hsel'. injection Hsel' as <-.
  rewrite Hpos in Hpos'. injection Hpos' as <-.
  rewrite Htry_dpp in Hdpp'. injection Hdpp' as <-.
  rewrite Htry_dps in Hdps'. injection Hdps' as <-.
  simpl in Hzoff, Hnsr.
  assert (Hlens : (λ i, compute_lengths (_zoff self) (nb_points self)
                          !!! Z.to_nat i) <$> indices
      = (λ i, Z.of_nat (length (streamline_points self (_zpos self) i)))
          <$> indices).
  { apply Forall_fmap_ext. eapply Forall_impl; [exact Hall|].
    intros i Hi. simpl. by apply copy_block_streamline. }
  rewrite Hlens in Hzoff, Hnsr.
  split; [done|]. split; [done|]. split; [by rewrite Hzpos|].
  split.
  { rewrite Hnsr. rewrite length_fmap. simpl. f_equal.
    assert (Hrl : ∀ l : list Z, l ≠ [] → S (length (removelast l)) = length l).
    { intros l Hl. destruct (exists_last Hl) as (l' & x & ->).
      rewrite removelast_last, length_app. simpl. lia. }
    assert (Hcs : ∀ (l : list Z) acc, length (cumsum_from acc l) = length l).
    { induction l; intros; simpl; auto. }
    unfold cumsum. rewrite Hcs, Hrl; [by rewrite length_fmap|].
    by destruct indices. }
  split.
  - rewrite Hzdpp. f_equal. apply map_eq. intros k. cbn [init_as _zdpp].
    rewrite lookup_append_clone, lookup_omap, lookup_fmap.
    destruct (_zdpp self !! k) as [a|] eqn:Hk; [|done]. simpl.
    rewrite gather_partitioned; [done|done| |done]. by apply (Hdpp k a).
  - rewrite Hzdps. f_equal. apply map_eq. intros k. cbn [init_as _zdps].
    rewrite lookup_append_clone, lookup_omap, lookup_fmap.
    destruct (_zdps self !! k) as [a|] eqn:Hk; [|done]. simpl.
    rewrite fancy_index_Ok; [done|].
    pose proof (Hdps k a Hk) as Hlen. cbv beta in Hlen.
    eapply Forall_impl; [exact Hall|]. intros i Hi. cbv beta in *. lia.
Qed.

(** ** Selection order *)

Lemma select_valid_nil self keep_group :
  ∃ r, select self [] keep_group = Ok r
    ∧ _zpos r = [] ∧ _zoff r = []
    ∧ nb_points r = 0 ∧ nb_streamlines r = 0.
Proof. eexists. split; [by apply select_nil|]. by repeat split. Qed.

(** C6: out of a valid container, for in-range indices in any order and
    with repetitions, [select] returns a container whose offsets are the
    running totals of the lengths of the selected streamlines in the
    order given, whose positions are their point blocks concatenated in
    that order, and whose counts are the number of indices and the
    number of points gathered; for [indices = [i, i]] the positions are
    the block of streamline [i] twice and the counts are 2 and twice the
    length of the block.  (Streamline count within the [uint32] index
    range, gathered point count within the [uint64] offset range.) *)
Theorem select_in_given_order (self : TrxFile) (indices : list Z)
    (keep_group : bool) :
  valid self → nb_streamlines self ≤ 2 ^ 32 →
  Forall (λ i, 0 ≤ i < nb_streamlines self) indices →
  Z.of_nat (length (concat (streamline_points self (_zpos self) <$> indices)))
    < 2 ^ 64 →
  ∃ new_trx,
    select self indices keep_group = Ok new_trx
    ∧ _zoff new_trx
      = running_totals 0
          ((λ i, Z.of_nat (length (streamline_points self (_zpos self) i)))
             <$> indices)
    ∧ _zpos new_trx = concat (streamline_points self (_zpos self) <$> indices)
    ∧ nb_streamlines new_trx = Z.of_nat (length indices)
    ∧ nb_points new_trx = Z.of_nat (length (_zpos new_trx))
    ∧ (∀ i, indices = [i; i] →
         let block := streamline_points self (_zpos self) i in
         _zpos new_trx = block ++ block
         ∧ _zoff new_trx = [0; Z.of_nat (length block)]
         ∧ nb_streamlines new_trx = 2
         ∧ nb_points new_trx = 2 * Z.of_nat (length block)).
Proof.
  intros Hvalid Hn Hall Hfit.
  destruct (decide (indices = [])) as [->|Hne].
  { destruct (select_valid_nil self keep_group) as (r & Hr & Hp & Ho & Hnp & Hns).
    exists r. rewrite Hr, Hp, Ho, Hnp, Hns. by repeat split. }
  destruct (select_valid self indices keep_group Hvalid Hn Hne Hall)
    as (r & Hr & Hpos & Hoff & Hnp & Hns & _).
  assert (Htot : _zoff r = running_totals 0
    ((λ i, Z.of_nat (length (streamline_points self (_zpos self) i)))
       <$> indices)).
  { rewrite Hoff. apply cumsum_running_totals.
    - by destruct indices.
    - apply Forall_fmap, Forall_true. intros i. simpl. lia.
    - lia.
    - rewrite (list_fmap_compose (streamline_points self (_zpos self))
                 (λ b, Z.of_nat (length b))), sum_block_lengths. lia. }
  exists r. split; [done|]. split; [done|]. split; [done|]. split; [done|].
  split; [done|].
  intros i ->. cbv zeta. rewrite Hnp, Htot, Hpos, Hns. csimpl.
  rewrite app_nil_r, length_app. repeat split; lia.
Qed.

(** ** Selecting everything *)

Lemma concat_streamlines_prefix c (data : list (list Z)) (k : nat) :
  partitioned c → Z.of_nat (length data) = nb_points c →
  (k ≤ length (_zoff c))%nat →
  concat (streamline_points c data <$> (Z.of_nat <$> seq 0 k))
  = take (Z.to_nat (default (nb_points c) (_zoff c !! k))) data.
Proof.
  intros (Hn & Hp & Hhd & Hok) Hdata.
  induction k as [|k IH]; intros Hk.
  - simpl. destruct (_zoff c) as [|o l]; simpl in *.
    + by rewrite Hok.
    + by rewrite Hhd.
  - rewrite seq_S, !fmap_app, concat_app, IH by lia. csimpl.
    rewrite app_nil_r.
    destruct (lookup_lt_is_Some_2 (_zoff c) k) as [o Ho]; [lia|].
    destruct (offsets_ok_bounds _ _ _ _ Hok Ho) as (Hlo & Hmid & Hhi).
    unfold streamline_points, streamline_end. rewrite Nat2Z.id.
    rewrite Ho, (list_lookup_total_correct _ _ _ Ho). simpl.
    rewrite take_take_drop. f_equal. lia.
Qed.

Lemma seqZ_from_zero (n : Z) : seqZ 0 n = Z.of_nat <$> seq 0 (Z.to_nat n).
Proof.
  unfold seqZ. apply list_fmap_ext. intros _ i _. lia.
Qed.

Lemma concat_all_streamlines c (data : list (list Z)) :
  partitioned c → Z.of_nat (length data) = nb_points c →
  concat (streamline_points c data <$> seqZ 0 (nb_streamlines c)) = data.
Proof.
  intros Hc Hdata. pose proof Hc as (Hn & _).
  rewrite seqZ_from_zero, concat_streamlines_prefix; [|done|done|lia].
  rewrite lookup_ge_None_2 by lia. simpl. apply take_ge. lia.
Qed.

Lemma gather_all_rows `{!Inhabited A} (a : list A) :
  (λ i, a !!! Z.to_nat i) <$> seqZ 0 (Z.of_nat (length a)) = a.
Proof.
  rewrite seqZ_from_zero, Nat2Z.id, <- list_fmap_compose.
  apply list_eq. intros i. rewrite list_lookup_fmap.
  destruct (a !! i) as [x|] eqn:Hi.
  - rewrite lookup_seq_lt by (by eapply lookup_lt_Some). simpl.
    rewrite Nat2Z.id. f_equal. by apply list_lookup_total_correct.
  - rewrite lookup_seq_ge; [done|]. by apply lookup_ge_None.
Qed.

Lemma seqZ_in_range (n : Z) : Forall (λ i, 0 ≤ i < n) (seqZ 0 n).
Proof. apply Forall_forall. intros i Hi. apply elem_of_seqZ in Hi. lia. Qed.

(** C5, as stated, fails: a valid container of one streamline without
    any point has a per-point array without rows, and the pruning pass
    at the end of [select] removes that array from the selection of all
    the streamlines. *)
Lemma select_all_reproduces_counterexample :
  ¬ select_all_reproduces Sample.pointless true.
Proof.
  intros H.
  destruct H as (new_trx & Hsel & _ & Hdpp & _).
  - apply (bool_decide_unpack _). by vm_compute.
  - simpl. lia.
  - vm_compute in Hsel. injection Hsel as <-.
    apply (f_equal (λ m, m !! "colour")) in Hdpp.
    vm_compute in Hdpp. discriminate Hdpp.
Qed.

(** C5 (amended): selecting [0, 1, ..., streamline_count - 1] out of a
    valid container that holds at least one streamline (and no more than
    the [uint32] index range spans) returns a container with the same
    positions, the same per-streamline arrays and the same counts.  Its
    per-point arrays are those of the original that have a row: all of
    them, unchanged, as soon as the container holds a point; none when
    it holds no point, the pruning pass having removed them. *)
Theorem select_all_is_identity (self : TrxFile) (keep_group : bool) :
  valid self → 0 < nb_streamlines self ≤ 2 ^ 32 →
  ∃ new_trx,
    select self (seqZ 0 (nb_streamlines self)) keep_group = Ok new_trx
    ∧ _zpos new_trx = _zpos self
    ∧ (∀ key, default [] (_zdpp new_trx !! key) = default [] (_zdpp self !! key))
    ∧ (0 < nb_points self → _zdpp new_trx = _zdpp self)
    ∧ (nb_points self = 0 → _zdpp new_trx = ∅)
    ∧ _zdps new_trx = _zdps self
    ∧ nb_points new_trx = nb_points self
    ∧ nb_streamlines new_trx = nb_streamlines self.
Proof.
  intros Hvalid [Hpos Hn].
  pose proof Hvalid as [Hpart Hdpp Hdps]. pose proof Hpart as (Hns & Hnp & _).
  assert (Hne : seqZ 0 (nb_streamlines self) ≠ []).
  { intros Hnil. apply (f_equal length) in Hnil.
    rewrite length_seqZ in Hnil. simpl in Hnil. lia. }
  destruct (select_valid self _ keep_group Hvalid Hn Hne (seqZ_in_range _))
    as (r & Hr & Hzpos & _ & Hnpr & Hnsr & Hzdpp & Hzdps).
  rewrite concat_all_streamlines in Hzpos by done.
  assert (Hdpp_id : (λ a, concat (streamline_points self a
                                    <$> seqZ 0 (nb_streamlines self)))
                      <$> _zdpp self = _zdpp self).
  { apply map_eq. intros k. rewrite lookup_fmap.
    destruct (_zdpp self !! k) as [a|] eqn:Hk; [|done]. simpl. f_equal.
    apply concat_all_streamlines; [done|]. by apply (Hdpp k a). }
  assert (Hdps_id : (λ a : list (list Z),
                       (λ i, a !!! Z.to_nat i) <$> seqZ 0 (nb_streamlines self))
                      <$> _zdps self = _zdps self).
  { apply map_eq. intros k. rewrite lookup_fmap.
    destruct (_zdps self !! k) as [a|] eqn:Hk; [|done]. simpl. f_equal.
    rewrite <- (Hdps k a Hk). apply gather_all_rows. }
  rewrite Hdpp_id in Hzdpp. rewrite Hdps_id in Hzdps.
  exists r. split; [done|]. split; [done|].
  split; [|split; [|split; [|split; [|split]]]].
  - intros key. rewrite Hzdpp, prune_arrays_lookup_case.
    destruct (_zdpp self !! key) as [a|]; [|done].
    by destruct (decide (a = [])) as [->|].
  - intros Hpts. rewrite Hzdpp. apply map_eq. intros k.
    rewrite prune_arrays_lookup_case.
    destruct (_zdpp self !! k) as [a|] eqn:Hk; [|done].
    rewrite decide_False; [done|]. intros ->.
    pose proof (Hdpp k [] Hk) as Hlen. simpl in Hlen. lia.
  - intros Hpts. rewrite Hzdpp. apply map_eq. intros k.
    rewrite prune_arrays_lookup_case, lookup_empty.
    destruct (_zdpp self !! k) as [a|] eqn:Hk; [|done].
    rewrite decide_True; [done|]. apply nil_length_inv.
    pose proof (Hdpp k a Hk) as Hlen. simpl in Hlen. lia.
  - rewrite Hzdps. apply map_eq. intros k.
    rewrite prune_arrays_lookup_case.
    destruct (_zdps self !! k) as [a|] eqn:Hk; [|done].
    rewrite decide_False; [done|]. intros ->.
    pose proof (Hdps k [] Hk) as Hlen. simpl in Hlen. lia.
  - rewrite Hnpr, Hzpos. lia.
  - rewrite Hnsr, length_seqZ. lia.
Qed.

(** ** The sample container at work *)

Lemma valid_sample : valid Sample.A.
Proof. apply (bool_decide_unpack _). by vm_compute. Qed.

Lemma select_in_given_order_witness :
  valid Sample.A
  ∧ nb_streamlines Sample.A ≤ 2 ^ 32
  ∧ Forall (λ i, 0 ≤ i < nb_streamlines Sample.A) [2; 0; 2]
  ∧ ∃ new_trx,
      select Sample.A [2; 0; 2] true = Ok new_trx
      ∧ _zoff new_trx = [0; 2; 4]
      ∧ nb_streamlines new_trx = 3.
Proof.
  assert (H1 : valid Sample.A) by exact valid_sample.
  assert (H2 : nb_streamlines Sample.A ≤ 2 ^ 32) by (simpl; lia).
  assert (H3 : Forall (λ i, 0 ≤ i < nb_streamlines Sample.A) [2; 0; 2])
    by (repeat constructor; simpl; lia).
  assert (H4 : Z.of_nat (length (concat
                 (streamline_points Sample.A (_zpos Sample.A) <$> [2; 0; 2])))
               < 2 ^ 64) by (vm_compute; reflexivity).
  split; [exact H1|]. split; [exact H2|]. split; [exact H3|].
  destruct (select_in_given_order Sample.A [2; 0; 2] true H1 H2 H3 H4)
    as (new_trx & Hsel & Hoff & _ & Hns & _).
  exists new_trx. split; [exact Hsel|]. split; [exact Hoff|exact Hns].
Defined.

Lemma select_all_is_identity_witness :
  valid Sample.A
  ∧ 0 < nb_streamlines Sample.A ≤ 2 ^ 32
  ∧ ∃ new_trx,
      select Sample.A [0; 1; 2] false = Ok new_trx
      ∧ _zpos new_trx = _zpos Sample.A
      ∧ _zdpp new_trx = _zdpp Sample.A
      ∧ _zdps new_trx = _zdps Sample.A.
Proof.
  assert (H1 : valid Sample.A) by exact valid_sample.
  assert (H2 : 0 < nb_streamlines Sample.A ≤ 2 ^ 32) by (simpl; lia).
  assert (H3 : 0 < nb_points Sample.A) by (simpl; lia).
  split; [exact H1|]. split; [exact H2|].
  destruct (select_all_is_identity Sample.A false H1 H2)
    as (new_trx & Hsel & Hpos & _ & Hdpp & _ & Hdps & _).
  exists new_trx. split; [exact Hsel|]. split; [exact Hpos|].
  split; [exact (Hdpp H3)|exact Hdps].
Defined.

Lemma operations_keep_counts_witness :
  valid Sample.A
  ∧ nb_points Sample.A + nb_points Sample.A < 2 ^ 64
  ∧ counts_ok (target (append Sample.A Sample.A false true))
  ∧ counts_ok (prune_metadata Sample.A true).
Proof.
  assert (H1 : valid Sample.A) by exact valid_sample.
  assert (H2 : nb_points Sample.A + nb_points Sample.A < 2 ^ 64)
    by (simpl; lia).
  split; [exact H1|]. split; [exact H2|].
  destruct (operations_keep_counts Sample.A Sample.A [0] true false true true
              H1 H1 H2) as (Happ & _ & Hprune).
  split; [exact Happ|exact Hprune].
Defined.

(** * Further properties of the module *)

(** ** Derived lengths *)

Lemma gaps_sum offsets N :
  foldr Z.add 0 (gaps offsets N) = N - hd N offsets.
Proof.
  induction offsets as [|o rest IH]; simpl; [lia|]. rewrite IH. lia.
Qed.

(** In a container whose positions are partitioned by its offsets, the
    derived lengths have one entry per streamline, the entry of
    streamline [i] is the distance from its offset to the next one (to
    the point count for the last), and the lengths add up to the point
    count. *)
Theorem derived_lengths_partition (c : TrxFile) :
  partitioned c → 0 < nb_streamlines c →
  let lengths := _lengths (streamlines c) in
  length lengths = length (_zoff c)
  ∧ (∀ i o, _zoff c !! i = Some o →
       lengths !! i = Some (streamline_end c i - o)
       ∧ 0 ≤ streamline_end c i - o < 2 ^ 32)
  ∧ foldr Z.add 0 lengths = nb_points c.
Proof.
  intros (Hn & Hp & Hhd & Hok) Hpos. simpl.
  assert (Hne : _zoff c ≠ []).
  { intros Hnil. rewrite Hnil in Hn. simpl in Hn. lia. }
  rewrite compute_lengths_gaps by done.
  split; [apply gaps_length|]. split.
  - intros i o Ho. rewrite gaps_lookup, Ho. split; [done|].
    destruct (offsets_ok_bounds _ _ _ _ Hok Ho) as (_ & ? & _).
    unfold streamline_end. lia.
  - rewrite gaps_sum. destruct (_zoff c); [done|]. simpl in *. lia.
Qed.

Lemma partitioned_sample : partitioned Sample.A.
Proof. apply (bool_decide_unpack _). by vm_compute. Qed.

Lemma derived_lengths_partition_witness :
  partitioned Sample.A ∧ 0 < nb_streamlines Sample.A
  ∧ foldr Z.add 0 (_lengths (streamlines Sample.A)) = nb_points Sample.A.
Proof.
  assert (H1 : partitioned Sample.A) by exact partitioned_sample.
  assert (H2 : 0 < nb_streamlines Sample.A) by (simpl; lia).
  split; [exact H1|]. split; [exact H2|].
  exact (proj2 (proj2 (derived_lengths_partition Sample.A H1 H2))).
Defined.

(** ** Pruning *)

Lemma prune_arrays_force {A} (m : gmap string (list A)) :
  prune_arrays true m = ∅.
Proof.
  apply map_eq. intros k. rewrite lookup_empty. apply eq_None_not_Some.
  intros [a Ha]. apply prune_arrays_lookup in Ha as (_ & _ & ?). done.
Qed.

Lemma prune_arrays_clone {A B} (m : gmap string A) :
  prune_arrays false ((λ _, @nil B) <$> m) = ∅.
Proof.
  apply map_eq. intros k. rewrite lookup_empty, prune_arrays_lookup_case.
  rewrite lookup_fmap. by destruct (m !! k).
Qed.

Lemma map_imap_no_group {A B} (f : string → A → option B) (m : gmap string A) :
  (∀ k a, m !! k = Some a → f k a = None) → map_imap f m = ∅.
Proof.
  intros Hf. apply map_eq. intros k. rewrite map_lookup_imap, lookup_empty.
  destruct (m !! k) as [a|] eqn:Hk; [|done]. simpl. by eapply Hf.
Qed.

(** After a pruning pass without [force], no metadata array is left
    with zero rows, every per-group sub-group sits under a group that
    still exists, every entry left is an entry the container had, and
    the attributes, positions and offsets are untouched. *)
Theorem prune_metadata_invariant (c : TrxFile) :
  let p := prune_metadata c false in
  map_Forall (λ _ a, a ≠ []) (_zdpp p)
  ∧ map_Forall (λ _ a, a ≠ []) (_zdps p)
  ∧ map_Forall (λ _ a, a ≠ []) (_zgrp p)
  ∧ (∀ grp_key sub, _zdpg p !! grp_key = Some sub →
       is_Some (_zgrp p !! grp_key)
       ∧ map_Forall (λ _ a, a ≠ []) sub
       ∧ ∃ sub', _zdpg c !! grp_key = Some sub' ∧ sub ⊆ sub')
  ∧ _zdpp p ⊆ _zdpp c ∧ _zdps p ⊆ _zdps c ∧ _zgrp p ⊆ _zgrp c
  ∧ same_data p c.
Proof.
  assert (Hne : ∀ A (m : gmap string (list A)),
    map_Forall (λ _ a, a ≠ []) (prune_arrays false m)).
  { intros A m k a Hk. by apply prune_arrays_lookup in Hk as (_ & ? & _). }
  assert (Hsub : ∀ A (m : gmap string (list A)), prune_arrays false m ⊆ m).
  { intros A m. apply map_filter_subseteq. }
  simpl. repeat split; try apply Hne; try apply Hsub.
  - rewrite map_lookup_imap in H.
    destruct (_zdpg c !! grp_key) as [sub'|]; [|done]. simpl in H.
    by destruct (prune_arrays false (_zgrp c) !! grp_key).
  - rewrite map_lookup_imap in H.
    destruct (_zdpg c !! grp_key) as [sub'|]; [|done]. simpl in H.
    destruct (prune_arrays false (_zgrp c) !! grp_key); [|done].
    injection H as <-. apply Hne.
  - rewrite map_lookup_imap in H.
    destruct (_zdpg c !! grp_key) as [sub'|]; [|done]. simpl in H.
    destruct (prune_arrays false (_zgrp c) !! grp_key); [|done].
    injection H as <-. exists sub'. split; [done|apply Hsub].
Qed.

(** Pruning a second time with the same flag changes nothing more. *)
Theorem prune_metadata_twice (c : TrxFile) (force : bool) :
  prune_metadata (prune_metadata c force) force = prune_metadata c force.
Proof.
  destruct force; [|apply prune_metadata_idemp].
  unfold prune_metadata; simpl. rewrite !prune_arrays_force. f_equal.
  apply map_eq. intros k. rewrite !map_lookup_imap, !lookup_empty.
  destruct (_zdpg c !! k); simpl; by rewrite ?lookup_empty.
Qed.

(** Under [force] the pruning pass removes every metadata entry -- the
    per-group sub-groups too, their groups being gone -- and leaves the
    attributes, positions and offsets as they were. *)
Theorem prune_metadata_force (c : TrxFile) :
  no_metadata (prune_metadata c true)
  ∧ same_data (prune_metadata c true) c.
Proof.
  split; [|by repeat split].
  unfold no_metadata; simpl. rewrite !prune_arrays_force.
  repeat split. apply map_imap_no_group. intros k a _.
  by rewrite lookup_empty.
Qed.

(** ** Schema clones and emptiness *)

Lemma pruned_clone_no_metadata t :
  no_metadata (prune_metadata (init_as t) false).
Proof.
  unfold no_metadata; simpl. rewrite !prune_arrays_clone.
  repeat split. apply map_imap_no_group. intros k a _.
  by rewrite lookup_empty.
Qed.

(** A schema clone always tests empty, whatever the template holds, and
    the test leaves the clone without any of the keys it was created
    with; so does a blank container. *)
Theorem is_empty_clone (t : TrxFile) (float16 : dtype) :
  (is_empty (init_as t)).2 = true
  ∧ no_metadata (is_empty (init_as t)).1
  ∧ _zpos (is_empty (init_as t)).1 = []
  ∧ _zoff (is_empty (init_as t)).1 = []
  ∧ (is_empty (blank float16)).2 = true.
Proof.
  destruct (pruned_clone_no_metadata t) as (Hdpp & Hdps & Hgrp & Hdpg).
  unfold is_empty. cbn [fst snd]. split; [|by repeat split].
  unfold holds_nothing. rewrite Hdpp, Hdps, Hgrp, Hdpg. done.
Qed.

(** ** Selecting nothing, selecting without groups *)

(** [select] with no index returns a container with no streamline, no
    point and no metadata entry at all, with the space attributes of the
    original, on a temporary store. *)
Theorem select_nothing (self : TrxFile) (keep_group : bool) :
  ∃ new_trx,
    select self [] keep_group = Ok new_trx
    ∧ nb_streamlines new_trx = 0 ∧ nb_points new_trx = 0
    ∧ _zpos new_trx = [] ∧ _zoff new_trx = []
    ∧ no_metadata new_trx
    ∧ voxel_to_rasmm new_trx = voxel_to_rasmm self
    ∧ dimensions new_trx = dimensions self
    ∧ storage new_trx = TempStore.
Proof.
  eexists. split; [reflexivity|].
  split; [done|]. split; [done|]. split; [done|]. split; [done|].
  split; [apply pruned_clone_no_metadata|done].
Qed.

(** ** More on select *)

(** The groups and the space attributes of a selection that completes. *)
Lemma select_Ok_groups self (indices idx : list Z) keep_group r :
  uint32 <$> indices = idx → idx ≠ [] →
  select self indices keep_group = Ok r →
  ∃ zgrp,
    select_groups self (init_as self) idx keep_group = Ok zgrp
    ∧ _zgrp r = prune_arrays false zgrp
    ∧ (∀ grp_key, _zgrp r !! grp_key = None → _zdpg r !! grp_key = None)
    ∧ voxel_to_rasmm r = voxel_to_rasmm self
    ∧ dimensions r = dimensions self
    ∧ storage r = TempStore.
Proof.
  intros <- Hne. unfold select.
  destruct (invalid_indices _ _); [done|].
  rewrite bool_decide_eq_false_2 by done.
  destruct (getitem _ _) as [sel|]; cbn [mbind result_bind]; [|done].
  destruct (get_data sel) as [pos|]; cbn [mbind result_bind]; [|done].
  destruct (map_try (gather _ _) _) as [dpp|]; cbn [mbind result_bind]; [|done].
  destruct (map_try (λ arr, fancy_index arr _) _) as [dps|];
    cbn [mbind result_bind]; [|done].
  destruct (select_groups _ _ _ _) as [zgrp|];
    cbn [mbind result_bind]; [|done].
  intros [= <-]. exists zgrp. split; [done|]. split; [done|].
  split; [|done]. intros grp_key Hnone. simpl in *.
  rewrite map_lookup_imap. destruct (map_imap _ _ !! grp_key); [|done].
  simpl. by rewrite Hnone.
Qed.

(** Without [keep_group], a selection that completes carries no group
    and no per-group data; in every case it has the space attributes of
    the original and sits on a temporary store, and its per-group
    sub-groups all belong to groups it holds. *)
Theorem select_groups_carried (self : TrxFile) (indices : list Z)
    (keep_group : bool) (new_trx : TrxFile) :
  select self indices keep_group = Ok new_trx →
  (keep_group = false → _zgrp new_trx = ∅ ∧ _zdpg new_trx = ∅)
  ∧ dom (_zdpg new_trx) ⊆ dom (_zgrp new_trx)
  ∧ dom (_zgrp new_trx) ⊆ dom (_zgrp self)
  ∧ voxel_to_rasmm new_trx = voxel_to_rasmm self
  ∧ dimensions new_trx = dimensions self
  ∧ storage new_trx = TempStore.
Proof.
  intros Hsel. destruct (decide (indices = [])) as [->|Hne].
  { rewrite select_nil in Hsel by done. injection Hsel as <-.
    destruct (pruned_clone_no_metadata self) as (_ & _ & Hg & Hd).
    rewrite Hg, Hd. by repeat split. }
  assert (Hne' : uint32 <$> indices ≠ []) by (by destruct indices).
  destruct (select_Ok_groups _ _ _ _ _ eq_refl Hne' Hsel)
    as (zgrp & Hz & Hgrp & Hdpg & Hv & Hd & Hs).
  assert (Hsub : dom (_zdpg new_trx) ⊆ dom (_zgrp new_trx)).
  { intros k Hk. apply elem_of_dom in Hk. apply elem_of_dom.
    destruct (_zgrp new_trx !! k) eqn:Hg; [done|].
    rewrite (Hdpg k Hg) in Hk. by destruct Hk. }
  split; [|split; [done|split; [|done]]].
  - intros ->. simpl in Hz. injection Hz as <-.
    assert (Hempty : _zgrp new_trx = ∅)
      by (rewrite Hgrp; apply prune_arrays_clone).
    split; [done|]. apply map_eq. intros k. rewrite lookup_empty.
    apply Hdpg. by rewrite Hempty, lookup_empty.
  - intros k Hk. apply elem_of_dom in Hk as [g Hg]. apply elem_of_dom.
    rewrite Hgrp in Hg. apply prune_arrays_lookup in Hg as (Hg & _ & _).
    unfold select_groups in Hz. destruct keep_group.
    + destruct (map_try _ _) as [new_groups|]; [|done]. simpl in Hz.
      injection Hz as <-. rewrite lookup_merge, lookup_fmap in Hg.
      destruct (_zgrp self !! k); [done|]. simpl in Hg.
      by destruct (new_groups !! k).
    + injection Hz as <-. simpl in Hg. rewrite lookup_fmap in Hg.
      by destruct (_zgrp self !! k).
Qed.

Lemma select_groups_carried_witness :
  (∃ new_trx, select Sample.A [1; 0] false = Ok new_trx
              ∧ _zgrp new_trx = ∅ ∧ _zdpg new_trx = ∅).
Proof.
  assert (H : ∃ new_trx, select Sample.A [1; 0] false = Ok new_trx).
  { vm_compute. by eexists. }
  destruct H as [new_trx H]. exists new_trx. split; [exact H|].
  exact (proj1 (select_groups_carried Sample.A [1; 0] false new_trx H) eq_refl).
Defined.

(** *** select keeps containers valid *)

Lemma offsets_ok_running_totals acc (lens : list Z) :
  lens ≠ [] → Forall (λ l, 0 ≤ l < 2 ^ 32) lens →
  offsets_ok (running_totals acc lens) (acc + foldr Z.add 0 lens).
Proof.
  revert acc. induction lens as [|x lens IH]; intros acc Hne Hall; [done|].
  apply Forall_cons in Hall as [Hx Hall].
  destruct lens as [|y lens].
  - simpl. lia.
  - specialize (IH (acc + x)). cbn [running_totals foldr] in IH |- *.
    split; [lia|]. rewrite Z.add_assoc. by apply IH.
Qed.

Lemma streamline_points_length c (data : list (list Z)) i :
  partitioned c → Z.of_nat (length data) = nb_points c →
  0 ≤ i < nb_streamlines c →
  Z.of_nat (length (streamline_points c data i))
  = compute_lengths (_zoff c) (nb_points c) !!! Z.to_nat i
  ∧ 0 ≤ Z.of_nat (length (streamline_points c data i)) < 2 ^ 32.
Proof.
  intros Hc Hdata Hi.
  destruct (copy_block_streamline c data i Hc Hdata Hi) as [_ Hlen].
  split; [done|]. rewrite <- Hlen.
  pose proof (compute_lengths_range (_zoff c) (nb_points c)) as Hall.
  rewrite Forall_forall in Hall. apply Hall.
  apply list_elem_of_lookup_total_2.
  destruct Hc as (Hn & _).
  rewrite compute_lengths_length; [lia|].
  intros Hnil. rewrite Hnil in Hn. simpl in Hn. lia.
Qed.

Lemma gathered_length c (data : list (list Z)) (indices : list Z) :
  partitioned c → Z.of_nat (length data) = nb_points c →
  Forall (λ i, 0 ≤ i < nb_streamlines c) indices →
  length (concat (streamline_points c data <$> indices))
  = length (concat (streamline_points c (_zpos c) <$> indices)).
Proof.
  intros Hc Hdata Hall. pose proof Hc as (_ & Hp & _).
  induction Hall as [|i l Hi _ IH]; [done|].
  csimpl. rewrite !length_app, IH. f_equal.
  destruct (streamline_points_length c data i Hc Hdata Hi) as [H1 _].
  destruct (streamline_points_length c (_zpos c) i Hc) as [H2 _]; [done|done|].
  lia.
Qed.

Lemma select_result_valid self (indices : list Z) keep_group new_trx :
  valid self → nb_streamlines self ≤ 2 ^ 32 →
  Forall (λ i, 0 ≤ i < nb_streamlines self) indices →
  select self indices keep_group = Ok new_trx →
  nb_points new_trx < 2 ^ 64 →
  valid new_trx
  ∧ _zoff new_trx
    = running_totals 0
        ((λ i, Z.of_nat (length (streamline_points self (_zpos self) i)))
           <$> indices).
Proof.
  intros Hvalid Hn Hall Hsel Hfit.
  destruct (decide (indices = [])) as [->|Hne].
  { rewrite select_nil in Hsel by done. injection Hsel as <-.
    destruct (pruned_clone_no_metadata self) as (Hp & Hs & _).
    split; [|done]. split; [by repeat split| |].
    - rewrite Hp. apply map_Forall_empty.
    - rewrite Hs. apply map_Forall_empty. }
  destruct (select_valid self indices keep_group Hvalid Hn Hne Hall)
    as (r & Hr & Hpos & Hoff & Hnp & Hns & Hdpp & Hdps).
  rewrite Hsel in Hr. injection Hr as <-.
  pose proof Hvalid as [Hpart Hvdpp Hvdps]. pose proof Hpart as (_ & Hnpts & _).
  set (lens := (λ i, Z.of_nat (length (streamline_points self (_zpos self) i)))
                 <$> indices) in *.
  assert (Hrange : Forall (λ l, 0 ≤ l < 2 ^ 32) lens).
  { apply Forall_fmap. eapply Forall_impl; [exact Hall|]. intros i Hi.
    by apply streamline_points_length. }
  assert (Hlens : lens ≠ []) by (by destruct indices).
  assert (Hsum : foldr Z.add 0 lens = nb_points new_trx).
  { unfold lens. rewrite (list_fmap_compose
      (streamline_points self (_zpos self)) (λ b, Z.of_nat (length b))).
    by rewrite sum_block_lengths, Hnp, Hpos. }
  assert (Htot : _zoff new_trx = running_totals 0 lens).
  { rewrite Hoff. apply cumsum_running_totals; [done| |lia|lia].
    eapply Forall_impl; [exact Hrange|]. simpl. lia. }
  split; [|done]. split.
  - split; [|split; [done|split]].
    + rewrite Hns, Htot, running_totals_length. unfold lens.
      by rewrite length_fmap.
    + rewrite Htot. by destruct lens.
    + rewrite Htot, <- Hsum. apply (offsets_ok_running_totals 0); done.
  - intros k a Hk. rewrite Hdpp in Hk.
    apply prune_arrays_lookup in Hk as (Hk & _ & _).
    rewrite lookup_fmap in Hk.
    destruct (_zdpp self !! k) as [a'|] eqn:Hk'; [|done].
    injection Hk as <-. cbv beta.
    rewrite gathered_length; [by rewrite Hnp, Hpos|done| |done].
    by apply (Hvdpp k a').
  - intros k a Hk. rewrite Hdps in Hk.
    apply prune_arrays_lookup in Hk as (Hk & _ & _).
    rewrite lookup_fmap in Hk.
    destruct (_zdps self !! k) as [a'|] eqn:Hk'; [|done].
    injection Hk as <-. cbv beta. by rewrite length_fmap, Hns.
Qed.

(** Out of a valid container, a selection of in-range indices is a valid
    container again (as long as its point count fits the 64-bit
    offsets): selections can be chained. *)
Theorem select_preserves_valid (self : TrxFile) (indices : list Z)
    (keep_group : bool) (new_trx : TrxFile) :
  valid self → nb_streamlines self ≤ 2 ^ 32 →
  Forall (λ i, 0 ≤ i < nb_streamlines self) indices →
  select self indices keep_group = Ok new_trx →
  nb_points new_trx < 2 ^ 64 →
  valid new_trx.
Proof.
  intros Hvalid Hn Hall Hsel Hfit.
  by destruct (select_result_valid _ _ _ _ Hvalid Hn Hall Hsel Hfit).
Qed.

Lemma select_preserves_valid_witness :
  valid Sample.A ∧ nb_streamlines Sample.A ≤ 2 ^ 32
  ∧ Forall (λ i, 0 ≤ i < nb_streamlines Sample.A) [2; 2; 0]
  ∧ ∃ new_trx, select Sample.A [2; 2; 0] true = Ok new_trx
               ∧ nb_points new_trx < 2 ^ 64 ∧ valid new_trx.
Proof.
  assert (H1 : valid Sample.A) by exact valid_sample.
  assert (H2 : nb_streamlines Sample.A ≤ 2 ^ 32) by (simpl; lia).
  assert (H3 : Forall (λ i, 0 ≤ i < nb_streamlines Sample.A) [2; 2; 0])
    by (repeat constructor; simpl; lia).
  assert (H4 : ∃ new_trx, select Sample.A [2; 2; 0] true = Ok new_trx
                          ∧ nb_points new_trx = 6).
  { vm_compute. eexists. split; reflexivity. }
  split; [exact H1|]. split; [exact H2|]. split; [exact H3|].
  destruct H4 as (new_trx & H4 & H5'). exists new_trx.
  assert (H5 : nb_points new_trx < 2 ^ 64) by (rewrite H5'; lia).
  split; [exact H4|]. split; [exact H5|].
  exact (select_preserves_valid Sample.A [2; 2; 0] true new_trx H1 H2 H3 H4 H5).
Defined.

(** ** More on append *)

(** An [append] that raises nothing has passed every check and run the
    growth phase on the pruned target. *)
Lemma append_None_inv self app_trx delete_dpg keep_first_dpg :
  raised (append self app_trx delete_dpg keep_first_dpg) = None →
  let self' := pruned self in
  let app' := if holds_nothing self' then app_trx else pruned app_trx in
  let both := negb (holds_nothing self')
              && negb (holds_nothing (pruned app_trx)) in
  append self app_trx delete_dpg keep_first_dpg
    = growth self' app' keep_first_dpg
  ∧ both && negb (_check_same_keys (dom (_zdpp self')) (dom (_zdpp app')))
    = false
  ∧ both && negb (_check_same_keys (dom (_zdps self')) (dom (_zdps app')))
    = false
  ∧ allclose (voxel_to_rasmm self) (voxel_to_rasmm app_trx) = true
  ∧ array_equal (dimensions self) (dimensions app_trx) = true
  ∧ storage self ≠ ZipStore.
Proof.
  rewrite append_eq.
  destruct (allclose _ _); [|done]. destruct (array_equal _ _); [|done].
  cbn [negb orb]. case_bool_decide as Hzip; [done|].
  destruct (delete_dpg && keep_first_dpg); [done|]. cbv zeta.
  destruct (_ && negb (_check_same_keys (dom (_zdpp _)) _)); [done|].
  destruct (_ && negb (_check_same_keys (dom (_zdps _)) _)); [done|].
  destruct (negb (delete_dpg || keep_first_dpg) && _); [done|]. done.
Qed.

Lemma is_empty_source self app_trx :
  is_empty (if holds_nothing (pruned self) then app_trx else pruned app_trx)
  = (pruned app_trx, holds_nothing (pruned app_trx)).
Proof.
  destruct (holds_nothing (pruned self)); [done|]. apply is_empty_pruned.
Qed.

(** [append], when it raises nothing, has put the source positions,
    converted to the dtype of the target's positions, after the
    target's -- as they are when that dtype holds them already --, the
    source offsets, each shifted by the point count the target had
    before, after the target's offsets, and added the source counts to
    the target's; space attributes, dtypes and backend are those of the
    target, and the source is left pruned. *)
Theorem append_grows_positions (self app_trx : TrxFile)
    (delete_dpg keep_first_dpg : bool) :
  raised (append self app_trx delete_dpg keep_first_dpg) = None →
  let o := append self app_trx delete_dpg keep_first_dpg in
  _zpos (target o)
  = _zpos self ++ stored_rows (positions_dtype (_dtype self)) (_zpos app_trx)
  ∧ (holds_dtype (positions_dtype (_dtype self)) (_zpos app_trx) →
     _zpos (target o) = _zpos self ++ _zpos app_trx)
  ∧ _zoff (target o)
    = _zoff self ++ ((λ off, uint64 (off + nb_points self)) <$> _zoff app_trx)
  ∧ nb_points (target o) = nb_points self + nb_points app_trx
  ∧ nb_streamlines (target o) = nb_streamlines self + nb_streamlines app_trx
  ∧ voxel_to_rasmm (target o) = voxel_to_rasmm self
  ∧ dimensions (target o) = dimensions self
  ∧ _dtype (target o) = _dtype self
  ∧ storage (target o) = storage self
  ∧ source o = pruned app_trx.
Proof.
  intros Hraised o. subst o.
  destruct (append_None_inv _ _ _ _ Hraised) as (Heq & _). rewrite Heq.
  unfold growth. rewrite is_empty_source.
  assert (Hdata : ∀ b : bool,
    _zpos (if b then app_trx else pruned app_trx) = _zpos app_trx
    ∧ _zoff (if b then app_trx else pruned app_trx) = _zoff app_trx
    ∧ nb_points (if b then app_trx else pruned app_trx) = nb_points app_trx
    ∧ nb_streamlines (if b then app_trx else pruned app_trx)
      = nb_streamlines app_trx) by (by intros []).
  destruct (Hdata (holds_nothing (pruned self))) as (Hp & Ho & Hn & Hs).
  assert (Hgoal : ∀ c : TrxFile,
    _zpos c = _zpos (grow (pruned self)
                (if holds_nothing (pruned self) then app_trx
                 else pruned app_trx)) →
    _zpos c
    = _zpos self ++ stored_rows (positions_dtype (_dtype self)) (_zpos app_trx)
    ∧ (holds_dtype (positions_dtype (_dtype self)) (_zpos app_trx) →
       _zpos c = _zpos self ++ _zpos app_trx)).
  { intros c ->. simpl. rewrite Hp. split; [done|].
    intros Hholds. by rewrite stored_rows_holds. }
  destruct (holds_nothing (pruned app_trx)).
  { cbn [target]. destruct (Hgoal _ eq_refl) as [H1 H2].
    split; [done|]. split; [done|]. simpl. rewrite Ho, Hn, Hs.
    by repeat split. }
  destruct (append_all _ _).
  2:{ cbn [target]. destruct (Hgoal _ eq_refl) as [H1 H2].
      split; [done|]. split; [done|]. simpl. rewrite Ho, Hn, Hs.
      by repeat split. }
  destruct (append_all _ _); cbn [target source];
    (split; [by apply Hgoal|]); (split; [by apply Hgoal|]);
    simpl; rewrite Ho, Hn, Hs; by repeat split.
Qed.

Lemma append_grows_positions_witness :
  raised (append Sample.A Sample.A false true) = None
  ∧ holds_dtype (positions_dtype (_dtype Sample.A)) (_zpos Sample.A)
  ∧ _zpos (target (append Sample.A Sample.A false true))
    = _zpos Sample.A ++ _zpos Sample.A
  ∧ _zoff (target (append Sample.A Sample.A false true)) = [0; 2; 5; 7; 9; 12]
  ∧ nb_points (target (append Sample.A Sample.A false true)) = 14.
Proof.
  assert (H : raised (append Sample.A Sample.A false true) = None)
    by (vm_compute; reflexivity).
  assert (H' : holds_dtype (positions_dtype (_dtype Sample.A)) (_zpos Sample.A))
    by apply holds_wide.
  split; [exact H|]. split; [exact H'|].
  destruct (append_grows_positions Sample.A Sample.A false true H)
    as (_ & Hp & Ho & Hn & _).
  split; [exact (Hp H')|]. split; [exact Ho|exact Hn].
Defined.

(** *** An empty operand *)

Lemma holds_nothing_all c :
  holds_nothing c = true → no_metadata c ∧ _zpos c = [] ∧ _zoff c = [].
Proof.
  unfold holds_nothing, no_metadata. rewrite negb_true_iff, !orb_false_iff.
  intros (((((Hdpp & Hdps) & Hgrp) & Hdpg) & Hpos) & Hoff).
  apply bool_decide_eq_false in Hdpp, Hdps, Hgrp, Hdpg, Hpos, Hoff.
  repeat split; try (apply map_size_empty_iff);
    try (apply nil_length_inv);
    match goal with |- ?x = 0%nat => by destruct (decide (x = 0%nat)) end.
Qed.

Lemma merge_append_rows_empty {A} (m : gmap string (list A)) :
  merge append_rows ∅ m = ∅.
Proof.
  apply map_eq. intros k. rewrite lookup_merge, !lookup_empty.
  by destruct (m !! k).
Qed.

Lemma pruned_no_metadata c : no_metadata c → no_metadata (pruned c).
Proof.
  intros (Hp & Hs & Hg & Hd). unfold no_metadata, pruned. simpl.
  rewrite Hp, Hs, Hg, Hd. unfold prune_arrays. rewrite !map_filter_empty.
  by repeat split.
Qed.

(** A target without metadata stays without: the loops of the growth
    phase run over the keys of the target only. *)
Lemma growth_no_metadata self app_trx keep_first_dpg :
  no_metadata self →
  no_metadata (target (growth self app_trx keep_first_dpg)).
Proof.
  intros (Hp & Hs & Hg & Hd). unfold growth.
  destruct (is_empty app_trx) as [app' e].
  destruct e; [by repeat split|].
  unfold append_all. cbn [grow _zdpp _zdps _zgrp _zdpg].
  rewrite Hp, Hs, Hg, Hd, !dom_empty_L.
  rewrite !bool_decide_eq_true_2 by apply empty_subseteq.
  unfold no_metadata. simpl. rewrite !merge_append_rows_empty.
  repeat split. destruct keep_first_dpg; [|done].
  apply map_imap_no_group. intros k a Hk. by rewrite lookup_empty in Hk.
Qed.

(** Appending an empty source (no position, no offset, no metadata once
    pruned, counts at zero) leaves the target as the pruning pass leaves
    it. *)
Theorem append_empty_source (self app_trx : TrxFile)
    (delete_dpg keep_first_dpg : bool) :
  raised (append self app_trx delete_dpg keep_first_dpg) = None →
  (is_empty app_trx).2 = true →
  nb_points app_trx = 0 → nb_streamlines app_trx = 0 →
  target (append self app_trx delete_dpg keep_first_dpg)
  = prune_metadata self false.
Proof.
  intros Hraised Hempty Hn Hs.
  destruct (append_None_inv _ _ _ _ Hraised) as (Heq & _). rewrite Heq.
  unfold growth. rewrite is_empty_source.
  unfold is_empty in Hempty. cbn [snd] in Hempty. fold (pruned app_trx) in *.
  rewrite Hempty. cbn [target].
  destruct (holds_nothing_all _ Hempty) as (_ & Hpos & Hoff).
  unfold grow, pruned.
  assert (Hdata : ∀ b : bool,
    _zpos (if b then app_trx else prune_metadata app_trx false) = []
    ∧ _zoff (if b then app_trx else prune_metadata app_trx false) = []
    ∧ nb_points (if b then app_trx else prune_metadata app_trx false) = 0
    ∧ nb_streamlines (if b then app_trx else prune_metadata app_trx false) = 0)
    by (by intros []).
  destruct (Hdata (holds_nothing (prune_metadata self false)))
    as (-> & -> & -> & ->).
  simpl. by rewrite !app_nil_r, !Z.add_0_r.
Qed.

Lemma append_empty_source_witness :
  raised (append Sample.A (blank Sample.wide) false true) = None
  ∧ (is_empty (blank Sample.wide)).2 = true
  ∧ target (append Sample.A (blank Sample.wide) false true) = prune_metadata Sample.A false.
Proof.
  assert (H1 : raised (append Sample.A (blank Sample.wide) false true) = None)
    by (vm_compute; reflexivity).
  assert (H2 : (is_empty (blank Sample.wide)).2 = true) by (vm_compute; reflexivity).
  split; [exact H1|]. split; [exact H2|].
  exact (append_empty_source Sample.A (blank Sample.wide) false true H1 H2 eq_refl eq_refl).
Defined.

(** Appending to a target that tests empty copies positions, offsets
    and counts only: none of the per-point, per-streamline, group or
    per-group entries of the source reaches the target.  The positions
    are the source's, converted to the dtype of the target's positions
    (as they are when that dtype holds them already). *)
Theorem append_into_empty (self app_trx : TrxFile)
    (delete_dpg keep_first_dpg : bool) :
  raised (append self app_trx delete_dpg keep_first_dpg) = None →
  (is_empty self).2 = true →
  let o := append self app_trx delete_dpg keep_first_dpg in
  no_metadata (target o)
  ∧ _zpos (target o)
    = stored_rows (positions_dtype (_dtype self)) (_zpos app_trx)
  ∧ (holds_dtype (positions_dtype (_dtype self)) (_zpos app_trx) →
     _zpos (target o) = _zpos app_trx)
  ∧ _zoff (target o) = (λ off, uint64 (off + nb_points self)) <$> _zoff app_trx
  ∧ nb_points (target o) = nb_points self + nb_points app_trx
  ∧ nb_streamlines (target o) = nb_streamlines self + nb_streamlines app_trx.
Proof.
  intros Hraised Hempty o. subst o.
  destruct (append_None_inv _ _ _ _ Hraised) as (Heq & _). rewrite Heq.
  unfold is_empty in Hempty. cbn [snd] in Hempty. fold (pruned self) in *.
  destruct (holds_nothing_all _ Hempty) as (Hmeta & Hpos & Hoff).
  split; [by apply growth_no_metadata|].
  destruct (growth_target (pruned self)
              (if holds_nothing (pruned self) then app_trx else pruned app_trx)
              keep_first_dpg) as (-> & -> & -> & -> & _).
  rewrite Hempty. simpl in *. rewrite Hpos, Hoff. simpl.
  split; [done|]. split; [|done].
  intros Hholds. by apply stored_rows_holds.
Qed.

Lemma append_into_empty_witness :
  raised (append (init_as Sample.A) Sample.A false true) = None
  ∧ (is_empty (init_as Sample.A)).2 = true
  ∧ holds_dtype (positions_dtype (_dtype (init_as Sample.A))) (_zpos Sample.A)
  ∧ no_metadata (target (append (init_as Sample.A) Sample.A false true))
  ∧ _zpos (target (append (init_as Sample.A) Sample.A false true))
    = _zpos Sample.A.
Proof.
  assert (H1 : raised (append (init_as Sample.A) Sample.A false true) = None)
    by (vm_compute; reflexivity).
  assert (H2 : (is_empty (init_as Sample.A)).2 = true)
    by (vm_compute; reflexivity).
  assert (H3 : holds_dtype (positions_dtype (_dtype (init_as Sample.A)))
                 (_zpos Sample.A)) by apply holds_wide.
  split; [exact H1|]. split; [exact H2|]. split; [exact H3|].
  destruct (append_into_empty (init_as Sample.A) Sample.A false true H1 H2)
    as (Hmeta & _ & Hpos & _).
  split; [exact Hmeta|exact (Hpos H3)].
Defined.

(** *** Both operands non-empty *)

(** When target and source both hold something once pruned, an [append]
    that raises nothing found the same per-point keys and the same
    per-streamline keys on both sides, and has extended every such array
    of the target by the source array of the same key, converted to the
    dtype of the target array (as it is when that dtype holds its rows
    already): the target keeps its key sets. *)
Theorem append_metadata_lockstep (self app_trx : TrxFile)
    (delete_dpg keep_first_dpg : bool) :
  raised (append self app_trx delete_dpg keep_first_dpg) = None →
  (is_empty self).2 = false → (is_empty app_trx).2 = false →
  let o := append self app_trx delete_dpg keep_first_dpg in
  let self' := prune_metadata self false in
  let app' := prune_metadata app_trx false in
  dom (_zdpp self') = dom (_zdpp app')
  ∧ dom (_zdps self') = dom (_zdps app')
  ∧ (∀ key a, _zdpp self' !! key = Some a →
       ∃ d, _zdpp app' !! key = Some d
            ∧ _zdpp (target o) !! key
              = Some (a ++ stored_rows (dpp_dtype (_dtype self) key) d)
            ∧ (holds_dtype (dpp_dtype (_dtype self) key) d →
               _zdpp (target o) !! key = Some (a ++ d)))
  ∧ (∀ key a, _zdps self' !! key = Some a →
       ∃ d, _zdps app' !! key = Some d
            ∧ _zdps (target o) !! key
              = Some (a ++ stored_rows (dps_dtype (_dtype self) key) d)
            ∧ (holds_dtype (dps_dtype (_dtype self) key) d →
               _zdps (target o) !! key = Some (a ++ d)))
  ∧ dom (_zdpp (target o)) = dom (_zdpp self')
  ∧ dom (_zdps (target o)) = dom (_zdps self').
Proof.
  intros Hraised Hs Ha. cbv zeta.
  unfold is_empty in Hs, Ha. cbn [snd] in Hs, Ha.
  fold (pruned self) in Hs |- *. fold (pruned app_trx) in Ha |- *.
  destruct (append_None_inv _ _ _ _ Hraised) as (Heq & Hdpp & Hdps & _).
  rewrite Heq. clear Heq Hraised. rewrite Hs, Ha in *.
  cbn [negb andb] in Hdpp, Hdps.
  apply negb_false_iff, bool_decide_eq_true in Hdpp, Hdps.
  unfold growth. rewrite is_empty_pruned, Ha.
  unfold append_all. cbn [grow _zdpp _zdps _dtype].
  change (_dtype (pruned self)) with (_dtype self).
  rewrite !dom_stored_arrays.
  rewrite !bool_decide_eq_true_2 by (by rewrite ?Hdpp, ?Hdps).
  cbn [target _zdpp _zdps].
  assert (Hlook : ∀ dt (m1 m2 : gmap string (list (list Z))) key a,
    dom m1 = dom m2 → m1 !! key = Some a →
    ∃ d, m2 !! key = Some d
         ∧ merge append_rows m1 (stored_arrays dt m2) !! key
           = Some (a ++ stored_rows (dt key) d)
         ∧ (holds_dtype (dt key) d →
            merge append_rows m1 (stored_arrays dt m2) !! key = Some (a ++ d))).
  { intros dt m1 m2 key a Hdom Hk.
    assert (Hin : key ∈ dom m2)
      by (rewrite <- Hdom; apply elem_of_dom; by eexists).
    apply elem_of_dom in Hin as [d Hd]. exists d. split; [done|].
    rewrite lookup_merge, Hk, stored_arrays_lookup, Hd. simpl.
    split; [done|]. intros Hholds. by rewrite stored_rows_holds. }
  assert (Hdom : ∀ (m1 m2 : gmap string (list (list Z))),
    dom (merge append_rows m1 m2) = dom m1).
  { intros m1 m2. apply set_eq. intros key. rewrite !elem_of_dom, lookup_merge.
    destruct (m1 !! key), (m2 !! key); simpl; split; intros [? ?]; eauto;
      done. }
  split; [done|]. split; [done|].
  split; [intros key a Hk; by apply Hlook|].
  split; [intros key a Hk; by apply Hlook|].
  split; apply Hdom.
Qed.

Lemma append_metadata_lockstep_witness :
  raised (append Sample.A Sample.A false true) = None
  ∧ (is_empty Sample.A).2 = false
  ∧ _zdps (target (append Sample.A Sample.A false true)) !! "weight"
    = Some [[100]; [200]; [300]; [100]; [200]; [300]].
Proof.
  assert (H1 : raised (append Sample.A Sample.A false true) = None)
    by (vm_compute; reflexivity).
  assert (H2 : (is_empty Sample.A).2 = false) by (vm_compute; reflexivity).
  split; [exact H1|]. split; [exact H2|].
  destruct (append_metadata_lockstep Sample.A Sample.A false true H1 H2 H2)
    as (_ & _ & _ & Hdps & _).
  destruct (Hdps "weight" [[100]; [200]; [300]]) as (d & Hd & _ & Ht);
    [vm_compute; reflexivity|].
  vm_compute in Hd. injection Hd as <-. apply Ht, holds_wide.
Defined.

(** *** append keeps containers valid *)

Lemma offsets_ok_app (os l' : list Z) Ns N' :
  offsets_ok os Ns → l' ≠ [] → hd 0 l' = Ns → offsets_ok l' N' →
  offsets_ok (os ++ l') N'.
Proof.
  intros Hos Hne Hhd Hl'. induction os as [|o os IH]; [done|].
  destruct os as [|o' os].
  - destruct l' as [|b l']; [done|]. simpl in *. subst b. split; [lia|done].
  - destruct Hos as [Hoo Hos]. simpl. split; [done|]. by apply IH.
Qed.

Lemma offsets_ok_shift (oa : list Z) Na Ns :
  offsets_ok oa Na → oa ≠ [] →
  offsets_ok ((λ o, o + Ns) <$> oa) (Na + Ns).
Proof.
  intros Hok Hne. induction oa as [|o oa IH]; [done|].
  destruct oa as [|o' oa].
  - simpl in *. lia.
  - destruct Hok as [Hoo Hok]. rewrite !fmap_cons. split; [lia|].
    exact (IH Hok ltac:(done)).
Qed.

Lemma shift_no_wrap (oa : list Z) Na Ns :
  offsets_ok oa Na → hd 0 oa = 0 → 0 ≤ Ns → Ns + Na < 2 ^ 64 →
  (λ o, uint64 (o + Ns)) <$> oa = (λ o, o + Ns) <$> oa.
Proof.
  intros Hok Hhd HNs Hfit. apply Forall_fmap_ext, Forall_forall.
  intros o Ho. apply list_elem_of_lookup in Ho as [i Hi].
  destruct (offsets_ok_bounds _ _ _ _ Hok Hi) as (H1 & H2 & H3).
  apply uint64_small. lia.
Qed.

Lemma grow_partitioned self app_trx :
  partitioned self → partitioned app_trx →
  nb_points self + nb_points app_trx < 2 ^ 64 →
  partitioned (grow self app_trx).
Proof.
  intros (Hn & Hp & Hhd & Hok) (Hn' & Hp' & Hhd' & Hok') Hfit.
  unfold partitioned. simpl.
  split; [rewrite length_app, length_fmap; lia|].
  split; [rewrite length_app, ?length_stored_rows; lia|].
  rewrite (shift_no_wrap _ _ _ Hok' Hhd') by lia.
  destruct (decide (_zoff app_trx = [])) as [Hnil|Hne].
  - rewrite Hnil in *. simpl in Hok'. rewrite Hok'.
    simpl. rewrite app_nil_r, Z.add_0_r. done.
  - split.
    + destruct (_zoff self) as [|o os]; [|done].
      destruct (_zoff app_trx) as [|o' oa]; [done|]. simpl in *. lia.
    + apply (offsets_ok_app _ _ (nb_points self)); [done| | |].
      * by destruct (_zoff app_trx).
      * destruct (_zoff app_trx); [done|]. simpl in *. lia.
      * rewrite (Z.add_comm (nb_points self)). by apply offsets_ok_shift.
Qed.

Lemma partitioned_ext c c' :
  _zoff c = _zoff c' → _zpos c = _zpos c' →
  nb_points c = nb_points c' → nb_streamlines c = nb_streamlines c' →
  partitioned c' → partitioned c.
Proof. unfold partitioned. by intros -> -> -> ->. Qed.

Lemma pruned_valid c : valid c → valid (pruned c).
Proof.
  intros [Hpart Hdpp Hdps]. split; [done| |].
  - intros k a Hk. apply prune_arrays_lookup in Hk as (Hk & _). simpl.
    by apply (Hdpp k a).
  - intros k a Hk. apply prune_arrays_lookup in Hk as (Hk & _). simpl.
    by apply (Hdps k a).
Qed.

Lemma growth_valid self app_trx keep_first_dpg :
  valid self → valid app_trx →
  nb_points self + nb_points app_trx < 2 ^ 64 →
  raised (growth self app_trx keep_first_dpg) = None →
  valid (target (growth self app_trx keep_first_dpg)).
Proof.
  intros [Hpart Hdpp Hdps] Happ Hfit Hraised.
  pose proof (pruned_valid _ Happ) as [Hpart' Hdpp' Hdps'].
  destruct Happ as [Hpa _ _].
  pose proof (grow_partitioned _ _ Hpart Hpa Hfit) as Hgrow.
  destruct (growth_target self app_trx keep_first_dpg)
    as (H1 & H2 & H3 & H4 & _).
  split; [by eapply partitioned_ext|..].
  - intros k a Hk. cbv beta. rewrite H3. revert Hraised Hk.
    unfold growth, is_empty. fold (pruned app_trx).
    destruct (holds_nothing (pruned app_trx)) eqn:He.
    + intros _ Hk. cbn [target grow _zdpp nb_points] in *.
      apply Hdpp in Hk. cbv beta in Hk.
      destruct (holds_nothing_all _ He) as (_ & Hpos & _).
      destruct Hpa as (_ & Hp' & _). simpl in Hpos.
      rewrite Hpos in Hp'. simpl in Hp'. lia.
    + unfold append_all. cbn [grow _zdpp _zdps].
      rewrite !dom_stored_arrays.
      case_bool_decide as Hsub1; [|done].
      case_bool_decide as Hsub2; [|done].
      intros _ Hk. cbn [target _zdpp] in Hk.
      rewrite lookup_merge, stored_arrays_lookup in Hk.
      destruct (_zdpp self !! k) as [a1|] eqn:Hk1;
        [|by destruct (_zdpp (pruned app_trx) !! k)].
      destruct (_zdpp (pruned app_trx) !! k) as [a2|] eqn:Hk2.
      * injection Hk as <-. apply Hdpp in Hk1. apply Hdpp' in Hk2.
        simpl in Hk1, Hk2 |- *. rewrite length_app, length_stored_rows. lia.
      * exfalso. assert (Hin : k ∈ dom (_zdpp (pruned app_trx))).
        { apply Hsub1, elem_of_dom. by eexists. }
        apply elem_of_dom in Hin as [? Hin]. congruence.
  - intros k a Hk. cbv beta. rewrite H4. revert Hraised Hk.
    unfold growth, is_empty. fold (pruned app_trx).
    destruct (holds_nothing (pruned app_trx)) eqn:He.
    + intros _ Hk. cbn [target grow _zdps nb_streamlines] in *.
      apply Hdps in Hk. cbv beta in Hk.
      destruct (holds_nothing_all _ He) as (_ & _ & Hoff).
      destruct Hpa as (Hs' & _). simpl in Hoff.
      rewrite Hoff in Hs'. simpl in Hs'. lia.
    + unfold append_all. cbn [grow _zdpp _zdps].
      rewrite !dom_stored_arrays.
      case_bool_decide as Hsub1; [|done].
      case_bool_decide as Hsub2; [|done].
      intros _ Hk. cbn [target _zdps] in Hk.
      rewrite lookup_merge, stored_arrays_lookup in Hk.
      destruct (_zdps self !! k) as [a1|] eqn:Hk1;
        [|by destruct (_zdps (pruned app_trx) !! k)].
      destruct (_zdps (pruned app_trx) !! k) as [a2|] eqn:Hk2.
      * injection Hk as <-. apply Hdps in Hk1. apply Hdps' in Hk2.
        simpl in Hk1, Hk2 |- *. rewrite length_app, length_stored_rows. lia.
      * exfalso. assert (Hin : k ∈ dom (_zdps (pruned app_trx))).
        { apply Hsub2, elem_of_dom. by eexists. }
        apply elem_of_dom in Hin as [? Hin]. congruence.
Qed.

(** An [append] of a valid source to a valid target that raises nothing
    leaves a valid target (as long as the point count fits the 64-bit
    offsets): offsets non-decreasing and in step with the positions,
    every per-point array with one row per point, every
    per-streamline array with one row per streamline. *)
Theorem append_preserves_valid (self app_trx : TrxFile)
    (delete_dpg keep_first_dpg : bool) :
  valid self → valid app_trx →
  nb_points self + nb_points app_trx < 2 ^ 64 →
  raised (append self app_trx delete_dpg keep_first_dpg) = None →
  valid (target (append self app_trx delete_dpg keep_first_dpg)).
Proof.
  intros Hself Happ Hfit Hraised.
  destruct (append_None_inv _ _ _ _ Hraised) as (Heq & _).
  rewrite Heq in Hraised |- *. clear Heq.
  apply growth_valid; [by apply pruned_valid| | |done].
  - destruct (holds_nothing _); [done|by apply pruned_valid].
  - by destruct (holds_nothing _).
Qed.

Lemma append_preserves_valid_witness :
  valid Sample.A
  ∧ nb_points Sample.A + nb_points Sample.A < 2 ^ 64
  ∧ raised (append Sample.A Sample.A false true) = None
  ∧ valid (target (append Sample.A Sample.A false true)).
Proof.
  assert (H1 : valid Sample.A) by exact valid_sample.
  assert (H2 : nb_points Sample.A + nb_points Sample.A < 2 ^ 64)
    by (simpl; lia).
  assert (H3 : raised (append Sample.A Sample.A false true) = None)
    by (vm_compute; reflexivity).
  split; [exact H1|]. split; [exact H2|]. split; [exact H3|].
  exact (append_preserves_valid Sample.A Sample.A false true H1 H1 H2 H3).
Defined.

(** *** Appending in either grouping *)

Lemma uint64_shift_shift o n m :
  uint64 (uint64 (o + m) + n) = uint64 (o + (n + m)).
Proof.
  unfold uint64. rewrite Zplus_mod_idemp_l. f_equal. lia.
Qed.

Lemma growth_dtype self app_trx keep_first_dpg :
  _dtype (target (growth self app_trx keep_first_dpg)) = _dtype self.
Proof.
  unfold growth. destruct (is_empty app_trx) as [app' e].
  destruct e; [done|].
  destruct (append_all _ _); [|done].
  destruct (append_all _ _); done.
Qed.

(** Appending [b] and then [c] to [a] gives the same offsets and counts
    as appending to [a] the result of appending [c] to [b], whenever the
    four appends raise nothing.  It gives the same positions when the
    positions of [a] and [b] have one dtype and that dtype holds the
    positions of [c] already; otherwise the positions of [c] are
    converted twice in the second grouping and once in the first. *)
Theorem append_associative (a b c : TrxFile)
    (delete_dpg keep_first_dpg : bool) :
  let ab := append a b delete_dpg keep_first_dpg in
  let ab_c := append (target ab) c delete_dpg keep_first_dpg in
  let bc := append b c delete_dpg keep_first_dpg in
  let a_bc := append a (target bc) delete_dpg keep_first_dpg in
  raised ab = None → raised ab_c = None →
  raised bc = None → raised a_bc = None →
  _zoff (target ab_c) = _zoff (target a_bc)
  ∧ nb_points (target ab_c) = nb_points (target a_bc)
  ∧ nb_streamlines (target ab_c) = nb_streamlines (target a_bc)
  ∧ _zpos (target ab_c)
    = _zpos a ++ stored_rows (positions_dtype (_dtype a)) (_zpos b)
      ++ stored_rows (positions_dtype (_dtype a)) (_zpos c)
  ∧ _zpos (target a_bc)
    = _zpos a ++ stored_rows (positions_dtype (_dtype a)) (_zpos b)
      ++ stored_rows (positions_dtype (_dtype a))
           (stored_rows (positions_dtype (_dtype b)) (_zpos c))
  ∧ (positions_dtype (_dtype b) = positions_dtype (_dtype a) →
     holds_dtype (positions_dtype (_dtype a)) (_zpos c) →
     _zpos (target ab_c) = _zpos (target a_bc)).
Proof.
  intros ab ab_c bc a_bc H1 H2 H3 H4.
  assert (Hdata : ∀ x y, raised (append x y delete_dpg keep_first_dpg) = None →
    let o := append x y delete_dpg keep_first_dpg in
    _zpos (target o)
    = _zpos x ++ stored_rows (positions_dtype (_dtype x)) (_zpos y)
    ∧ _zoff (target o)
      = _zoff x ++ ((λ off, uint64 (off + nb_points x)) <$> _zoff y)
    ∧ nb_points (target o) = nb_points x + nb_points y
    ∧ nb_streamlines (target o) = nb_streamlines x + nb_streamlines y
    ∧ _dtype (target o) = _dtype x).
  { intros x y Hraised o.
    destruct (append_None_inv _ _ _ _ Hraised) as (Heq & _).
    unfold o. rewrite Heq, growth_dtype.
    destruct (growth_target (pruned x)
                (if holds_nothing (pruned x) then y else pruned y)
                keep_first_dpg) as (-> & -> & -> & -> & _).
    simpl. by destruct (holds_nothing (pruned x)). }
  destruct (Hdata _ _ H1) as (P1 & O1 & N1 & S1 & D1).
  destruct (Hdata _ _ H2) as (P2 & O2 & N2 & S2 & D2).
  destruct (Hdata _ _ H3) as (P3 & O3 & N3 & S3 & D3).
  destruct (Hdata _ _ H4) as (P4 & O4 & N4 & S4 & D4).
  fold ab in P1, O1, N1, S1, D1. fold ab_c in P2, O2, N2, S2, D2.
  fold bc in P3, O3, N3, S3, D3. fold a_bc in P4, O4, N4, S4, D4.
  assert (Hl : _zpos (target ab_c)
               = _zpos a ++ stored_rows (positions_dtype (_dtype a)) (_zpos b)
                 ++ stored_rows (positions_dtype (_dtype a)) (_zpos c))
    by (by rewrite P2, P1, D1, <- app_assoc).
  assert (Hr : _zpos (target a_bc)
               = _zpos a ++ stored_rows (positions_dtype (_dtype a)) (_zpos b)
                 ++ stored_rows (positions_dtype (_dtype a))
                      (stored_rows (positions_dtype (_dtype b)) (_zpos c)))
    by (by rewrite P4, P3, stored_rows_app).
  split; [|split; [|split; [|split; [done|split; [done|]]]]].
  - rewrite O2, O4, O1, O3, N1.
    rewrite fmap_app, <- app_assoc, <- list_fmap_compose. do 2 f_equal.
    apply list_fmap_ext. intros _ o _. simpl. by rewrite uint64_shift_shift.
  - rewrite N2, N4, N1, N3. lia.
  - rewrite S2, S4, S1, S3. lia.
  - intros Hsame Hholds. rewrite Hl, Hr, Hsame.
    by rewrite !(stored_rows_holds _ (_zpos c)) by done.
Qed.

Lemma append_associative_witness :
  raised (append Sample.plain Sample.plain false true) = None
  ∧ raised (append (target (append Sample.plain Sample.plain false true))
              Sample.plain false true) = None
  ∧ raised (append Sample.plain
              (target (append Sample.plain Sample.plain false true))
              false true) = None
  ∧ _zoff (target (append
             (target (append Sample.plain Sample.plain false true))
             Sample.plain false true))
    = _zoff (target (append Sample.plain
               (target (append Sample.plain Sample.plain false true))
               false true))
  ∧ _zpos (target (append
             (target (append Sample.plain Sample.plain false true))
             Sample.plain false true))
    = _zpos (target (append Sample.plain
               (target (append Sample.plain Sample.plain false true))
               false true)).
Proof.
  assert (H1 : raised (append Sample.plain Sample.plain false true) = None)
    by (vm_compute; reflexivity).
  assert (H2 : raised (append (target (append Sample.plain Sample.plain
                 false true)) Sample.plain false true) = None)
    by (vm_compute; reflexivity).
  assert (H4 : raised (append Sample.plain (target (append Sample.plain
                 Sample.plain false true)) false true) = None)
    by (vm_compute; reflexivity).
  split; [exact H1|]. split; [exact H2|]. split; [exact H4|].
  destruct (append_associative Sample.plain Sample.plain
              Sample.plain false true H1 H2 H1 H4)
    as (Ho & _ & _ & _ & _ & Hp).
  split; [exact Ho|exact (Hp eq_refl (holds_wide _))].
Defined.

(** ** concatenate *)

Lemma no_metadata_pruned_eq c : no_metadata c → pruned c = c.
Proof.
  destruct c. unfold no_metadata, pruned, prune_metadata. simpl.
  intros (-> & -> & -> & ->). unfold prune_arrays.
  rewrite !map_filter_empty. by rewrite map_imap_empty.
Qed.

Lemma append_None_data self app_trx delete_dpg keep_first_dpg :
  raised (append self app_trx delete_dpg keep_first_dpg) = None →
  let o := append self app_trx delete_dpg keep_first_dpg in
  _zpos (target o)
  = _zpos self ++ stored_rows (positions_dtype (_dtype self)) (_zpos app_trx)
  ∧ _zoff (target o)
    = _zoff self ++ ((λ off, uint64 (off + nb_points self)) <$> _zoff app_trx)
  ∧ nb_points (target o) = nb_points self + nb_points app_trx
  ∧ nb_streamlines (target o) = nb_streamlines self + nb_streamlines app_trx
  ∧ _dtype (target o) = _dtype self
  ∧ source o = pruned app_trx.
Proof.
  intros Hraised o. destruct (append_None_inv _ _ _ _ Hraised) as (Heq & _).
  unfold o. rewrite Heq, growth_dtype.
  destruct (growth_target (pruned self)
              (if holds_nothing (pruned self) then app_trx else pruned app_trx)
              keep_first_dpg) as (-> & -> & -> & -> & ->).
  simpl. destruct (holds_nothing (pruned self)); [done|].
  repeat split. unfold pruned. by rewrite prune_metadata_idemp.
Qed.

Lemma growth_space self app_trx keep_first_dpg :
  let o := growth self app_trx keep_first_dpg in
  voxel_to_rasmm (target o) = voxel_to_rasmm self
  ∧ dimensions (target o) = dimensions self
  ∧ storage (target o) = storage self.
Proof.
  unfold growth. destruct (is_empty app_trx) as [app' e].
  destruct e; [done|].
  destruct (append_all _ _); [|done].
  destruct (append_all _ _); done.
Qed.

Lemma append_None_space self app_trx delete_dpg keep_first_dpg :
  raised (append self app_trx delete_dpg keep_first_dpg) = None →
  let o := append self app_trx delete_dpg keep_first_dpg in
  voxel_to_rasmm (target o) = voxel_to_rasmm self
  ∧ dimensions (target o) = dimensions self
  ∧ storage (target o) = storage self.
Proof.
  intros Hraised o. destruct (append_None_inv _ _ _ _ Hraised) as (Heq & _).
  unfold o. rewrite Heq.
  by destruct (growth_space (pruned self)
                 (if holds_nothing (pruned self) then app_trx
                  else pruned app_trx) keep_first_dpg) as (-> & -> & ->).
Qed.

Lemma append_None_no_metadata self app_trx delete_dpg keep_first_dpg :
  raised (append self app_trx delete_dpg keep_first_dpg) = None →
  no_metadata (pruned self) →
  no_metadata (target (append self app_trx delete_dpg keep_first_dpg)).
Proof.
  intros Hraised Hno. destruct (append_None_inv _ _ _ _ Hraised) as (Heq & _).
  rewrite Heq. by apply growth_no_metadata.
Qed.

(** What the loop has built when it ran to its end. *)
Lemma append_each_None trx_list : ∀ new_trx new_trx' trx_list',
  no_metadata (pruned new_trx) →
  append_each new_trx trx_list = (None, new_trx', trx_list') →
  _zpos new_trx'
  = _zpos new_trx
    ++ concat ((λ trx, stored_rows (positions_dtype (_dtype new_trx)) (_zpos trx))
                 <$> trx_list)
  ∧ _dtype new_trx' = _dtype new_trx
  ∧ _zoff new_trx' = _zoff new_trx ++ joined_offsets (nb_points new_trx) trx_list
  ∧ nb_points new_trx' = nb_points new_trx + total nb_points trx_list
  ∧ nb_streamlines new_trx'
    = nb_streamlines new_trx + total nb_streamlines trx_list
  ∧ trx_list' = pruned <$> trx_list
  ∧ voxel_to_rasmm new_trx' = voxel_to_rasmm new_trx
  ∧ dimensions new_trx' = dimensions new_trx
  ∧ storage new_trx' = storage new_trx
  ∧ (trx_list ≠ [] → no_metadata new_trx').
Proof.
  induction trx_list as [|trx rest IH]; intros new_trx new_trx' trx_list' Hno.
  - simpl. intros [= <- <-]. rewrite !app_nil_r, !Z.add_0_r. by repeat split.
  - cbn [append_each]. cbv zeta.
    destruct (raised (append new_trx trx false true)) eqn:Hraised; [done|].
    destruct (append_each _ rest) as [[e c] l] eqn:Hrest.
    intros [= -> -> <-].
    pose proof (append_None_no_metadata _ _ _ _ Hraised Hno) as Hno'.
    destruct (append_None_data _ _ _ _ Hraised) as (P & O & N & S & T & Src).
    destruct (append_None_space _ _ _ _ Hraised) as (V & D & St).
    destruct (IH _ _ _ (pruned_no_metadata _ Hno') Hrest)
      as (P' & T' & O' & N' & S' & L' & V' & D' & St' & M').
    rewrite P', T', O', N', S', L', V', D', St', P, T, O, N, S, Src, V, D, St.
    cbn [fmap list_fmap concat joined_offsets total foldr].
    rewrite <- !app_assoc.
    assert (Hfinal : no_metadata new_trx').
    { destruct rest as [|trx' rest']; [|by apply M'].
      simpl in Hrest. by injection Hrest as <- _. }
    split; [done|]. split; [done|]. split; [done|].
    split; [unfold total; simpl; lia|].
    split; [unfold total; simpl; lia|]. by do 4 (split; [done|]).
Qed.

(** What the loop can raise. *)
Lemma append_each_Some trx_list : ∀ new_trx new_trx' trx_list' e,
  no_metadata (pruned new_trx) → storage new_trx ≠ ZipStore →
  append_each new_trx trx_list = (Some e, new_trx', trx_list') →
  e = SchemaMismatch ∨ e = KeySetMismatch.
Proof.
  induction trx_list as [|trx rest IH];
    intros new_trx new_trx' trx_list' e Hno Hst; [done|].
  cbn [append_each]. cbv zeta.
  destruct (raised (append new_trx trx false true)) as [e'|] eqn:Hraised.
  - intros [= <- _ _]. revert Hraised. rewrite append_eq.
    destruct (negb _ || negb _); [intros [= <-]; by left|].
    rewrite bool_decide_eq_false_2 by done. cbn [andb orb negb]. cbv zeta.
    destruct (_ && negb (_check_same_keys (dom (_zdpp _)) _));
      [intros [= <-]; by right|].
    destruct (_ && negb (_check_same_keys (dom (_zdps _)) _));
      [intros [= <-]; by right|].
    intros Hraised. exfalso. revert Hraised.
    destruct Hno as (Hp & Hs & _).
    unfold growth. destruct (is_empty _) as [app' em].
    destruct em; [done|]. unfold append_all. cbn [grow _zdpp _zdps].
    rewrite Hp, Hs, !dom_empty_L.
    by rewrite !bool_decide_eq_true_2 by apply empty_subseteq.
  - destruct (append_each _ rest) as [[e1 c] l] eqn:Hrest.
    intros [= -> -> <-].
    pose proof (append_None_no_metadata _ _ _ _ Hraised Hno) as Hno'.
    destruct (append_None_space _ _ _ _ Hraised) as (_ & _ & St).
    eapply IH; [by apply pruned_no_metadata| |exact Hrest].
    by rewrite St.
Qed.

(** When [concatenate] returns a container, that container has no
    per-point, per-streamline, group or per-group entry at all, whatever
    the containers of the list held.  Its dtypes are those of the first
    container; its positions are theirs end to end, each converted to
    the dtype of its positions (as they are when that dtype holds them
    already), its offsets theirs shifted by the points before, its
    counts the sums of theirs; the space attributes are those of the
    first container and the backend is a temporary store.  Every
    container of the list is left pruned. *)
Theorem concatenate_result (trx_list : list TrxFile) (new_trx : TrxFile)
    (trx_list' : list TrxFile) :
  concatenate trx_list = (Ok new_trx, trx_list') →
  no_metadata new_trx
  ∧ Some (_dtype new_trx) = _dtype <$> head trx_list
  ∧ _zpos new_trx
    = concat ((λ trx, stored_rows (positions_dtype (_dtype new_trx)) (_zpos trx))
                <$> trx_list)
  ∧ (Forall (λ trx, holds_dtype (positions_dtype (_dtype new_trx)) (_zpos trx))
       trx_list →
     _zpos new_trx = concat (_zpos <$> trx_list))
  ∧ _zoff new_trx = joined_offsets 0 trx_list
  ∧ nb_points new_trx = total nb_points trx_list
  ∧ nb_streamlines new_trx = total nb_streamlines trx_list
  ∧ Some (voxel_to_rasmm new_trx) = voxel_to_rasmm <$> head trx_list
  ∧ Some (dimensions new_trx) = dimensions <$> head trx_list
  ∧ storage new_trx = TempStore
  ∧ trx_list' = pruned <$> trx_list.
Proof.
  unfold concatenate. destruct trx_list as [|first rest]; [done|].
  destruct (append_each _ _) as [[e c] l] eqn:Heach.
  destruct e as [e|]; [done|]. intros [= -> ->].
  destruct (append_each_None _ _ _ _ (pruned_clone_no_metadata first) Heach)
    as (P & T & O & N & S & L & V & D & St & M).
  split; [by apply M|]. split; [by rewrite T|].
  assert (Hpos : _zpos new_trx
    = concat ((λ trx, stored_rows (positions_dtype (_dtype new_trx)) (_zpos trx))
                <$> first :: rest)) by (by rewrite P, T).
  split; [done|]. split.
  { intros Hall. rewrite Hpos. f_equal. apply Forall_fmap_ext.
    eapply Forall_impl; [exact Hall|]. intros trx Htrx.
    by apply stored_rows_holds. }
  rewrite O, N, S, L, V, D, St. simpl. by repeat split.
Qed.

Lemma concatenate_result_witness :
  (concatenate [Sample.A; Sample.plain]).1
  = Ok (target (append (target (append (init_as Sample.A) Sample.A false true))
                  Sample.plain false true))
  ∧ no_metadata (target (append
                   (target (append (init_as Sample.A) Sample.A false true))
                   Sample.plain false true)).
Proof.
  assert (H : concatenate [Sample.A; Sample.plain]
              = (Ok (target (append
                       (target (append (init_as Sample.A) Sample.A false true))
                       Sample.plain false true)),
                 [pruned Sample.A; pruned Sample.plain]))
    by (vm_compute; reflexivity).
  split; [by rewrite H|].
  exact (proj1 (concatenate_result _ _ _ H)).
Defined.

(** [concatenate] raises nothing but the index error of an empty list,
    the space-attribute mismatch and the key-set mismatch of [append]:
    never the missing-key error of the growth loops, nor the errors of
    the backend and policy checks. *)
Theorem concatenate_errors (trx_list : list TrxFile) (e : error) :
  (concatenate trx_list).1 = Err e →
  (trx_list = [] ∧ e = IndexError)
  ∨ (trx_list ≠ [] ∧ (e = SchemaMismatch ∨ e = KeySetMismatch)).
Proof.
  unfold concatenate. destruct trx_list as [|first rest].
  - intros [= <-]. by left.
  - destruct (append_each _ _) as [[e' c] l] eqn:Heach.
    destruct e' as [e'|]; [|done]. intros [= ->]. right. split; [done|].
    by eapply (append_each_Some _ _ _ _ _
                 (pruned_clone_no_metadata first) ltac:(done) Heach).
Qed.

Lemma concatenate_errors_witness :
  (concatenate [Sample.A; Sample.A]).1 = Err KeySetMismatch
  ∧ (([Sample.A; Sample.A] = [] ∧ KeySetMismatch = IndexError)
     ∨ ([Sample.A; Sample.A] ≠ []
        ∧ (KeySetMismatch = SchemaMismatch
           ∨ KeySetMismatch = KeySetMismatch))).
Proof.
  assert (H : (concatenate [Sample.A; Sample.A]).1 = Err KeySetMismatch)
    by (vm_compute; reflexivity).
  split; [exact H|].
  exact (concatenate_errors _ _ H).
Defined.

(** A list whose first container has points and whose second container
    has a per-point or a per-streamline array with rows cannot be
    concatenated: the clone being built has lost every key by the
    second [append], which then fails its key-set check (or its
    space-attribute check before that). *)
Theorem concatenate_with_metadata (t0 t1 : TrxFile) (rest : list TrxFile) :
  _zpos t0 ≠ [] →
  _zdpp (pruned t1) ≠ ∅ ∨ _zdps (pruned t1) ≠ ∅ →
  ∃ e, (concatenate (t0 :: t1 :: rest)).1 = Err e
       ∧ (e = SchemaMismatch ∨ e = KeySetMismatch).
Proof.
  intros Hpos Hmeta. unfold concatenate.
  destruct (append_each _ _) as [[e c] l] eqn:Heach.
  destruct e as [e|].
  { exists e. split; [done|].
    by eapply (append_each_Some _ _ _ _ _
                 (pruned_clone_no_metadata t0) ltac:(done) Heach). }
  exfalso. revert Heach. cbn [append_each]. cbv zeta.
  destruct (raised (append (init_as t0) t0 false true)) eqn:H0; [done|].
  pose proof (append_None_no_metadata _ _ _ _ H0
                (pruned_clone_no_metadata t0)) as Hno.
  destruct (append_None_data _ _ _ _ H0) as (P & _).
  set (c1 := target (append (init_as t0) t0 false true)) in *.
  assert (Hraised : raised (append c1 t1 false true) ≠ None).
  { rewrite append_eq. destruct (negb _ || negb _); [done|].
    destruct (bool_decide (storage c1 = ZipStore)); [done|].
    cbn [andb orb negb]. cbv zeta.
    rewrite (no_metadata_pruned_eq _ Hno).
    assert (Hc1 : holds_nothing c1 = false).
    { unfold holds_nothing. rewrite P. simpl.
      apply negb_false_iff. rewrite !orb_true_iff. left. right.
      apply bool_decide_eq_true. rewrite length_stored_rows.
      destruct (_zpos t0); [done|]. simpl. lia. }
    assert (Ht1 : holds_nothing (pruned t1) = false).
    { unfold holds_nothing. apply negb_false_iff. rewrite !orb_true_iff.
      destruct Hmeta as [Hm|Hm]; [do 5 left|do 4 left; right];
        apply bool_decide_eq_true; by rewrite map_size_empty_iff. }
    rewrite Hc1, Ht1. cbn [andb negb].
    destruct Hno as (Hp & Hs & _). rewrite Hp, Hs, !dom_empty_L.
    unfold _check_same_keys.
    destruct Hmeta as [Hm|Hm].
    - rewrite (bool_decide_eq_false_2 (∅ = dom (_zdpp (pruned t1)))); [done|].
      intros Hd. symmetry in Hd. by apply dom_empty_inv_L in Hd.
    - destruct (negb (bool_decide (∅ = dom (_zdpp (pruned t1))))); [done|].
      rewrite (bool_decide_eq_false_2 (∅ = dom (_zdps (pruned t1)))); [done|].
      intros Hd. symmetry in Hd. by apply dom_empty_inv_L in Hd. }
  destruct (raised (append c1 t1 false true)); [done|].
  by destruct Hraised.
Qed.

Lemma concatenate_with_metadata_witness :
  _zpos Sample.A ≠ []
  ∧ _zdpp (pruned Sample.A) ≠ ∅
  ∧ ∃ e, (concatenate [Sample.A; Sample.A]).1 = Err e
         ∧ (e = SchemaMismatch ∨ e = KeySetMismatch).
Proof.
  assert (H1 : _zpos Sample.A ≠ []) by done.
  assert (H2 : _zdpp (pruned Sample.A) ≠ ∅).
  { intros H. apply (f_equal (λ m, m !! "colour")) in H.
    vm_compute in H. discriminate H. }
  split; [exact H1|]. split; [exact H2|].
  exact (concatenate_with_metadata Sample.A Sample.A [] H1 (or_introl H2)).
Defined.

(** ** get_group *)

Lemma filter_all {A} (P : A → Prop) `{!∀ x, Decision (P x)} (l : list A) :
  Forall P l → filter P l = l.
Proof.
  induction 1 as [|x l Hx _ IH]; [done|].
  by rewrite filter_cons_True, IH.
Qed.

(** The positions a list without repetition holds its own values at. *)
Lemma positions_of_distinct (grp new_group : list Z) :
  NoDup grp →
  Forall (λ y, 0 ≤ y < Z.of_nat (length grp)) new_group →
  (λ y, grp !!! Z.to_nat y) <$> new_group = grp →
  new_group = seqZ 0 (Z.of_nat (length grp)).
Proof.
  intros Hnd Hall Hval.
  assert (Hlen : length new_group = length grp).
  { apply (f_equal length) in Hval. by rewrite length_fmap in Hval. }
  apply list_eq. intros i.
  destruct (decide (i < length grp)%nat) as [Hi|Hi].
  - rewrite lookup_seqZ_lt by lia.
    destruct (lookup_lt_is_Some_2 new_group i) as [y Hy]; [lia|].
    rewrite Hy. f_equal.
    pose proof (proj1 (Forall_lookup _ _) Hall i y Hy) as Hy'.
    cbv beta in Hy'.
    assert (H1 : grp !! i = Some (grp !!! Z.to_nat y)).
    { apply (f_equal (λ l, l !! i)) in Hval. cbv beta in Hval.
      by rewrite list_lookup_fmap, Hy in Hval. }
    assert (H2 : grp !! Z.to_nat y = Some (grp !!! Z.to_nat y))
      by (apply list_lookup_lookup_total_lt; lia).
    pose proof (NoDup_lookup _ _ _ _ Hnd H1 H2). lia.
  - rewrite lookup_ge_None_2 by lia.
    symmetry. apply lookup_seqZ_ge. lia.
Qed.

(** Out of a valid container, [get_group] on a group whose members are
    distinct valid indices returns the streamlines of the group in the
    order the group lists them, and the group itself becomes
    [0, 1, .., m-1] in the container returned. *)
Theorem get_group_members (self : TrxFile) (key : string) (grp : list Z) :
  valid self → nb_streamlines self ≤ 2 ^ 32 →
  _zgrp self !! key = Some grp →
  grp ≠ [] → NoDup grp →
  Forall (λ i, 0 ≤ i < nb_streamlines self) grp →
  ∃ new_trx,
    get_group self key = Ok new_trx
    ∧ _zpos new_trx = concat (streamline_points self (_zpos self) <$> grp)
    ∧ nb_streamlines new_trx = Z.of_nat (length grp)
    ∧ _zgrp new_trx !! key = Some (seqZ 0 (Z.of_nat (length grp))).
Proof.
  intros Hvalid Hn Hkey Hne Hnd Hall.
  destruct (select_valid self grp true Hvalid Hn Hne Hall)
    as (r & Hr & Hpos & _ & _ & Hns & _).
  exists r. unfold get_group. rewrite Hkey.
  split; [done|]. split; [done|]. split; [done|].
  pose proof (in_range_uint32 _ _ Hn Hall) as Hidx.
  destruct (intersect_groups_spec grp grp Hne)
    as (new_group & Hint & Hbound & Hval).
  rewrite filter_all in Hval by (by apply Forall_forall).
  pose proof (positions_of_distinct _ _ Hnd Hbound Hval) as ->.
  apply (select_Ok_inv _ _ _ _ _ Hidx Hne) in Hr
    as (sel & pos & dpp & dps & zgrp & _ & _ & _ & _ & _ & Hz & _ & _ & _ & _
        & _ & _ & Hg).
  unfold select_groups in Hz.
  destruct (map_try _ (_zgrp self)) as [new_groups|] eqn:Htry; [|done].
  simpl in Hz. injection Hz as <-.
  rewrite Hg, prune_arrays_lookup_case, lookup_merge. simpl.
  rewrite lookup_fmap, Hkey, (map_try_lookup _ _ _ key Htry), Hkey. simpl.
  rewrite Hint. simpl.
  destruct grp as [|g grp']; [done|].
  rewrite seqZ_cons by (simpl; lia). done.
Qed.

Lemma get_group_members_witness :
  valid Sample.A
  ∧ nb_streamlines Sample.A ≤ 2 ^ 32
  ∧ _zgrp Sample.A !! "g1" = Some [0; 2]
  ∧ ∃ new_trx,
      get_group Sample.A "g1" = Ok new_trx
      ∧ nb_streamlines new_trx = 2
      ∧ _zgrp new_trx !! "g1" = Some [0; 1].
Proof.
  assert (H1 : valid Sample.A) by exact valid_sample.
  assert (H2 : nb_streamlines Sample.A ≤ 2 ^ 32) by (simpl; lia).
  assert (H3 : _zgrp Sample.A !! "g1" = Some [0; 2]) by reflexivity.
  assert (H4 : [0; 2] ≠ ([] : list Z)) by done.
  assert (H5 : NoDup ([0; 2] : list Z)).
  { apply NoDup_cons. split; [|apply NoDup_singleton].
    intros H%list_elem_of_singleton. discriminate H. }
  assert (H6 : Forall (λ i, 0 ≤ i < nb_streamlines Sample.A) [0; 2])
    by (repeat constructor; simpl; lia).
  split; [exact H1|]. split; [exact H2|]. split; [exact H3|].
  destruct (get_group_members Sample.A "g1" [0; 2] H1 H2 H3 H4 H5 H6)
    as (r & Hr & _ & Hn & Hg).
  exists r. split; [exact Hr|]. split; [exact Hn|exact Hg].
Defined.

(** *** The exceptions that can surface *)










(** ** Selecting out of a selection *)

Lemma running_totals_lookup (lens : list Z) : ∀ acc j,
  (j < length lens)%nat →
  running_totals acc lens !! j = Some (acc + foldr Z.add 0 (take j lens)).
Proof.
  induction lens as [|x lens IH]; intros acc j Hj; [simpl in Hj; lia|].
  destruct j as [|j]; simpl.
  - f_equal. lia.
  - rewrite IH by (simpl in Hj; lia). f_equal. lia.
Qed.

Lemma running_totals_end (lens : list Z) acc j :
  (j ≤ length lens)%nat →
  default (acc + foldr Z.add 0 lens) (running_totals acc lens !! j)
  = acc + foldr Z.add 0 (take j lens).
Proof.
  intros Hj. destruct (decide (j < length lens)%nat) as [Hlt|Hge].
  - by rewrite running_totals_lookup.
  - rewrite lookup_ge_None_2 by (rewrite running_totals_length; lia).
    by rewrite take_ge by lia.
Qed.

Lemma block_of_concat {A} (blocks : list (list A)) : ∀ j b,
  blocks !! j = Some b →
  take (length b) (drop (length (concat (take j blocks))) (concat blocks)) = b.
Proof.
  induction blocks as [|x blocks IH]; intros j b Hj; [done|].
  destruct j as [|j]; simpl in *.
  - injection Hj as ->. apply take_app_length.
  - rewrite length_app, drop_app_add. by apply IH.
Qed.

(** In a container whose offsets are the running totals of the lengths
    of some blocks, the streamlines of an array made of blocks of these
    lengths are the blocks. *)
Lemma streamline_points_block c (lens : list Z) (blocks : list (list row)) j b :
  _zoff c = running_totals 0 lens →
  nb_points c = foldr Z.add 0 lens →
  (λ b, Z.of_nat (length b)) <$> blocks = lens →
  blocks !! j = Some b →
  streamline_points c (concat blocks) (Z.of_nat j) = b.
Proof.
  intros Hoff Hn Hlens Hj.
  assert (Hlt : (j < length lens)%nat).
  { rewrite <- Hlens, length_fmap. by eapply lookup_lt_Some. }
  assert (Hsum : ∀ k, foldr Z.add 0 (take k lens)
                      = Z.of_nat (length (concat (take k blocks)))).
  { intros k. by rewrite <- Hlens, <- fmap_take, sum_block_lengths. }
  unfold streamline_points, streamline_end. rewrite Nat2Z.id, Hoff, Hn.
  rewrite (list_lookup_total_correct _ _ _ (running_totals_lookup lens 0 j Hlt)).
  pose proof (running_totals_end lens 0 (S j) ltac:(lia)) as Hend.
  rewrite Z.add_0_l in Hend. rewrite Hend, !Z.add_0_l, !Hsum.
  rewrite (take_S_r _ _ _ Hj), concat_app, length_app. simpl.
  rewrite app_nil_r, !Nat2Z.id.
  replace (length (concat (take j blocks)) + length b
           - length (concat (take j blocks)))%nat with (length b) by lia.
  by apply block_of_concat.
Qed.

Lemma select_clone_data self :
  let c := prune_metadata (init_as self) false in
  _zpos c = [] ∧ _zoff c = [] ∧ nb_points c = 0 ∧ nb_streamlines c = 0
  ∧ _zdpp c = ∅ ∧ _zdps c = ∅.
Proof.
  destruct (pruned_clone_no_metadata self) as (Hp & Hs & _). by repeat split.
Qed.

(** Selecting [J] out of the selection of [I] is selecting, out of the
    original, the indices that [I] holds at the positions [J]: the two
    containers have the same positions, offsets, counts, per-point and
    per-streamline arrays.  (Valid original, indices in range, point
    count of the first selection within the 64-bit offsets.) *)
Theorem select_select (self : TrxFile) (I J : list Z) (keep_group : bool)
    (first : TrxFile) :
  valid self → nb_streamlines self ≤ 2 ^ 32 →
  Forall (λ i, 0 ≤ i < nb_streamlines self) I →
  select self I keep_group = Ok first →
  nb_points first < 2 ^ 64 →
  Z.of_nat (length I) ≤ 2 ^ 32 →
  Forall (λ j, 0 ≤ j < Z.of_nat (length I)) J →
  ∃ second direct,
    select first J keep_group = Ok second
    ∧ select self ((λ j, I !!! Z.to_nat j) <$> J) keep_group = Ok direct
    ∧ _zpos second = _zpos direct
    ∧ _zoff second = _zoff direct
    ∧ nb_points second = nb_points direct
    ∧ nb_streamlines second = nb_streamlines direct
    ∧ _zdpp second = _zdpp direct
    ∧ _zdps second = _zdps direct.
Proof.
  intros Hvalid Hn HI Hsel Hfit HlenI HJ.
  destruct (decide (J = [])) as [->|HJne].
  { do 2 eexists. rewrite !select_nil by done. split; [done|]. split; [done|].
    destruct (select_clone_data self) as (-> & -> & -> & -> & -> & ->).
    destruct (select_clone_data first) as (-> & -> & -> & -> & -> & ->).
    by repeat split. }
  assert (HIne : I ≠ []).
  { intros ->. destruct J as [|j J]; [done|].
    apply Forall_cons in HJ as [Hj _]. simpl in Hj. lia. }
  destruct (select_result_valid _ _ _ _ Hvalid Hn HI Hsel Hfit)
    as [Hvfirst Htot].
  destruct (select_valid self I keep_group Hvalid Hn HIne HI)
    as (r & Hr & Hpos & _ & Hnp & Hns & Hdpp & Hdps).
  rewrite Hsel in Hr. injection Hr as <-.
  pose proof Hvalid as [Hpart Hvdpp Hvdps]. pose proof Hpart as (_ & Hnpts & _).
  set (K := (λ j, I !!! Z.to_nat j) <$> J).
  assert (HJ' : Forall (λ j, 0 ≤ j < nb_streamlines first) J)
    by (by rewrite Hns).
  assert (HK : Forall (λ i, 0 ≤ i < nb_streamlines self) K).
  { unfold K. apply Forall_fmap. eapply Forall_impl; [exact HJ|].
    intros j Hj. cbv beta in Hj. simpl.
    apply (proj1 (Forall_forall _ _) HI).
    apply list_elem_of_lookup_total_2. lia. }
  assert (HKne : K ≠ []) by (unfold K; by destruct J).
  destruct (select_valid first J keep_group Hvfirst ltac:(lia) HJne HJ')
    as (second & Hsecond & Hpos2 & Hoff2 & Hnp2 & Hns2 & Hdpp2 & Hdps2).
  destruct (select_valid self K keep_group Hvalid Hn HKne HK)
    as (direct & Hdirect & Hpos' & Hoff' & Hnp' & Hns' & Hdpp' & Hdps').
  exists second, direct. split; [done|]. split; [done|].
  set (lens := (λ i, Z.of_nat (length (streamline_points self (_zpos self) i)))
                 <$> I) in *.
  assert (Hsum : nb_points first = foldr Z.add 0 lens).
  { unfold lens. rewrite (list_fmap_compose
      (streamline_points self (_zpos self)) (λ b, Z.of_nat (length b))).
    by rewrite sum_block_lengths, Hnp, Hpos. }
  (* the streamlines of the first selection, over any array of the
     original with one row per point *)
  assert (Hblock : ∀ data j, Z.of_nat (length data) = nb_points self →
    0 ≤ j < Z.of_nat (length I) →
    streamline_points first
      (concat (streamline_points self data <$> I)) j
    = streamline_points self data (I !!! Z.to_nat j)).
  { intros data j Hdata Hj.
    rewrite <- (Z2Nat.id j) at 1 by lia.
    apply (streamline_points_block first lens); [done|done| |].
    - unfold lens. rewrite <- list_fmap_compose.
      apply Forall_fmap_ext. eapply Forall_impl; [exact HI|].
      intros i Hi. cbv beta in Hi. simpl.
      destruct (streamline_points_length self data i Hpart Hdata Hi)
        as [-> _].
      by destruct (streamline_points_length self (_zpos self) i Hpart
                    (eq_sym Hnpts) Hi)
        as [-> _].
    - rewrite list_lookup_fmap.
      destruct (lookup_lt_is_Some_2 I (Z.to_nat j)) as [i Hi]; [lia|].
      by rewrite Hi, (list_lookup_total_correct _ _ _ Hi). }
  assert (Hgather : ∀ data, Z.of_nat (length data) = nb_points self →
    concat (streamline_points first
              (concat (streamline_points self data <$> I)) <$> J)
    = concat (streamline_points self data <$> K)).
  { intros data Hdata. unfold K. rewrite <- list_fmap_compose. f_equal.
    apply Forall_fmap_ext. eapply Forall_impl; [exact HJ|].
    intros j Hj. by apply Hblock. }
  assert (Hp : _zpos second = _zpos direct).
  { by rewrite Hpos2, Hpos', Hpos, Hgather. }
  assert (Ho : _zoff second = _zoff direct).
  { rewrite Hoff2, Hoff'. do 4 f_equal. unfold K.
    rewrite <- list_fmap_compose. apply Forall_fmap_ext.
    eapply Forall_impl; [exact HJ|]. intros j Hj. simpl.
    by rewrite Hpos, Hblock. }
  split; [done|]. split; [done|].
  split; [by rewrite Hnp2, Hnp', Hp|].
  split; [unfold K in Hns'; by rewrite Hns2, Hns', length_fmap|].
  split.
  - rewrite Hdpp2, Hdpp', Hdpp. apply map_eq. intros k.
    rewrite !prune_arrays_lookup_case, !lookup_fmap,
      prune_arrays_lookup_case, lookup_fmap.
    destruct (_zdpp self !! k) as [a|] eqn:Hk; [|done]. simpl.
    pose proof (Hvdpp k a Hk) as Ha. cbv beta in Ha.
    destruct (decide (concat (streamline_points self a <$> I) = []))
      as [Hnil|Hnn]; simpl.
    + rewrite decide_True; [done|].
      rewrite <- (Hgather a Ha), Hnil.
      clear. induction J as [|j J IH]; [done|]. csimpl.
      rewrite IH, app_nil_r. unfold streamline_points.
      by rewrite drop_nil, take_nil.
    + by rewrite (Hgather a Ha).
  - rewrite Hdps2, Hdps', Hdps. apply map_eq. intros k.
    rewrite !prune_arrays_lookup_case, !lookup_fmap,
      prune_arrays_lookup_case, lookup_fmap.
    destruct (_zdps self !! k) as [a|] eqn:Hk; [|done]. simpl.
    rewrite decide_False by (by destruct I). simpl.
    assert (Heq : (λ i, ((λ i0, a !!! Z.to_nat i0) <$> I) !!! Z.to_nat i) <$> J
                  = (λ i, a !!! Z.to_nat i) <$> K).
    { unfold K. rewrite <- list_fmap_compose. apply Forall_fmap_ext.
      eapply Forall_impl; [exact HJ|]. intros j Hj. simpl.
      cbv beta in Hj.
      destruct (lookup_lt_is_Some_2 I (Z.to_nat j)) as [i Hi]; [lia|].
      rewrite (list_lookup_total_correct I _ _ Hi).
      apply list_lookup_total_correct. by rewrite list_lookup_fmap, Hi. }
    by rewrite Heq.
Qed.

Lemma select_select_witness :
  valid Sample.A ∧ nb_streamlines Sample.A ≤ 2 ^ 32
  ∧ Forall (λ i, 0 ≤ i < nb_streamlines Sample.A) [2; 0; 1]
  ∧ Forall (λ j, 0 ≤ j < Z.of_nat (length [2; 0; 1])) [1; 0; 0]
  ∧ ∃ first second direct,
      select Sample.A [2; 0; 1] true = Ok first
      ∧ select first [1; 0; 0] true = Ok second
      ∧ select Sample.A [0; 2; 2] true = Ok direct
      ∧ _zpos second = _zpos direct.
Proof.
  assert (H1 : valid Sample.A) by exact valid_sample.
  assert (H2 : nb_streamlines Sample.A ≤ 2 ^ 32) by (simpl; lia).
  assert (H3 : Forall (λ i, 0 ≤ i < nb_streamlines Sample.A) [2; 0; 1])
    by (repeat constructor; simpl; lia).
  assert (H4 : ∃ first, select Sample.A [2; 0; 1] true = Ok first
                        ∧ nb_points first = 7).
  { vm_compute. eexists. split; reflexivity. }
  assert (H6 : Z.of_nat (length ([2; 0; 1] : list Z)) ≤ 2 ^ 32)
    by (simpl; lia).
  assert (H7 : Forall (λ j, 0 ≤ j < Z.of_nat (length ([2; 0; 1] : list Z)))
                 [1; 0; 0])
    by (repeat constructor; simpl; lia).
  split; [exact H1|]. split; [exact H2|]. split; [exact H3|].
  split; [exact H7|].
  destruct H4 as (first & H4 & H5').
  assert (H5 : nb_points first < 2 ^ 64) by (rewrite H5'; lia).
  destruct (select_select Sample.A [2; 0; 1] [1; 0; 0] true first
              H1 H2 H3 H4 H5 H6 H7)
    as (second & direct & Hs & Hd & Hp & _).
  exists first, second, direct.
  split; [exact H4|]. split; [exact Hs|]. split; [exact Hd|exact Hp].
Defined.

(** ** Groups and per-group data through append *)

Lemma pruned_source self app_trx :
  pruned (if holds_nothing (pruned self) then app_trx else pruned app_trx)
  = pruned app_trx.
Proof.
  destruct (holds_nothing _); [done|]. unfold pruned.
  by rewrite prune_metadata_idemp.
Qed.

Lemma growth_per_group self app_trx keep_first_dpg :
  raised (growth self app_trx keep_first_dpg) = None →
  holds_nothing (pruned app_trx) = false →
  _zdpg (target (growth self app_trx keep_first_dpg))
  = if keep_first_dpg then
      map_imap (λ grp_key sub,
        Some (merge append_rows sub
                (stored_arrays (dpg_dtype (_dtype self) grp_key)
                   (sub_group (_zdpg (pruned app_trx)) grp_key)))) (_zdpg self)
    else _zdpg self.
Proof.
  unfold growth, is_empty. fold (pruned app_trx). intros Hraised He.
  revert Hraised. rewrite He.
  destruct (append_all _ _); [|by simpl].
  destruct (append_all _ _); [|by simpl]. done.
Qed.

(** When [append] completes on a source that holds something, the target
    keeps exactly the groups it had after pruning: each one receives the
    source's members of the same key, shifted by the streamline count of
    the target after the append (the sum of both counts), and a group
    that only the source has is dropped.  The per-group sub-groups of
    the target stay the same set; under [delete_dpg] (without
    [keep_first_dpg]) the per-group data of the target is left as it
    was: nothing is deleted. *)
Theorem append_groups (self app_trx : TrxFile)
    (delete_dpg keep_first_dpg : bool) :
  raised (append self app_trx delete_dpg keep_first_dpg) = None →
  (is_empty app_trx).2 = false →
  let o := append self app_trx delete_dpg keep_first_dpg in
  (∀ grp_key,
     _zgrp (target o) !! grp_key
     = (λ old, old ++ ((λ i, i + (nb_streamlines self + nb_streamlines app_trx))
                         <$> default [] (_zgrp (pruned app_trx) !! grp_key)))
         <$> _zgrp (pruned self) !! grp_key)
  ∧ dom (_zgrp (target o)) = dom (_zgrp (pruned self))
  ∧ dom (_zdpg (target o)) = dom (_zdpg (pruned self))
  ∧ (keep_first_dpg = false → _zdpg (target o) = _zdpg (pruned self)).
Proof.
  intros Hraised He o. subst o.
  unfold is_empty in He. cbn [snd] in He. fold (pruned app_trx) in He.
  destruct (append_None_inv _ _ _ _ Hraised) as (Heq & _).
  rewrite Heq in Hraised |- *. clear Heq.
  set (app' := if holds_nothing (pruned self) then app_trx
               else pruned app_trx) in *.
  assert (Hp : pruned app' = pruned app_trx) by apply pruned_source.
  assert (Hn : nb_streamlines app' = nb_streamlines app_trx)
    by (unfold app'; by destruct (holds_nothing _)).
  assert (He' : holds_nothing (pruned app') = false) by (by rewrite Hp).
  assert (Hgrp : ∀ grp_key,
     _zgrp (target (growth (pruned self) app' keep_first_dpg)) !! grp_key
     = (λ old, old ++ ((λ i, i + (nb_streamlines self + nb_streamlines app_trx))
                         <$> default [] (_zgrp (pruned app_trx) !! grp_key)))
         <$> _zgrp (pruned self) !! grp_key).
  { intros grp_key.
    rewrite (growth_groups _ _ _ grp_key Hraised He'), Hp, Hn. done. }
  pose proof (growth_per_group _ _ _ Hraised He') as Hdpg.
  split; [done|]. split; [|split].
  - apply set_eq. intros k. rewrite !elem_of_dom, Hgrp.
    by rewrite fmap_is_Some.
  - rewrite Hdpg. destruct keep_first_dpg; [|done].
    apply set_eq. intros k. rewrite !elem_of_dom, map_lookup_imap.
    destruct (_zdpg (pruned self) !! k); simpl; split; intros [? ?]; eauto;
      done.
  - intros ->. by rewrite Hdpg.
Qed.

Lemma append_groups_witness :
  raised (append Sample.A Sample.A true false) = None
  ∧ (is_empty Sample.A).2 = false
  ∧ _zgrp (target (append Sample.A Sample.A true false)) !! "g1"
    = Some [0; 2; 6; 8]
  ∧ _zdpg (target (append Sample.A Sample.A true false))
    = _zdpg (pruned Sample.A).
Proof.
  assert (H1 : raised (append Sample.A Sample.A true false) = None)
    by (vm_compute; reflexivity).
  assert (H2 : (is_empty Sample.A).2 = false) by (vm_compute; reflexivity).
  split; [exact H1|]. split; [exact H2|].
  destruct (append_groups Sample.A Sample.A true false H1 H2)
    as (Hg & _ & _ & Hd).
  split; [|exact (Hd eq_refl)].
  rewrite (Hg "g1"). vm_compute. reflexivity.
Defined.

(** ** Per-group data through select *)

Lemma append_clone_rows {A} (sub : gmap string (list A)) :
  merge append_rows ((λ _, []) <$> sub) sub = sub.
Proof.
  apply map_eq. intros k. rewrite lookup_append_clone.
  by destruct (sub !! k).
Qed.

Lemma clone_per_group_lookup (zdpg : gmap string (gmap string (list row))) k :
  ((λ sub : gmap string (list row), (λ _, []) <$> sub)
     <$> filter (λ kv, size kv.2 ≠ 0%nat) zdpg) !! k
  = match zdpg !! k with
    | Some sub =>
        if decide (sub = ∅) then None
        else Some ((λ _, []) <$> sub : gmap string (list row))
    | None => None
    end.
Proof.
  rewrite lookup_fmap, map_lookup_filter.
  destruct (zdpg !! k) as [sub|]; [|done]. simpl.
  destruct (decide (sub = ∅)) as [->|Hne].
  - by rewrite option_guard_False by (simpl; rewrite map_size_empty; lia).
  - rewrite option_guard_True; [done|]. simpl.
    by rewrite map_size_empty_iff.
Qed.

(** The per-group data of a selection: a group that is left in the
    selection comes with all the per-group arrays the original has for
    it, whole and whichever members were selected (zero-row arrays
    apart); a group that is not left has none. *)
Theorem select_per_group_data (self : TrxFile) (indices : list Z)
    (keep_group : bool) (new_trx : TrxFile) (grp_key : string) :
  select self indices keep_group = Ok new_trx →
  _zdpg new_trx !! grp_key
  = match _zgrp new_trx !! grp_key, _zdpg self !! grp_key with
    | Some _, Some sub =>
        if decide (sub = ∅) then None else Some (prune_arrays false sub)
    | _, _ => None
    end.
Proof.
  destruct (decide (indices = [])) as [->|Hne].
  { rewrite select_nil by done. intros [= <-].
    destruct (pruned_clone_no_metadata self) as (_ & _ & -> & ->).
    by rewrite !lookup_empty. }
  assert (Hne' : uint32 <$> indices ≠ []) by (by destruct indices).
  unfold select.
  destruct (invalid_indices _ _); [done|].
  rewrite bool_decide_eq_false_2 by done. cbv zeta.
  destruct (getitem _ _) as [sel|]; cbn [mbind result_bind]; [|done].
  destruct (get_data sel) as [pos|]; cbn [mbind result_bind]; [|done].
  destruct (map_try (gather _ _) _) as [dpp|]; cbn [mbind result_bind]; [|done].
  destruct (map_try (λ arr, fancy_index arr _) _) as [dps|];
    cbn [mbind result_bind]; [|done].
  destruct (select_groups _ _ _ _) as [zgrp|];
    cbn [mbind result_bind]; [|done].
  intros [= <-]. cbn [prune_metadata _zdpg _zgrp init_as].
  rewrite !map_lookup_imap, clone_per_group_lookup.
  rewrite prune_arrays_lookup_case.
  destruct (_zdpg self !! grp_key) as [sub|] eqn:Hsub;
    [|by destruct (zgrp !! grp_key) as [g|]; [destruct (decide (g = []))|]].
  destruct (decide (sub = ∅)) as [->|Hsne];
    [by destruct (zgrp !! grp_key) as [g|]; [destruct (decide (g = []))|]|].
  cbn [mbind option_bind].
  destruct (zgrp !! grp_key) as [g|] eqn:Hg; [|done].
  rewrite bool_decide_eq_true_2 by done.
  destruct (decide (g = [])); [done|].
  unfold sub_group. rewrite Hsub. simpl. by rewrite append_clone_rows.
Qed.

Lemma select_per_group_data_witness :
  ∃ new_trx,
    select Sample.A [2] true = Ok new_trx
    ∧ _zgrp new_trx !! "g1" = Some [0]
    ∧ _zdpg new_trx !! "g1" = _zdpg Sample.A !! "g1".
Proof.
  assert (H : ∃ new_trx, select Sample.A [2] true = Ok new_trx
                         ∧ _zgrp new_trx !! "g1" = Some [0]).
  { vm_compute. eexists. split; reflexivity. }
  destruct H as (new_trx & H & Hg). exists new_trx.
  split; [exact H|]. split; [exact Hg|].
  rewrite (select_per_group_data Sample.A [2] true new_trx "g1" H), Hg.
  vm_compute. reflexivity.
Defined.
